(** * Verification of the MFEM plasma-transport miniapp and the ex1lor driver

    Shallow embedding of
      - [miniapps/plasma/transport_solver.cpp]  (time-dependent operators,
        Euler flux and Riemann solver), and
      - [examples/ginkgo/ex1lor.cpp]            (command-line driver).

    Conventions of the embedding.
      - A C++ [double] is a real number ([R]): rounding, infinities and NaN
        are not represented, so every statement below is about the exact
        arithmetic the code is written in.
      - A C++ [int] holding a size or an offset is an integer ([Z]) or a
        loop bound ([nat]); signed overflow is undefined in C++ and is not
        represented.  A [double*] is a flat address ([Z], in units of one
        [double]); [NULL] is address [0].
      - An [mfem::Vector] is a list of reals, read with [vget] and written
        in place with [vset].
      - Calls into the finite-element library whose numerical result is
        irrelevant to a property are recorded as events in a trace, in
        program order.

    Part I holds the definitions, Part II the lemmas and theorems. *)

From Stdlib Require Import Reals Lra Lia ZArith String Bool Arith List.
Import ListNotations.

(** * Part I: the embedding *)

(** ** Loops *)

(** [for (int i = 0; i < n; i++) body(i)] over a state [s]:
    the body runs for [i = 0, 1, ..., n-1] in that order. *)
Fixpoint for_loop {S : Type} (n : nat) (body : nat -> S -> S) (s : S) : S :=
  match n with
  | O => s
  | Datatypes.S k => body k (for_loop k body s)
  end.

(** ** Results of fallible code *)

Module Err.

(** A call returns normally, aborts through MFEM's error macros with a
    message, or faults (a null pointer is dereferenced). *)
Inductive result (A : Type) : Type :=
| Ok (a : A)
| Abort (msg : string)
| Fault.

Arguments Ok {A} a.
Arguments Abort {A} msg.
Arguments Fault {A}.

Definition bind {A B : Type} (r : result A) (k : A -> result B) : result B :=
  match r with
  | Ok a => k a
  | Abort msg => Abort msg
  | Fault => Fault
  end.

(** Modelled from the spec: the macro [MFEM_VERIFY(x, msg)] of MFEM's
    [general/error.hpp] (not among the verified files): "MFEM's own
    assertion/verification macros"; it aborts with [msg] when [x] is false
    and does nothing otherwise. *)
Definition MFEM_VERIFY (x : bool) (msg : string) : result unit :=
  if x then Ok tt else Abort msg.

(** Modelled from the spec: the macro [MFEM_ASSERT(x, msg)] of MFEM's
    [general/error.hpp]; as [MFEM_VERIFY], but compiled in only in a debug
    build ([MFEM_DEBUG]).  The condition is a thunk: a release build does
    not evaluate it. *)
Definition MFEM_ASSERT (MFEM_DEBUG : bool) (x : unit -> bool) (msg : string)
  : result unit :=
  if MFEM_DEBUG then MFEM_VERIFY (x tt) msg else Ok tt.

End Err.

Import Err.

Declare Scope result_scope.
Delimit Scope result_scope with result.
Notation "x <- c1 ;; c2" := (bind c1 (fun x => c2))
  (at level 61, c1 at next level, right associativity) : result_scope.
Notation "c1 ;;; c2" := (bind c1 (fun _ => c2))
  (at level 61, right associativity) : result_scope.

(** ** Vectors and dense matrices *)

Module Vec.

Local Open Scope R_scope.

Definition Vector := list R.

(** [v(i)] *)
Definition vget (v : Vector) (i : nat) : R := nth i v 0.

(** [v(i) = x]; the vector keeps its size (an index past the end is
    outside the behaviour of the program and leaves the list as it is). *)
Fixpoint vset (v : Vector) (i : nat) (x : R) : Vector :=
  match v, i with
  | [], _ => []
  | _ :: t, O => x :: t
  | h :: t, Datatypes.S j => h :: vset t j x
  end.

(** A dense matrix, read as [m(i,j)]. *)
Definition DenseMatrix := nat -> nat -> R.

(** [m(i,j) = x] *)
Definition mset (m : DenseMatrix) (i j : nat) (x : R) : DenseMatrix :=
  fun i' j' => if (Nat.eqb i i' && Nat.eqb j j')%bool then x else m i' j'.

(** [double acc = 0; for (d = 0; d < n; d++) { acc += f(d); }] *)
Definition accumulate (n : nat) (f : nat -> R) : R :=
  for_loop n (fun d acc => acc + f d) 0.

End Vec.

(** ** Euler flux and the Riemann solver
    ([ComputePressure] ... [RiemannSolver::Eval], transport_solver.cpp) *)

Module Euler.

Import Vec.
Local Open Scope R_scope.
Local Open Scope result_scope.

(** [const Vector den_vel(state.GetData() + 1, dim)]: a view into [state]
    that starts at entry 1, so [den_vel(d)] is [state(1 + d)]. *)
Definition den_vel (state : Vector) (d : nat) : R := vget state (1 + d).

(** Pressure (EOS) computation *)
Definition ComputePressure (state : Vector) (dim : nat)
  (specific_heat_ratio : R) : R :=
  let den := vget state 0 in
  let den_energy := vget state (1 + dim) in
  let den_vel2 := accumulate dim (fun d => den_vel state d * den_vel state d) in
  let den_vel2 := den_vel2 / den in
  (specific_heat_ratio - 1) * (den_energy - 0.5 * den_vel2).

(** Check that the state is physical - enabled in debug mode.
    (The messages it prints are not represented.) *)
Definition StateIsPhysical (state : Vector) (dim : nat)
  (specific_heat_ratio : R) : bool :=
  let den := vget state 0 in
  let den_energy := vget state (1 + dim) in
  if Rlt_dec den 0 then false
  else if Rle_dec den_energy 0 then false
  else
    let den_vel2 :=
      accumulate dim (fun i => den_vel state i * den_vel state i) in
    let den_vel2 := den_vel2 / den in
    let pres := (specific_heat_ratio - 1) * (den_energy - 0.5 * den_vel2) in
    if Rle_dec pres 0 then false else true.

(** Compute the vector flux F(u) *)
Definition ComputeFlux (MFEM_DEBUG : bool) (state : Vector) (dim : nat)
  (specific_heat_ratio : R) (flux : DenseMatrix) : result DenseMatrix :=
  let den := vget state 0 in
  let den_energy := vget state (1 + dim) in
  MFEM_ASSERT MFEM_DEBUG
    (fun _ => StateIsPhysical state dim specific_heat_ratio)
    EmptyString ;;;
  let pres := ComputePressure state dim specific_heat_ratio in
  let flux :=
    for_loop dim (fun d flux =>
      let flux := mset flux 0 d (den_vel state d) in
      let flux :=
        for_loop dim (fun i flux =>
          mset flux (1 + i) d (den_vel state i * den_vel state d / den)) flux in
      mset flux (1 + d) d (flux (1 + d)%nat d + pres)) flux in
  let H := (den_energy + pres) / den in
  Ok (for_loop dim (fun d flux =>
        mset flux (1 + dim) d (den_vel state d * H)) flux).

(** Compute the scalar F(u).n *)
Definition ComputeFluxDotN (MFEM_DEBUG : bool) (state nor : Vector)
  (specific_heat_ratio : R) (fluxN : Vector) : result Vector :=
  (* NOTE: nor in general is not a unit normal *)
  let dim := length nor in
  let den := vget state 0 in
  let den_energy := vget state (1 + dim) in
  MFEM_ASSERT MFEM_DEBUG
    (fun _ => StateIsPhysical state dim specific_heat_ratio)
    EmptyString ;;;
  let pres := ComputePressure state dim specific_heat_ratio in
  let den_velN := accumulate dim (fun d => den_vel state d * vget nor d) in
  let fluxN := vset fluxN 0 den_velN in
  let fluxN :=
    for_loop dim (fun d fluxN =>
      vset fluxN (1 + d)
        (den_velN * den_vel state d / den + pres * vget nor d)) fluxN in
  let H := (den_energy + pres) / den in
  Ok (vset fluxN (1 + dim) (den_velN * H)).

(** Compute the maximum characteristic speed. *)
Definition ComputeMaxCharSpeed (state : Vector) (dim : nat)
  (specific_heat_ratio : R) : R :=
  let den := vget state 0 in
  let den_vel2 := accumulate dim (fun d => den_vel state d * den_vel state d) in
  let den_vel2 := den_vel2 / den in
  let pres := ComputePressure state dim specific_heat_ratio in
  let sound := sqrt (specific_heat_ratio * pres / den) in
  let vel := sqrt (den_vel2 / den) in
  vel + sound.

(** The members of [class RiemannSolver]; [flux1_] and [flux2_] are the
    scratch vectors that [Eval] overwrites. *)
Record RiemannSolver : Type := {
  num_equation_ : nat;
  specific_heat_ratio_ : R;
  flux1_ : Vector;
  flux2_ : Vector
}.

(** [RiemannSolver::RiemannSolver]: both scratch vectors are allocated with
    [num_equation] entries (their initial contents do not matter; zeros
    here). *)
Definition RiemannSolver_new (num_equation : nat) (specific_heat_ratio : R)
  : RiemannSolver :=
  {| num_equation_ := num_equation;
     specific_heat_ratio_ := specific_heat_ratio;
     flux1_ := repeat 0 num_equation;
     flux2_ := repeat 0 num_equation |}.

(** [RiemannSolver::Eval]: returns [maxE], the written [flux] and the
    solver with its scratch vectors as the call leaves them. *)
Definition Eval (MFEM_DEBUG : bool) (rs : RiemannSolver)
  (state1 state2 nor flux : Vector) : result (R * Vector * RiemannSolver) :=
  (* NOTE: nor in general is not a unit normal *)
  let dim := length nor in
  let g := specific_heat_ratio_ rs in
  MFEM_ASSERT MFEM_DEBUG
    (fun _ => StateIsPhysical state1 dim g) EmptyString ;;;
  MFEM_ASSERT MFEM_DEBUG
    (fun _ => StateIsPhysical state2 dim g) EmptyString ;;;
  let maxE1 := ComputeMaxCharSpeed state1 dim g in
  let maxE2 := ComputeMaxCharSpeed state2 dim g in
  let maxE := Rmax maxE1 maxE2 in
  flux1 <- ComputeFluxDotN MFEM_DEBUG state1 nor g (flux1_ rs) ;;
  flux2 <- ComputeFluxDotN MFEM_DEBUG state2 nor g (flux2_ rs) ;;
  let normag := accumulate dim (fun i => vget nor i * vget nor i) in
  let normag := sqrt normag in
  let flux :=
    for_loop (num_equation_ rs) (fun i flux =>
      vset flux i
        (0.5 * (vget flux1 i + vget flux2 i)
         - 0.5 * maxE * (vget state2 i - vget state1 i) * normag)) flux in
  Ok (maxE, flux,
      {| num_equation_ := num_equation_ rs;
         specific_heat_ratio_ := g;
         flux1_ := flux1;
         flux2_ := flux2 |}).

(** *** The quantities the flux formula is stated in *)

(** The physicality predicate: density, energy and pressure are positive. *)
Definition Physical (state : Vector) (dim : nat) (specific_heat_ratio : R)
  : Prop :=
  0 < vget state 0 /\ 0 < vget state (1 + dim)
  /\ 0 < ComputePressure state dim specific_heat_ratio.

(** The velocity [v = (rho v) / rho], component [d]. *)
Definition velocity (state : Vector) (d : nat) : R :=
  den_vel state d / vget state 0.

(** Euclidean norm of the first [dim] components. *)
Definition norm2 (dim : nat) (v : nat -> R) : R :=
  sqrt (accumulate dim (fun d => v d * v d)).

(** The characteristic speed [|v| + sqrt(gamma p / rho)]. *)
Definition char_speed (state : Vector) (dim : nat) (gamma : R) : R :=
  norm2 dim (velocity state)
  + sqrt (gamma * ComputePressure state dim gamma / vget state 0).

(** Row [i] of a flux matrix contracted with [nor]. *)
Definition contract (F : DenseMatrix) (nor : Vector) (i : nat) : R :=
  accumulate (length nor) (fun d => F i d * vget nor d).

(** [- nor] *)
Definition vneg (nor : Vector) : Vector := map Ropp nor.

(** The Euler flux [F(state)]: what [ComputeFlux] writes into a zeroed
    [num_equation x dim] matrix (release build). *)
Definition EulerFlux (state : Vector) (dim : nat) (gamma : R) : DenseMatrix :=
  match ComputeFlux false state dim gamma (fun _ _ => 0) with
  | Ok F => F
  | _ => fun _ _ => 0
  end.

(** Entry [i] of the vector [ComputeFluxDotN] writes, in closed form. *)
Definition fluxN_entry (state nor : Vector) (gamma : R) (i : nat) : R :=
  let dim := length nor in
  let den := vget state 0 in
  let pres := ComputePressure state dim gamma in
  let den_velN := accumulate dim (fun d => den_vel state d * vget nor d) in
  if Nat.eqb i 0 then den_velN
  else if Nat.leb i dim
       then den_velN * den_vel state (i - 1) / den + pres * vget nor (i - 1)
       else den_velN * ((vget state (1 + dim) + pres) / den).

(** [c * nor] *)
Definition vscale (c : R) (nor : Vector) : Vector := map (Rmult c) nor.

(** One space dimension, [gamma = 1.4]: two physical states and a normal
    of length 2. *)
Definition example_solver : RiemannSolver := RiemannSolver_new 3 1.4.

Definition example_state1 : Vector := [1; 1; 2].

Definition example_state2 : Vector := [2; 0; 3].

Definition example_nor : Vector := [2].

End Euler.

(** ** Objects of the finite-element library

    The classes below belong to MFEM and to [transport_solver.hpp]; only
    the part of their state that the verified methods read or write is
    represented. *)

Module Lib.

Local Open Scope R_scope.

(** A member object ([m_]) or an entry of a member array ([blf_[i]]). *)
Inductive Obj : Type :=
| Member (name : string)
| Elem (array : string) (i : nat).

(** A call of a library method on an object, possibly made by a
    sub-object ([Within (Elem "op_" i) e]: event [e] of [op_[i]]). *)
Inductive Event : Type :=
| Call (o : Obj) (method : string)
| Within (o : Obj) (e : Event).

Definition Trace := list Event.

(** The current sizes of a [ParFiniteElementSpace]; they change when the
    mesh is refined. *)
Record ParFiniteElementSpace : Type := {
  GetVSize : Z;
  GetTrueVSize : Z
}.

(** Modelled from the spec: the product coefficients of
    [transport_solver.hpp] and MFEM ([ProductCoefficient],
    [ScalarVectorProductCoefficient], [ScalarMatrixProductCoefficient] and
    the state-variable variants), whose declarations are not among the
    verified files: "SetTimeStep rescales coefficients by the implicit
    time-step", so a product coefficient [a * B] carries the scalar factor
    [a], which [SetAConst] replaces. *)
Record ProductCoefficient : Type := { AConst : R }.

Definition SetAConst (a : R) (c : ProductCoefficient) : ProductCoefficient :=
  {| AConst := a |}.

(** Modelled from the spec: the sum coefficient [alpha * A + beta * B]
    built by [new SumCoefficient] from [yCoef_[i]] and [kCoef_[i]], declared outside
    the verified files; both factors default to 1, [SetBeta] replaces
    [beta], and the coefficient evaluates to [alpha * A + beta * B], so that
    with [beta = dt] the evaluated state is [y0 + dt * k]. *)
Record SumCoefficient : Type := { alpha : R; beta : R }.

Definition SumCoefficient_new : SumCoefficient := {| alpha := 1; beta := 1 |}.

Definition SetBeta (b : R) (c : SumCoefficient) : SumCoefficient :=
  {| alpha := alpha c; beta := b |}.

Definition SumCoefficient_Eval (c : SumCoefficient) (A B : R) : R :=
  alpha c * A + beta c * B.

(** A bilinear or linear form, as the list of the coefficients its
    integrators were built on. *)
Definition Form := list string.

(** [*p] and [p->...]: dereferencing [NULL] faults. *)
Definition deref {A : Type} (p : option A) : result A :=
  match p with
  | Some a => Ok a
  | None => Fault
  end.

(** [if (p) { p->method(); ... }] *)
Definition if_allocated {A : Type} (p : option A) (tr : Trace) : Trace :=
  match p with
  | Some _ => tr
  | None => []
  end.

(** The member [name], when the pointer to it is not [NULL]. *)
Definition if_allocated_obj {A : Type} (p : option A) (name : string)
  : list Obj :=
  match p with
  | Some _ => [Member name]
  | None => []
  end.

(** [a[i] = f(a[i])] on an [Array]; an index past the end leaves it as
    it is. *)
Fixpoint array_update {A : Type} (l : list A) (i : nat) (f : A -> A)
  : list A :=
  match l, i with
  | [], _ => []
  | h :: t, O => f h :: t
  | h :: t, Datatypes.S j => h :: array_update t j f
  end.

(** A grid function, as the address of the data array it references. *)
Record ParGridFunction : Type := { GetData : Z }.

(** Modelled from the spec: [GridFunction::MakeRef(fes, v)] of MFEM's
    [fem/gridfunc.cpp], not among the verified files: it "re-points" the
    grid function at the array [v]. *)
Definition MakeRef (v : Z) (gf : ParGridFunction) : ParGridFunction :=
  {| GetData := v |}.

Definition NULL : Z := 0%Z.

End Lib.

(** ** [class DGAdvectionDiffusionTDO] *)

Module DGAdvectionDiffusionTDO.

Import Lib.
Local Open Scope R_scope.
Local Open Scope result_scope.

(** The members the verified methods use.  A coefficient pointer that is
    only tested against [NULL] is a [bool] (set or not); an owned object
    behind a pointer is an [option]. *)
Record t : Type := {
  height : Z;
  width : Z;
  imex_ : bool;
  dt_ : R;
  VCoef_ : bool;
  dCoef_ : bool;
  DCoef_ : bool;
  SCoef_ : bool;
  dbcCoef_ : bool;
  negVCoef_ : bool;
  dtNegVCoef_ : option ProductCoefficient;
  dtdCoef_ : option ProductCoefficient;
  dtDCoef_ : option ProductCoefficient;
  a_ : option Form;
  b_ : option Form;
  s_ : option Form;
  k_ : option Form;
  q_exp_ : option Form;
  q_imp_ : option Form;
  RHS_ : Z;
  X_ : Z
}.

Definition set_sizes (h w rhs xs : Z) (x : t) : t :=
  {| height := h; width := w; imex_ := imex_ x; dt_ := dt_ x;
     VCoef_ := VCoef_ x; dCoef_ := dCoef_ x; DCoef_ := DCoef_ x;
     SCoef_ := SCoef_ x; dbcCoef_ := dbcCoef_ x; negVCoef_ := negVCoef_ x;
     dtNegVCoef_ := dtNegVCoef_ x; dtdCoef_ := dtdCoef_ x;
     dtDCoef_ := dtDCoef_ x;
     a_ := a_ x; b_ := b_ x; s_ := s_ x; k_ := k_ x;
     q_exp_ := q_exp_ x; q_imp_ := q_imp_ x; RHS_ := rhs; X_ := xs |}.

Definition set_dt (dt : R)
  (dtNegV dtd dtD : option ProductCoefficient) (x : t) : t :=
  {| height := height x; width := width x; imex_ := imex_ x; dt_ := dt;
     VCoef_ := VCoef_ x; dCoef_ := dCoef_ x; DCoef_ := DCoef_ x;
     SCoef_ := SCoef_ x; dbcCoef_ := dbcCoef_ x; negVCoef_ := negVCoef_ x;
     dtNegVCoef_ := dtNegV; dtdCoef_ := dtd; dtDCoef_ := dtD;
     a_ := a_ x; b_ := b_ x; s_ := s_ x; k_ := k_ x;
     q_exp_ := q_exp_ x; q_imp_ := q_imp_ x; RHS_ := RHS_ x; X_ := X_ x |}.

Definition set_coefs (V d D S dbc negV : bool) (x : t) : t :=
  {| height := height x; width := width x; imex_ := imex_ x; dt_ := dt_ x;
     VCoef_ := V; dCoef_ := d; DCoef_ := D;
     SCoef_ := S; dbcCoef_ := dbc; negVCoef_ := negV;
     dtNegVCoef_ := dtNegVCoef_ x; dtdCoef_ := dtdCoef_ x;
     dtDCoef_ := dtDCoef_ x;
     a_ := a_ x; b_ := b_ x; s_ := s_ x; k_ := k_ x;
     q_exp_ := q_exp_ x; q_imp_ := q_imp_ x; RHS_ := RHS_ x; X_ := X_ x |}.

Definition set_forms (a b s k qe qi : option Form) (x : t) : t :=
  {| height := height x; width := width x; imex_ := imex_ x; dt_ := dt_ x;
     VCoef_ := VCoef_ x; dCoef_ := dCoef_ x; DCoef_ := DCoef_ x;
     SCoef_ := SCoef_ x; dbcCoef_ := dbcCoef_ x; negVCoef_ := negVCoef_ x;
     dtNegVCoef_ := dtNegVCoef_ x; dtdCoef_ := dtdCoef_ x;
     dtDCoef_ := dtDCoef_ x;
     a_ := a; b_ := b; s_ := s; k_ := k;
     q_exp_ := qe; q_imp_ := qi; RHS_ := RHS_ x; X_ := X_ x |}.

(** The constructor: [dt_(-1.0)], every pointer [NULL]. *)
Definition new (fes : ParFiniteElementSpace) (imex : bool) : t :=
  {| height := GetVSize fes; width := GetVSize fes;
     imex_ := imex; dt_ := -1;
     VCoef_ := false; dCoef_ := false; DCoef_ := false; SCoef_ := false;
     dbcCoef_ := false; negVCoef_ := false;
     dtNegVCoef_ := None; dtdCoef_ := None; dtDCoef_ := None;
     a_ := None; b_ := None; s_ := None; k_ := None;
     q_exp_ := None; q_imp_ := None;
     RHS_ := GetTrueVSize fes; X_ := GetTrueVSize fes |}.

(** [if (c == NULL) { c = new ...Coefficient(dt_, B); }]; an existing
    coefficient keeps its factor ([SetBCoef] changes only [B]). *)
Definition new_if_null (dt : R) (c : option ProductCoefficient)
  : option ProductCoefficient :=
  match c with
  | None => Some {| AConst := dt |}
  | Some c => Some c
  end.

Definition SetAdvectionCoefficient (x : t) : t :=
  let x := set_coefs true (dCoef_ x) (DCoef_ x) (SCoef_ x) (dbcCoef_ x) true x in
  let x := set_dt (dt_ x) (new_if_null (dt_ x) (dtNegVCoef_ x))
             (dtdCoef_ x) (dtDCoef_ x) x in
  if imex_ x
  then set_forms (a_ x) (b_ x) (s_ x) None (q_exp_ x) (q_imp_ x) x
  else set_forms None None (s_ x) (k_ x) (q_exp_ x) (q_imp_ x) x.

(** [SetDiffusionCoefficient(Coefficient &dCoef)] *)
Definition SetDiffusionCoefficient (x : t) : t :=
  let x := set_coefs (VCoef_ x) true (DCoef_ x) (SCoef_ x) (dbcCoef_ x)
             (negVCoef_ x) x in
  let x := set_dt (dt_ x) (dtNegVCoef_ x)
             (new_if_null (dt_ x) (dtdCoef_ x)) (dtDCoef_ x) x in
  if imex_ x
  then set_forms None (b_ x) None (k_ x) (q_exp_ x) (q_imp_ x) x
  else set_forms None None (s_ x) (k_ x) (q_exp_ x) (q_imp_ x) x.

(** [SetDiffusionCoefficient(MatrixCoefficient &DCoef)] *)
Definition SetDiffusionCoefficient_Matrix (x : t) : t :=
  let x := set_coefs (VCoef_ x) (dCoef_ x) true (SCoef_ x) (dbcCoef_ x)
             (negVCoef_ x) x in
  let x := set_dt (dt_ x) (dtNegVCoef_ x) (dtdCoef_ x)
             (new_if_null (dt_ x) (dtDCoef_ x)) x in
  if imex_ x
  then set_forms None (b_ x) None (k_ x) (q_exp_ x) (q_imp_ x) x
  else set_forms None None (s_ x) (k_ x) (q_exp_ x) (q_imp_ x) x.

Definition initA (x : t) : t :=
  match a_ x with
  | Some _ => x
  | None =>
      let a := ["CCoef_"]%string in
      let a :=
        if dCoef_ x then a ++ ["dtdCoef_"; "dtdCoef_"]%string
        else if DCoef_ x then a ++ ["dtDCoef_"; "dtDCoef_"]%string
        else a in
      let a :=
        if (negVCoef_ x && negb (imex_ x))%bool
        then a ++ ["dtNegVCoef_"; "dtNegVCoef_"; "dtNegVCoef_"]%string
        else a in
      set_forms (Some a) (b_ x) (s_ x) (k_ x) (q_exp_ x) (q_imp_ x) x
  end.

Definition initB (x : t) : t :=
  match b_ x with
  | Some _ => x
  | None =>
      if (dCoef_ x || DCoef_ x || VCoef_ x)%bool then
        let b :=
          if dCoef_ x then ["dCoef_"; "dCoef_"]%string
          else if DCoef_ x then ["DCoef_"; "DCoef_"]%string
          else [] in
        let b :=
          if negVCoef_ x
          then b ++ ["negVCoef_"; "negVCoef_"; "negVCoef_"]%string
          else b in
        set_forms (a_ x) (Some b) (s_ x) (k_ x) (q_exp_ x) (q_imp_ x) x
      else x
  end.

Definition initS (x : t) : t :=
  match s_ x with
  | Some _ => x
  | None =>
      if (dCoef_ x || DCoef_ x)%bool then
        let s :=
          if dCoef_ x then ["dCoef_"; "dCoef_"]%string
          else if DCoef_ x then ["DCoef_"; "DCoef_"]%string
          else [] in
        set_forms (a_ x) (b_ x) (Some s) (k_ x) (q_exp_ x) (q_imp_ x) x
      else x
  end.

Definition initK (x : t) : t :=
  match k_ x with
  | Some _ => x
  | None =>
      if VCoef_ x then
        let k :=
          if negVCoef_ x
          then ["negVCoef_"; "negVCoef_"; "negVCoef_"]%string
          else [] in
        set_forms (a_ x) (b_ x) (s_ x) (Some k) (q_exp_ x) (q_imp_ x) x
      else x
  end.

(** The condition under which [initQ] builds a right-hand side. *)
Definition has_rhs (x : t) : bool :=
  (SCoef_ x || (dbcCoef_ x && (dCoef_ x || DCoef_ x || VCoef_ x)))%bool.

Definition initQ (x : t) : t :=
  if imex_ x then
    let x :=
      match q_exp_ x with
      | None =>
          if has_rhs x then
            let q := if SCoef_ x then ["SCoef_"]%string else [] in
            let q :=
              if (dbcCoef_ x && VCoef_ x
                  && negb (dCoef_ x || DCoef_ x))%bool
              then q ++ ["dbcCoef_,negVCoef_"]%string else q in
            set_forms (a_ x) (b_ x) (s_ x) (k_ x) (Some q) (q_imp_ x) x
          else x
      | Some _ => x
      end in
    match q_imp_ x with
    | None =>
        if has_rhs x then
          let q :=
            if (dbcCoef_ x && dCoef_ x)%bool then ["dbcCoef_,dCoef_"]%string
            else if (dbcCoef_ x && DCoef_ x)%bool
                 then ["dbcCoef_,DCoef_"]%string
                 else [] in
          set_forms (a_ x) (b_ x) (s_ x) (k_ x) (q_exp_ x) (Some q) x
        else x
    | Some _ => x
    end
  else
    match q_imp_ x with
    | None =>
        if has_rhs x then
          let q := if SCoef_ x then ["SCoef_"]%string else [] in
          let q :=
            if (dbcCoef_ x && dCoef_ x)%bool
            then q ++ ["dbcCoef_,dCoef_"]%string
            else if (dbcCoef_ x && DCoef_ x)%bool
                 then q ++ ["dbcCoef_,DCoef_"]%string
                 else if (dbcCoef_ x && VCoef_ x)%bool
                      then q ++ ["dbcCoef_,negVCoef_"]%string
                      else q in
          set_forms (a_ x) (b_ x) (s_ x) (k_ x) (q_exp_ x) (Some q) x
        else x
    | Some _ => x
    end.

(** [SetTime]: ([initM] reassembles the mass matrix and allocates nothing
    that the methods below test.) *)
Definition SetTime (x : t) : t :=
  let x := initA x in
  let x := if imex_ x then initK (initS x) else initB x in
  initQ x.

Definition ExplicitMult (x : t) : result Trace :=
  MFEM_VERIFY (imex_ x)
    "Unexpected call to ExplicitMult for non-IMEX method!" ;;;
  Ok ([Call (Member "pgf_") "ExchangeFaceNbrData";
       Call (Member "rhs_")
         (match q_exp_ x with Some _ => "= *q_exp_" | None => "= 0.0" end)]
      ++ if_allocated (k_ x) [Call (Member "k_") "AddMult"]
      ++ [Call (Member "rhs_") "ParallelAssemble";
          Call (Member "M_solver_") "Mult";
          Call (Member "fx_gf") "MakeRef";
          Call (Member "fx_gf") "= X_"]).

(** [fabs(dt - dt_) > 1e-4 * dt_] *)
Definition time_step_changed (dt : R) (x : t) : bool :=
  if Rgt_dec (Rabs (dt - dt_ x)) (1e-4 * dt_ x) then true else false.

Definition ImplicitSolve (dt : R) (x : t) : result (t * Trace) :=
  let tr := [Call (Member "pgf_") "ExchangeFaceNbrData"] in
  let x :=
    if time_step_changed dt x
    then set_dt dt (option_map (SetAConst dt) (dtNegVCoef_ x))
           (option_map (SetAConst dt) (dtdCoef_ x))
           (option_map (SetAConst dt) (dtDCoef_ x)) x
    else x in
  let tr :=
    tr ++ [Call (Member "rhs_")
             (match q_imp_ x with Some _ => "= *q_imp_" | None => "= 0.0" end);
           Call (Member "rhs_") "ParallelAssemble";
           Call (Member "fes_") "Dof_TrueDof_Matrix()->Mult"] in
  let tr :=
    if imex_ x
    then tr ++ if_allocated (s_ x)
                 [Call (Member "s_") "Assemble"; Call (Member "s_") "Finalize";
                  Call (Member "s_") "ParallelAssemble";
                  Call (Member "S") "Mult"]
    else tr ++ if_allocated (b_ x)
                 [Call (Member "b_") "Assemble"; Call (Member "b_") "Finalize";
                  Call (Member "b_") "ParallelAssemble";
                  Call (Member "B") "Mult"] in
  _ <- deref (a_ x) ;;
  let tr :=
    tr ++ [Call (Member "a_") "Assemble"; Call (Member "a_") "Finalize";
           Call (Member "a_") "ParallelAssemble";
           Call (Member "A_prec") "new HypreBoomerAMG";
           Call (Member "A_solver")
             (if imex_ x then "new CGSolver" else "new GMRESSolver");
           Call (Member "A_solver") "Mult";
           Call (Member "dudt_gf") "MakeRef";
           Call (Member "dudt_gf") "= X_"] in
  Ok (x, tr).

Definition Update (fes : ParFiniteElementSpace) (x : t) : result (t * Trace) :=
  let x := set_sizes (GetVSize fes) (GetVSize fes) (RHS_ x) (X_ x) x in
  let tr := [Call (Member "m_") "Update"; Call (Member "m_") "Assemble";
             Call (Member "m_") "Finalize"] in
  _ <- deref (a_ x) ;;
  let tr := tr ++ [Call (Member "a_") "Update"] in
  let tr := tr ++ if_allocated (b_ x) [Call (Member "b_") "Update"] in
  let tr := tr ++ if_allocated (s_ x) [Call (Member "s_") "Update"] in
  let tr := tr ++ if_allocated (k_ x)
                    [Call (Member "k_") "Update"; Call (Member "k_") "Assemble";
                     Call (Member "k_") "Finalize"] in
  let tr := tr ++ if_allocated (q_exp_ x)
                    [Call (Member "q_exp_") "Update";
                     Call (Member "q_exp_") "Assemble"] in
  let tr := tr ++ if_allocated (q_imp_ x)
                    [Call (Member "q_imp_") "Update";
                     Call (Member "q_imp_") "Assemble"] in
  let tr := tr ++ [Call (Member "rhs_") "Update";
                   Call (Member "RHS_") "SetSize";
                   Call (Member "X_") "SetSize"] in
  Ok (set_sizes (height x) (width x) (GetTrueVSize fes) (GetTrueVSize fes) x,
      tr).

(** The forms the operator owns: [m_] and [rhs_] are members; the forms
    behind [a_], [b_], [s_], [k_], [q_exp_] and [q_imp_] exist once they are
    allocated (the destructor deletes them). *)
Definition owned_forms (x : t) : list Obj :=
  [Member "m_"]
  ++ if_allocated_obj (a_ x) "a_" ++ if_allocated_obj (b_ x) "b_"
  ++ if_allocated_obj (s_ x) "s_" ++ if_allocated_obj (k_ x) "k_"
  ++ if_allocated_obj (q_exp_ x) "q_exp_"
  ++ if_allocated_obj (q_imp_ x) "q_imp_"
  ++ [Member "rhs_"].

(** The time step and the factors of the three [dt]-scaled coefficients. *)
Definition dt_state (x : t)
  : R * option ProductCoefficient * option ProductCoefficient
    * option ProductCoefficient :=
  (dt_ x, dtdCoef_ x, dtDCoef_ x, dtNegVCoef_ x).

(** A space with ten degrees of freedom, and operators on it with a scalar
    diffusion coefficient, after [SetTime]. *)
Definition example_fes : ParFiniteElementSpace :=
  {| GetVSize := 10; GetTrueVSize := 10 |}.

Definition example_imex : t :=
  SetTime (SetDiffusionCoefficient (new example_fes true)).

Definition example_implicit : t :=
  SetTime (SetDiffusionCoefficient (new example_fes false)).

(** [SetSourceCoefficient] *)
Definition SetSourceCoefficient (x : t) : t :=
  let x := set_coefs (VCoef_ x) (dCoef_ x) (DCoef_ x) true (dbcCoef_ x)
             (negVCoef_ x) x in
  set_forms (a_ x) (b_ x) (s_ x) (k_ x) None None x.

(** [SetDirichletBC] *)
Definition SetDirichletBC (x : t) : t :=
  let x := set_coefs (VCoef_ x) (dCoef_ x) (DCoef_ x) (SCoef_ x) true
             (negVCoef_ x) x in
  set_forms (a_ x) (b_ x) (s_ x) (k_ x) None None x.

(** [SetNeumannBC]: no method reads [nbcAttr_] or [nbcCoef_], which it
    sets. *)
Definition SetNeumannBC (x : t) : t :=
  set_forms (a_ x) (b_ x) (s_ x) (k_ x) None None x.

(** A call of a public method of the class. *)
Inductive Method : Type :=
| CallSetTime
| CallSetAdvectionCoefficient
| CallSetDiffusionCoefficient
| CallSetDiffusionCoefficient_Matrix
| CallSetSourceCoefficient
| CallSetDirichletBC
| CallSetNeumannBC
| CallExplicitMult
| CallImplicitSolve (dt : R)
| CallUpdate (fes : ParFiniteElementSpace).

(** The operator after the call. *)
Definition call (m : Method) (x : t) : result t :=
  match m with
  | CallSetTime => Ok (SetTime x)
  | CallSetAdvectionCoefficient => Ok (SetAdvectionCoefficient x)
  | CallSetDiffusionCoefficient => Ok (SetDiffusionCoefficient x)
  | CallSetDiffusionCoefficient_Matrix =>
      Ok (SetDiffusionCoefficient_Matrix x)
  | CallSetSourceCoefficient => Ok (SetSourceCoefficient x)
  | CallSetDirichletBC => Ok (SetDirichletBC x)
  | CallSetNeumannBC => Ok (SetNeumannBC x)
  | CallExplicitMult => _ <- ExplicitMult x ;; Ok x
  | CallImplicitSolve dt => r <- ImplicitSolve dt x ;; Ok (fst r)
  | CallUpdate fes => r <- Update fes x ;; Ok (fst r)
  end.

(** A client: the calls [ms], in order, on the operator [x]. *)
Fixpoint run (ms : list Method) (x : t) : result t :=
  match ms with
  | [] => Ok x
  | m :: ms => x <- call m x ;; run ms x
  end.

(** The form an [init] function builds when it finds the pointer [NULL],
    from the coefficients that are set now. *)
Definition built_a (x : t) : option Form :=
  a_ (initA (set_forms None (b_ x) (s_ x) (k_ x) (q_exp_ x) (q_imp_ x) x)).

Definition built_b (x : t) : option Form :=
  b_ (initB (set_forms (a_ x) None (s_ x) (k_ x) (q_exp_ x) (q_imp_ x) x)).

Definition built_s (x : t) : option Form :=
  s_ (initS (set_forms (a_ x) (b_ x) None (k_ x) (q_exp_ x) (q_imp_ x) x)).

Definition built_k (x : t) : option Form :=
  k_ (initK (set_forms (a_ x) (b_ x) (s_ x) None (q_exp_ x) (q_imp_ x) x)).

Definition built_q_imp (x : t) : option Form :=
  q_imp_ (initQ (set_forms (a_ x) (b_ x) (s_ x) (k_ x) None None x)).

(** [if (p == NULL) { p = built; }] *)
Definition if_null {A : Type} (p built : option A) : option A :=
  match p with
  | Some _ => p
  | None => built
  end.

(** A cached form is [NULL] or the one that would be built now. *)
Definition up_to_date (cached built : option Form) : Prop :=
  cached = None \/ cached = built.

(** The bilinear forms are up to date with the coefficients. *)
Definition forms_up_to_date (x : t) : Prop :=
  up_to_date (a_ x) (built_a x) /\ up_to_date (b_ x) (built_b x)
  /\ up_to_date (s_ x) (built_s x) /\ up_to_date (k_ x) (built_k x).

(** The forms a mode never builds: [b_] with IMEX, [s_], [k_] and
    [q_exp_] without. *)
Definition forms_of_mode (x : t) : Prop :=
  if imex_ x then b_ x = None
  else s_ x = None /\ k_ x = None /\ q_exp_ x = None.

(** An allocated [dt]-scaled coefficient carries the factor [dt_]. *)
Definition in_step (x : t) (c : option ProductCoefficient) : Prop :=
  match c with
  | Some c => AConst c = dt_ x
  | None => True
  end.

Definition coefficients_in_step (x : t) : Prop :=
  in_step x (dtNegVCoef_ x) /\ in_step x (dtdCoef_ x)
  /\ in_step x (dtDCoef_ x).

(** A fully implicit operator whose source and Dirichlet condition were
    set, and the right-hand side built, before any diffusion coefficient. *)
Definition example_rhs : t :=
  SetTime (SetSourceCoefficient (SetDirichletBC (new example_fes false))).

(** What the methods maintain between calls. *)
Definition class_invariant (x : t) : Prop :=
  forms_of_mode x /\ forms_up_to_date x /\ coefficients_in_step x.

End DGAdvectionDiffusionTDO.

(** ** [class DiffusionTDO] *)

Module DiffusionTDO.

Import Lib.
Local Open Scope R_scope.
Local Open Scope result_scope.

(** [M_ = m_.ParallelAssemble()]: the matrix assembled from [m_], whose
    diffusion integrators are built on [dtNuCoef_]; it is determined by the
    factor [dtNuCoef_] has at assembly. *)
Record HypreParMatrix : Type := { assembled_with : ProductCoefficient }.

(** [new HypreBoomerAMG(M)] *)
Record HypreBoomerAMG : Type := { amg_matrix : HypreParMatrix }.

(** [new HyprePCG(M)] or [new HypreGMRES(M)], with its preconditioner. *)
Inductive HypreSolver : Type :=
| HyprePCG (M : HypreParMatrix) (prec : HypreBoomerAMG)
| HypreGMRES (M : HypreParMatrix) (prec : HypreBoomerAMG).

Record t : Type := {
  dt_ : R;
  dg_sigma_ : R;
  dtNuCoef_ : ProductCoefficient;
  M_ : option HypreParMatrix;
  amg_ : option HypreBoomerAMG;
  solver_ : option HypreSolver
}.

(** The constructor: [dt_(0.0)], [M_(NULL)], [solver_(NULL)], [amg_(NULL)],
    [dtNuCoef_(0.0, nuCoef_)]. *)
Definition new (dg_sigma : R) : t :=
  {| dt_ := 0; dg_sigma_ := dg_sigma; dtNuCoef_ := {| AConst := 0 |};
     M_ := None; amg_ := None; solver_ := None |}.

(** [fabs(dt - dt_) > 1e-4 * dt] *)
Definition time_step_changed (dt : R) (x : t) : bool :=
  if Rgt_dec (Rabs (dt - dt_ x)) (1e-4 * dt) then true else false.

Definition is_null {A : Type} (p : option A) : bool :=
  match p with
  | Some _ => false
  | None => true
  end.

Definition initSolver (dt : R) (x : t) : result (t * Trace) :=
  let newM := time_step_changed dt x in
  let '(x, tr) :=
    if newM then
      let c := SetAConst dt (dtNuCoef_ x) in
      ({| dt_ := dt; dg_sigma_ := dg_sigma_ x; dtNuCoef_ := c;
          M_ := Some {| assembled_with := c |};
          amg_ := amg_ x; solver_ := solver_ x |},
       [Call (Member "dtNuCoef_") "SetAConst";
        Call (Member "m_") "Assemble"; Call (Member "m_") "Finalize"]
       ++ if_allocated (M_ x) [Call (Member "M_") "delete"]
       ++ [Call (Member "m_") "ParallelAssemble"])
    else (x, []) in
  xt <- (if (is_null (amg_ x) || newM)%bool then
           M <- deref (M_ x) ;;
           Ok ({| dt_ := dt_ x; dg_sigma_ := dg_sigma_ x;
                  dtNuCoef_ := dtNuCoef_ x; M_ := M_ x;
                  amg_ := Some {| amg_matrix := M |};
                  solver_ := solver_ x |},
               tr ++ if_allocated (amg_ x) [Call (Member "amg_") "delete"]
                  ++ [Call (Member "amg_") "new HypreBoomerAMG"])
         else Ok (x, tr)) ;;
  let '(x, tr) := xt in
  if (is_null (solver_ x) || newM)%bool then
    M <- deref (M_ x) ;;
    amg <- deref (amg_ x) ;;
    let tr :=
      tr ++ if_allocated (solver_ x) [Call (Member "solver_") "delete"] in
    if Req_dec_T (dg_sigma_ x) (-1) then
      Ok ({| dt_ := dt_ x; dg_sigma_ := dg_sigma_ x;
             dtNuCoef_ := dtNuCoef_ x; M_ := M_ x; amg_ := amg_ x;
             solver_ := Some (HyprePCG M amg) |},
          tr ++ [Call (Member "solver_") "new HyprePCG"])
    else
      Ok ({| dt_ := dt_ x; dg_sigma_ := dg_sigma_ x;
             dtNuCoef_ := dtNuCoef_ x; M_ := M_ x; amg_ := amg_ x;
             solver_ := Some (HypreGMRES M amg) |},
          tr ++ [Call (Member "solver_") "new HypreGMRES"])
  else Ok (x, tr).

(** The state the constructor builds and [initSolver] keeps: the matrix,
    its preconditioner and the solver are all there, or none is. *)
Definition built (x : t) : bool :=
  (negb (is_null (M_ x)) && negb (is_null (amg_ x))
   && negb (is_null (solver_ x)))%bool.

Definition fresh (x : t) : bool :=
  (is_null (M_ x) && is_null (amg_ x) && is_null (solver_ x))%bool.

(** The trace of a call that rebuilt the matrix, its preconditioner and
    the solver. *)
Definition rebuilt (tr : Trace) : Prop :=
  In (Call (Member "m_") "ParallelAssemble") tr
  /\ In (Call (Member "amg_") "new HypreBoomerAMG") tr
  /\ (In (Call (Member "solver_") "new HyprePCG") tr
      \/ In (Call (Member "solver_") "new HypreGMRES") tr).

(** The matrix, preconditioner and solver of a built state all stem from
    one assembly with the factor [dt]. *)
Definition built_with (dt : R) (x : t) : Prop :=
  let M := {| assembled_with := {| AConst := dt |} |} in
  let amg := {| amg_matrix := M |} in
  M_ x = Some M /\ amg_ x = Some amg
  /\ (solver_ x = Some (HyprePCG M amg)
      \/ solver_ x = Some (HypreGMRES M amg)).

(** [ImplicitSolve(dt, x, y)]: after [initSolver], one solve for each of
    the [dim_] components. *)
Definition ImplicitSolve (dim_ : nat) (dt : R) (x : t) : result (t * Trace) :=
  let tr := [Call (Member "y") "= 0.0"] in
  r <- initSolver dt x ;;
  let '(x, tri) := r in
  tr <- for_loop dim_ (fun d r =>
          tr <- r ;;
          _ <- deref (solver_ x) ;;
          Ok (tr ++ [Call (Member "D_") "Mult";
                     Call (Member "rhs_") "*= -1.0";
                     Call (Member "rhs_") "ParallelAssemble";
                     Call (Member "X_") "= 0.0";
                     Call (Member "solver_") "Mult";
                     Call (Member "yd") "= X_"]))
          (Ok (tr ++ tri)) ;;
  Ok (x, tr).

(** A sequence of implicit solves with the time steps [dts]. *)
Fixpoint solves (dim_ : nat) (dts : list R) (x : t) : result t :=
  match dts with
  | [] => Ok x
  | dt :: dts => r <- ImplicitSolve dim_ dt x ;; solves dim_ dts (fst r)
  end.

(** The solver [initSolver] creates for the matrix assembled with the
    factor [dt]: PCG when [dg_sigma_ == -1.0], GMRES otherwise. *)
Definition solver_for (dg_sigma dt : R) : HypreSolver :=
  let M := {| assembled_with := {| AConst := dt |} |} in
  let amg := {| amg_matrix := M |} in
  if Req_dec_T dg_sigma (-1) then HyprePCG M amg else HypreGMRES M amg.

(** Coefficient, matrix, preconditioner and solver all stem from one
    assembly with the stored time step [dt_]. *)
Definition assembled (x : t) : Prop :=
  let M := {| assembled_with := {| AConst := dt_ x |} |} in
  dtNuCoef_ x = {| AConst := dt_ x |}
  /\ M_ x = Some M
  /\ amg_ x = Some {| amg_matrix := M |}
  /\ solver_ x = Some (solver_for (dg_sigma_ x) (dt_ x)).

(** An operator with symmetric interior penalty, assembled for the time
    step 0.5. *)
Definition example_assembled : t :=
  let M := {| assembled_with := {| AConst := 0.5 |} |} in
  {| dt_ := 0.5; dg_sigma_ := -1; dtNuCoef_ := {| AConst := 0.5 |};
     M_ := Some M; amg_ := Some {| amg_matrix := M |};
     solver_ := Some (solver_for (-1) 0.5) |}.

(** The call [solver_->Mult(RHS_, X_)]. *)
Definition is_solve (e : Event) : bool :=
  match e with
  | Call (Member "solver_") "Mult" => true
  | _ => false
  end.

End DiffusionTDO.

(** ** [class DGTransportTDO::NLOperator] and the per-species operators *)

Module NLOperator.

Import Lib.
Local Open Scope R_scope.
Local Open Scope result_scope.

(** The members the verified methods use.  [SetTimeStep] and [Update] are
    virtual (the classes are declared in [transport_solver.hpp]): a call
    through [op_[i]] runs the method of the concrete operator. *)
Record t : Type := {
  height : Z;
  width : Z;
  index_ : nat;
  dt_ : R;
  y1Coef_ : list SumCoefficient;
  blf_ : list (option Form)
}.

(** The constructor, for grid-function arrays [yGF] and [kGF] of the given
    sizes.  After the size check it reads [yCoef_[0..4]] and
    [y1Coef_[0..4]], so arrays shorter than five entries fault. *)
Definition new (fes : ParFiniteElementSpace) (index : nat)
  (yGF_Size kGF_Size : nat) : result t :=
  MFEM_VERIFY (Nat.eqb yGF_Size kGF_Size) "Mismatch in yGF and kGF sizes" ;;;
  (if Nat.ltb yGF_Size 5 then Fault else Ok tt) ;;;
  Ok {| height := GetVSize fes;
        width := 5 * GetVSize fes;
        index_ := index;
        dt_ := 0;
        y1Coef_ := repeat SumCoefficient_new yGF_Size;
        blf_ := repeat None 5 |}.

Definition set_blf (i : nat) (f : Form) (x : t) : t :=
  {| height := height x; width := width x; index_ := index_ x;
     dt_ := dt_ x; y1Coef_ := y1Coef_ x;
     blf_ := array_update (blf_ x) i (fun _ => Some f) |}.

Definition SetTimeStep (dt : R) (x : t) : t :=
  {| height := height x; width := width x; index_ := index_ x;
     dt_ := dt;
     y1Coef_ :=
       for_loop 5 (fun i c => array_update c i (SetBeta dt)) (y1Coef_ x);
     blf_ := blf_ x |}.

Definition Update (fes : ParFiniteElementSpace) (x : t) : t * Trace :=
  ({| height := GetVSize fes;
      width := 5 * GetVSize fes;
      index_ := index_ x; dt_ := dt_ x; y1Coef_ := y1Coef_ x;
      blf_ := blf_ x |},
   for_loop 5 (fun i tr =>
     tr ++ if_allocated (nth i (blf_ x) None) [Call (Elem "blf_" i) "Update"])
     []).

(** [GetGradientBlock(i)]: the operator assembled from [blf_[i]], or
    [NULL] when there is no such form.  ([transport_solver.cpp] defines no
    override in the derived classes.) *)
Definition GetGradientBlock (i : nat) (x : t) : option Form * Trace :=
  match nth i (blf_ x) None with
  | Some f =>
      (Some f,
       [Call (Elem "blf_" i) "Update"; Call (Elem "blf_" i) "Assemble";
        Call (Elem "blf_" i) "Finalize";
        Call (Elem "blf_" i) "ParallelAssemble"])
  | None => (None, [])
  end.

(** The forms [blf_[i]] that are allocated. *)
Definition owned_forms (x : t) : list Obj :=
  for_loop 5 (fun i l =>
    l ++ match nth i (blf_ x) None with
         | Some _ => [Elem "blf_" i]
         | None => []
         end) [].

End NLOperator.

(** [if (gf != NULL) { gf->Update(); }] for an owned grid function that is
    allocated only when its visualization flag is set. *)
Definition update_if (allocated : bool) (name : string) : Lib.Trace :=
  if allocated then [Lib.Call (Lib.Member name) "Update"] else [].

Definition member_if (allocated : bool) (name : string) : list Lib.Obj :=
  if allocated then [Lib.Member name] else [].

Module NeutralDensityOp.

Import Lib.
Local Open Scope R_scope.
Local Open Scope result_scope.

Record t : Type := {
  base : NLOperator.t;
  dtDCoef_ : ProductCoefficient;
  dtdSizdnnCoef_ : ProductCoefficient;
  dtdSizdniCoef_ : ProductCoefficient;
  DGF_ : bool;
  SGF_ : bool
}.

Definition new (fes : ParFiniteElementSpace) (yGF_Size kGF_Size : nat)
  (CheckVisFlag : string -> bool) : result t :=
  b <- NLOperator.new fes 0 yGF_Size kGF_Size ;;
  let b := NLOperator.set_blf 0
             ["1"; "dtDCoef_"; "dtDCoef_"; "dtdSizdnnCoef_"]%string b in
  let b := NLOperator.set_blf 1 ["dtdSizdniCoef_"]%string b in
  Ok {| base := b;
        dtDCoef_ := {| AConst := 0 |};
        dtdSizdnnCoef_ := {| AConst := 0 |};
        dtdSizdniCoef_ := {| AConst := 0 |};
        DGF_ := CheckVisFlag "DIFFUSION_COEF"%string;
        SGF_ := CheckVisFlag "SOURCE"%string |}.

Definition SetTimeStep (dt : R) (x : t) : t :=
  {| base := NLOperator.SetTimeStep dt (base x);
     dtDCoef_ := SetAConst dt (dtDCoef_ x);
     dtdSizdnnCoef_ := SetAConst dt (dtdSizdnnCoef_ x);
     dtdSizdniCoef_ := SetAConst dt (dtdSizdniCoef_ x);
     DGF_ := DGF_ x; SGF_ := SGF_ x |}.

Definition Update (fes : ParFiniteElementSpace) (x : t) : t * Trace :=
  let '(b, tr) := NLOperator.Update fes (base x) in
  ({| base := b; dtDCoef_ := dtDCoef_ x;
      dtdSizdnnCoef_ := dtdSizdnnCoef_ x;
      dtdSizdniCoef_ := dtdSizdniCoef_ x;
      DGF_ := DGF_ x; SGF_ := SGF_ x |},
   tr ++ update_if (DGF_ x) "DGF_" ++ update_if (SGF_ x) "SGF_").

(** The product coefficients built with a [0.0] factor that
    [SetTimeStep] rescales. *)
Definition dt_coefficients (x : t) : list (string * ProductCoefficient) :=
  [("dtDCoef_", dtDCoef_ x); ("dtdSizdnnCoef_", dtdSizdnnCoef_ x);
   ("dtdSizdniCoef_", dtdSizdniCoef_ x)]%string.

Definition owned_grid_functions (x : t) : list Obj :=
  member_if (DGF_ x) "DGF_" ++ member_if (SGF_ x) "SGF_".

End NeutralDensityOp.

Module IonDensityOp.

Import Lib.
Local Open Scope R_scope.
Local Open Scope result_scope.

Record t : Type := {
  base : NLOperator.t;
  dtDCoef_ : ProductCoefficient;
  ViCoef_dt : R;   (* the time step held by [ViCoef_] *)
  dtViCoef_ : ProductCoefficient;
  negdtdSizdnnCoef_ : ProductCoefficient;
  negdtdSizdniCoef_ : ProductCoefficient;
  DPerpGF_ : bool;
  AGF_ : bool;
  SGF_ : bool
}.

Definition new (fes : ParFiniteElementSpace) (yGF_Size kGF_Size : nat)
  (CheckVisFlag : string -> bool) : result t :=
  b <- NLOperator.new fes 1 yGF_Size kGF_Size ;;
  let b := NLOperator.set_blf 0 ["negdtdSizdnnCoef_"]%string b in
  let b := NLOperator.set_blf 1
             ["1"; "dtDCoef_"; "dtDCoef_"; "dtViCoef_"; "dtViCoef_";
              "negdtdSizdniCoef_"]%string b in
  Ok {| base := b;
        dtDCoef_ := {| AConst := 0 |};
        ViCoef_dt := 0;
        dtViCoef_ := {| AConst := 0 |};
        negdtdSizdnnCoef_ := {| AConst := 0 |};
        negdtdSizdniCoef_ := {| AConst := 0 |};
        DPerpGF_ := CheckVisFlag "DIFFUSION_PERP_COEF"%string;
        AGF_ := CheckVisFlag "ADVECTION_COEF"%string;
        SGF_ := CheckVisFlag "SOURCE"%string |}.

Definition SetTimeStep (dt : R) (x : t) : t :=
  {| base := NLOperator.SetTimeStep dt (base x);
     dtDCoef_ := SetAConst dt (dtDCoef_ x);
     ViCoef_dt := dt;
     dtViCoef_ := SetAConst dt (dtViCoef_ x);
     negdtdSizdnnCoef_ := SetAConst (- dt) (negdtdSizdnnCoef_ x);
     negdtdSizdniCoef_ := SetAConst (- dt) (negdtdSizdniCoef_ x);
     DPerpGF_ := DPerpGF_ x; AGF_ := AGF_ x; SGF_ := SGF_ x |}.

Definition Update (fes : ParFiniteElementSpace) (x : t) : t * Trace :=
  let '(b, tr) := NLOperator.Update fes (base x) in
  ({| base := b; dtDCoef_ := dtDCoef_ x; ViCoef_dt := ViCoef_dt x;
      dtViCoef_ := dtViCoef_ x;
      negdtdSizdnnCoef_ := negdtdSizdnnCoef_ x;
      negdtdSizdniCoef_ := negdtdSizdniCoef_ x;
      DPerpGF_ := DPerpGF_ x; AGF_ := AGF_ x; SGF_ := SGF_ x |},
   tr ++ update_if (DPerpGF_ x) "DPerpGF_" ++ update_if (AGF_ x) "AGF_"
      ++ update_if (SGF_ x) "SGF_").

Definition dt_coefficients (x : t) : list (string * ProductCoefficient) :=
  [("dtDCoef_", dtDCoef_ x); ("dtViCoef_", dtViCoef_ x);
   ("negdtdSizdnnCoef_", negdtdSizdnnCoef_ x);
   ("negdtdSizdniCoef_", negdtdSizdniCoef_ x)]%string.

Definition owned_grid_functions (x : t) : list Obj :=
  member_if (DPerpGF_ x) "DPerpGF_" ++ member_if (AGF_ x) "AGF_"
  ++ member_if (SGF_ x) "SGF_".

End IonDensityOp.

Module IonMomentumOp.

Import Lib.
Local Open Scope R_scope.
Local Open Scope result_scope.

Record t : Type := {
  base : NLOperator.t;
  dtEtaCoef_ : ProductCoefficient;
  miniViCoef_dt : R;   (* the time step held by [miniViCoef_] *)
  dtminiViCoef_ : ProductCoefficient;
  EtaParaGF_ : bool;
  EtaPerpGF_ : bool;
  MomParaGF_ : bool;
  SGF_ : bool
}.

Definition new (fes : ParFiniteElementSpace) (yGF_Size kGF_Size : nat)
  (CheckVisFlag : string -> bool) : result t :=
  b <- NLOperator.new fes 2 yGF_Size kGF_Size ;;
  let b := NLOperator.set_blf 1 ["mivi1Coef_"]%string b in
  let b := NLOperator.set_blf 2
             ["mini1Coef_"; "dtEtaCoef_"; "dtEtaCoef_"; "dtEtaCoef_";
              "dtminiViCoef_"; "dtminiViCoef_"; "dtminiViCoef_"]%string b in
  Ok {| base := b;
        dtEtaCoef_ := {| AConst := 0 |};
        miniViCoef_dt := 0;
        dtminiViCoef_ := {| AConst := 0 |};
        EtaParaGF_ := CheckVisFlag "DIFFUSION_PARA_COEF"%string;
        EtaPerpGF_ := CheckVisFlag "DIFFUSION_PERP_COEF"%string;
        MomParaGF_ := CheckVisFlag "ADVECTION_COEF"%string;
        SGF_ := CheckVisFlag "SOURCE"%string |}.

Definition SetTimeStep (dt : R) (x : t) : t :=
  {| base := NLOperator.SetTimeStep dt (base x);
     dtEtaCoef_ := SetAConst dt (dtEtaCoef_ x);
     miniViCoef_dt := dt;
     dtminiViCoef_ := SetAConst dt (dtminiViCoef_ x);
     EtaParaGF_ := EtaParaGF_ x; EtaPerpGF_ := EtaPerpGF_ x;
     MomParaGF_ := MomParaGF_ x; SGF_ := SGF_ x |}.

Definition Update (fes : ParFiniteElementSpace) (x : t) : t * Trace :=
  let '(b, tr) := NLOperator.Update fes (base x) in
  ({| base := b; dtEtaCoef_ := dtEtaCoef_ x;
      miniViCoef_dt := miniViCoef_dt x; dtminiViCoef_ := dtminiViCoef_ x;
      EtaParaGF_ := EtaParaGF_ x; EtaPerpGF_ := EtaPerpGF_ x;
      MomParaGF_ := MomParaGF_ x; SGF_ := SGF_ x |},
   tr ++ update_if (EtaParaGF_ x) "EtaParaGF_"
      ++ update_if (EtaPerpGF_ x) "EtaPerpGF_"
      ++ update_if (MomParaGF_ x) "MomParaGF_"
      ++ update_if (SGF_ x) "SGF_").

Definition dt_coefficients (x : t) : list (string * ProductCoefficient) :=
  [("dtEtaCoef_", dtEtaCoef_ x); ("dtminiViCoef_", dtminiViCoef_ x)]%string.

Definition owned_grid_functions (x : t) : list Obj :=
  member_if (EtaParaGF_ x) "EtaParaGF_" ++ member_if (EtaPerpGF_ x) "EtaPerpGF_"
  ++ member_if (MomParaGF_ x) "MomParaGF_" ++ member_if (SGF_ x) "SGF_".

End IonMomentumOp.

Module IonStaticPressureOp.

Import Lib.
Local Open Scope R_scope.
Local Open Scope result_scope.

(** [ChiParaGF_] and [ChiPerpGF_] are allocated by every constructor
    call. *)
Record t : Type := {
  base : NLOperator.t;
  dtChiCoef_ : ProductCoefficient
}.

Definition new (fes : ParFiniteElementSpace) (yGF_Size kGF_Size : nat)
  : result t :=
  b <- NLOperator.new fes 3 yGF_Size kGF_Size ;;
  let b := NLOperator.set_blf 1 ["thTiCoef_"]%string b in
  let b := NLOperator.set_blf 3
             ["thniCoef_"; "dtChiCoef_"; "dtChiCoef_"; "dtChiCoef_"]%string b in
  Ok {| base := b; dtChiCoef_ := {| AConst := 0 |} |}.

Definition SetTimeStep (dt : R) (x : t) : t :=
  {| base := NLOperator.SetTimeStep dt (base x);
     dtChiCoef_ := SetAConst dt (dtChiCoef_ x) |}.

Definition Update (fes : ParFiniteElementSpace) (x : t) : t * Trace :=
  let '(b, tr) := NLOperator.Update fes (base x) in
  ({| base := b; dtChiCoef_ := dtChiCoef_ x |},
   tr ++ [Call (Member "ChiParaGF_") "Update";
          Call (Member "ChiPerpGF_") "Update"]).

Definition dt_coefficients (x : t) : list (string * ProductCoefficient) :=
  [("dtChiCoef_", dtChiCoef_ x)]%string.

Definition owned_grid_functions (x : t) : list Obj :=
  [Member "ChiParaGF_"; Member "ChiPerpGF_"].

End IonStaticPressureOp.

Module ElectronStaticPressureOp.

Import Lib.
Local Open Scope R_scope.
Local Open Scope result_scope.

Record t : Type := {
  base : NLOperator.t;
  grad_Te1Coef_ : SumCoefficient;
  dtChiCoef_ : ProductCoefficient;
  dtdChiGradTCoef_ : ProductCoefficient
}.

Definition new (fes : ParFiniteElementSpace) (yGF_Size kGF_Size : nat)
  : result t :=
  b <- NLOperator.new fes 4 yGF_Size kGF_Size ;;
  let b := NLOperator.set_blf 1 ["thTeCoef_"]%string b in
  let b := NLOperator.set_blf 4
             ["thneCoef_"; "dtChiCoef_"; "dtChiCoef_"; "dtChiCoef_";
              "dtdChiGradTCoef_"; "dtdChiGradTCoef_"]%string b in
  Ok {| base := b;
        grad_Te1Coef_ := SumCoefficient_new;
        dtChiCoef_ := {| AConst := 0 |};
        dtdChiGradTCoef_ := {| AConst := 0 |} |}.

Definition SetTimeStep (dt : R) (x : t) : t :=
  {| base := NLOperator.SetTimeStep dt (base x);
     grad_Te1Coef_ := SetBeta dt (grad_Te1Coef_ x);
     dtChiCoef_ := SetAConst dt (dtChiCoef_ x);
     dtdChiGradTCoef_ := SetAConst (- dt) (dtdChiGradTCoef_ x) |}.

Definition Update (fes : ParFiniteElementSpace) (x : t) : t * Trace :=
  let '(b, tr) := NLOperator.Update fes (base x) in
  ({| base := b; grad_Te1Coef_ := grad_Te1Coef_ x;
      dtChiCoef_ := dtChiCoef_ x;
      dtdChiGradTCoef_ := dtdChiGradTCoef_ x |},
   tr ++ [Call (Member "ChiParaGF_") "Update";
          Call (Member "ChiPerpGF_") "Update"]).

Definition dt_coefficients (x : t) : list (string * ProductCoefficient) :=
  [("dtChiCoef_", dtChiCoef_ x);
   ("dtdChiGradTCoef_", dtdChiGradTCoef_ x)]%string.

Definition owned_grid_functions (x : t) : list Obj :=
  [Member "ChiParaGF_"; Member "ChiPerpGF_"].

End ElectronStaticPressureOp.

Module DummyOp.

Import Lib.
Local Open Scope result_scope.

Record t : Type := { base : NLOperator.t }.

Definition new (fes : ParFiniteElementSpace) (yGF_Size kGF_Size : nat)
  (index : nat) : result t :=
  b <- NLOperator.new fes index yGF_Size kGF_Size ;;
  Ok {| base := NLOperator.set_blf index ["1"]%string b |}.

(** [transport_solver.cpp] defines no [DummyOp::SetTimeStep], and the
    operator has no coefficient of its own: the call acts as
    [NLOperator::SetTimeStep]. *)
Definition SetTimeStep (dt : R) (x : t) : t :=
  {| base := NLOperator.SetTimeStep dt (base x) |}.

Definition Update (fes : ParFiniteElementSpace) (x : t) : t * Trace :=
  let '(b, tr) := NLOperator.Update fes (base x) in
  ({| base := b |}, tr).

End DummyOp.

(** ** [class DGTransportTDO::CombinedOp] *)

Module CombinedOp.

Import Lib.
Local Open Scope Z_scope.
Local Open Scope result_scope.

(** [NLOperator *op_[i]]: one of the six concrete operator classes. *)
Inductive Op : Type :=
| NeutralDensity (o : NeutralDensityOp.t)
| IonDensity (o : IonDensityOp.t)
| IonMomentum (o : IonMomentumOp.t)
| IonStaticPressure (o : IonStaticPressureOp.t)
| ElectronStaticPressure (o : ElectronStaticPressureOp.t)
| Dummy (o : DummyOp.t).

Definition base (op : Op) : NLOperator.t :=
  match op with
  | NeutralDensity o => NeutralDensityOp.base o
  | IonDensity o => IonDensityOp.base o
  | IonMomentum o => IonMomentumOp.base o
  | IonStaticPressure o => IonStaticPressureOp.base o
  | ElectronStaticPressure o => ElectronStaticPressureOp.base o
  | Dummy o => DummyOp.base o
  end.

(** [op->Height()] *)
Definition Height (op : Op) : Z := NLOperator.height (base op).

(** [op->SetTimeStep(dt)] (virtual) *)
Definition Op_SetTimeStep (dt : R) (op : Op) : Op :=
  match op with
  | NeutralDensity o => NeutralDensity (NeutralDensityOp.SetTimeStep dt o)
  | IonDensity o => IonDensity (IonDensityOp.SetTimeStep dt o)
  | IonMomentum o => IonMomentum (IonMomentumOp.SetTimeStep dt o)
  | IonStaticPressure o =>
      IonStaticPressure (IonStaticPressureOp.SetTimeStep dt o)
  | ElectronStaticPressure o =>
      ElectronStaticPressure (ElectronStaticPressureOp.SetTimeStep dt o)
  | Dummy o => Dummy (DummyOp.SetTimeStep dt o)
  end.

(** [op->Update()] (virtual) *)
Definition Op_Update (fes : ParFiniteElementSpace) (op : Op) : Op * Trace :=
  match op with
  | NeutralDensity o =>
      let '(o, tr) := NeutralDensityOp.Update fes o in (NeutralDensity o, tr)
  | IonDensity o =>
      let '(o, tr) := IonDensityOp.Update fes o in (IonDensity o, tr)
  | IonMomentum o =>
      let '(o, tr) := IonMomentumOp.Update fes o in (IonMomentum o, tr)
  | IonStaticPressure o =>
      let '(o, tr) := IonStaticPressureOp.Update fes o in
      (IonStaticPressure o, tr)
  | ElectronStaticPressure o =>
      let '(o, tr) := ElectronStaticPressureOp.Update fes o in
      (ElectronStaticPressure o, tr)
  | Dummy o =>
      let '(o, tr) := DummyOp.Update fes o in (Dummy o, tr)
  end.

(** The product coefficients of an operator that are built with a [0.0]
    factor and rescaled by its [SetTimeStep]. *)
Definition dt_coefficients (op : Op) : list (string * ProductCoefficient) :=
  match op with
  | NeutralDensity o => NeutralDensityOp.dt_coefficients o
  | IonDensity o => IonDensityOp.dt_coefficients o
  | IonMomentum o => IonMomentumOp.dt_coefficients o
  | IonStaticPressure o => IonStaticPressureOp.dt_coefficients o
  | ElectronStaticPressure o => ElectronStaticPressureOp.dt_coefficients o
  | Dummy _ => []
  end.

(** The coefficients whose factor is the negated time step: their
    [SetAConst] is passed [-dt]. *)
Definition negated_dt_coefficient (name : string) : bool :=
  (String.eqb name "negdtdSizdnnCoef_" || String.eqb name "negdtdSizdniCoef_"
   || String.eqb name "dtdChiGradTCoef_")%bool.

(** The forms and grid functions an operator owns. *)
Definition owned (op : Op) : list Obj :=
  NLOperator.owned_forms (base op)
  ++ match op with
     | NeutralDensity o => NeutralDensityOp.owned_grid_functions o
     | IonDensity o => IonDensityOp.owned_grid_functions o
     | IonMomentum o => IonMomentumOp.owned_grid_functions o
     | IonStaticPressure o => IonStaticPressureOp.owned_grid_functions o
     | ElectronStaticPressure o =>
         ElectronStaticPressureOp.owned_grid_functions o
     | Dummy _ => []
     end.

(** [offsets_] is the array the caller passed; [DGTransportTDO] and
    [CombinedOp] both hold it by reference, so it is kept here once. *)
Record t : Type := {
  height : Z;
  width : Z;
  neq_ : nat;
  op_ : list Op;
  offsets_ : list Z
}.

(** Modelled from the spec: [Array<int>::PartialSum] of MFEM's
    [general/array.hpp], not among the verified files: after the call,
    entry [i] holds "the partial sum" of the entries up to [i]. *)
Fixpoint PartialSum_from (sum : Z) (l : list Z) : list Z :=
  match l with
  | [] => []
  | h :: t => (sum + h) :: PartialSum_from (sum + h) t
  end.

Definition PartialSum (l : list Z) : list Z := PartialSum_from 0 l.

(** [op_[i]->Height()]; [op_] has [neq_] entries. *)
Definition Height_at (ops : list Op) (i : nat) : Z :=
  match nth_error ops i with
  | Some op => Height op
  | None => 0
  end.

Definition updateOffsets (x : t) : t :=
  let offsets := array_update (offsets_ x) 0 (fun _ => 0) in
  let offsets :=
    for_loop (neq_ x) (fun i offsets =>
      array_update offsets (i + 1) (fun _ => Height_at (op_ x) i)) offsets in
  let offsets := PartialSum offsets in
  {| height := nth (neq_ x) offsets 0;
     width := nth (neq_ x) offsets 0;
     neq_ := neq_ x; op_ := op_ x; offsets_ := offsets |}.

(** [(op_flag >> i) & 1] *)
Definition op_enabled (op_flag : Z) (i : nat) : bool :=
  Z.testbit op_flag (Z.of_nat i).

(** The constructor: [neq_(5)]; operator [i] is the physical one when bit
    [i] of [op_flag] is set and a [DummyOp] otherwise.  [CheckVisFlag i] is
    [op_[i]->CheckVisFlag]. *)
Definition new (fes : ParFiniteElementSpace) (yGF_Size kGF_Size : nat)
  (offsets : list Z) (op_flag : Z) (CheckVisFlag : nat -> string -> bool)
  : result t :=
  op0 <- (if op_enabled op_flag 0
          then o <- NeutralDensityOp.new fes yGF_Size kGF_Size
                      (CheckVisFlag 0%nat) ;; Ok (NeutralDensity o)
          else o <- DummyOp.new fes yGF_Size kGF_Size 0 ;; Ok (Dummy o)) ;;
  op1 <- (if op_enabled op_flag 1
          then o <- IonDensityOp.new fes yGF_Size kGF_Size
                      (CheckVisFlag 1%nat) ;; Ok (IonDensity o)
          else o <- DummyOp.new fes yGF_Size kGF_Size 1 ;; Ok (Dummy o)) ;;
  op2 <- (if op_enabled op_flag 2
          then o <- IonMomentumOp.new fes yGF_Size kGF_Size
                      (CheckVisFlag 2%nat) ;; Ok (IonMomentum o)
          else o <- DummyOp.new fes yGF_Size kGF_Size 2 ;; Ok (Dummy o)) ;;
  op3 <- (if op_enabled op_flag 3
          then o <- IonStaticPressureOp.new fes yGF_Size kGF_Size ;;
               Ok (IonStaticPressure o)
          else o <- DummyOp.new fes yGF_Size kGF_Size 3 ;; Ok (Dummy o)) ;;
  op4 <- (if op_enabled op_flag 4
          then o <- ElectronStaticPressureOp.new fes yGF_Size kGF_Size ;;
               Ok (ElectronStaticPressure o)
          else o <- DummyOp.new fes yGF_Size kGF_Size 4 ;; Ok (Dummy o)) ;;
  Ok (updateOffsets
        {| height := 0; width := 0; neq_ := 5;
           op_ := [op0; op1; op2; op3; op4]; offsets_ := offsets |}).

Definition SetTimeStep (dt : R) (x : t) : t :=
  {| height := height x; width := width x; neq_ := neq_ x;
     op_ := for_loop (neq_ x) (fun i ops =>
              array_update ops i (Op_SetTimeStep dt)) (op_ x);
     offsets_ := offsets_ x |}.

Definition Update (fes : ParFiniteElementSpace) (x : t) : t * Trace :=
  let '(ops, tr) :=
    for_loop (neq_ x) (fun i st =>
      let '(ops, tr) := st in
      match nth_error ops i with
      | Some op =>
          let '(op, tri) := Op_Update fes op in
          (array_update ops i (fun _ => op),
           tr ++ map (Within (Elem "op_" i)) tri)
      | None => (ops, tr)
      end) (op_ x, []) in
  (updateOffsets
     {| height := height x; width := width x; neq_ := neq_ x;
        op_ := ops; offsets_ := offsets_ x |},
   tr).

(** All five physical operators on a space with ten degrees of freedom,
    every visualization flag set. *)
Definition example_fes : ParFiniteElementSpace :=
  {| GetVSize := 10; GetTrueVSize := 10 |}.

Definition example : result t :=
  new example_fes 5 5 [0; 0; 0; 0; 0; 0] 31 (fun _ _ => true).

(** The operator that [example] constructs. *)
Definition example_op : t :=
  match example with
  | Ok c => c
  | Abort _ | Fault =>
      {| height := 0; width := 0; neq_ := 0; op_ := []; offsets_ := [] |}
  end.

(** [sum_{i < n} f(i)] *)
Definition Zsum (n : nat) (f : nat -> Z) : Z :=
  for_loop n (fun i acc => acc + f i) 0.

(** [for (i = 0; i < n; i++) { gf[i]->MakeRef(&fes_, base + offsets_[i]); }] *)
Definition repoint (n : nat) (base : Z) (offsets : list Z)
  (gf : list ParGridFunction) : list ParGridFunction :=
  for_loop n (fun i gf =>
    array_update gf i (MakeRef (base + nth i offsets 0))) gf.

(** [gf[0]->GetData()] *)
Definition GetData0 (gf : list ParGridFunction) : Z :=
  GetData (nth 0 gf {| GetData := NULL |}).

(** What [CombinedOp::Mult(k, y)] and [CombinedOp::UpdateGradient(k)] do to
    the shared array [kGF_]: point it at the blocks of [k], evaluate, and
    point it back at [prev_k + offsets_[i]]. *)
Definition with_kGF_at (k : Z) (x : t) (kGF : list ParGridFunction)
  : list ParGridFunction :=
  let prev_k := GetData0 kGF in
  let kGF := repoint (length kGF) k (offsets_ x) kGF in
  repoint (length (offsets_ x) - 1) prev_k (offsets_ x) kGF.

Definition Mult := with_kGF_at.

Definition UpdateGradient := with_kGF_at.

(** [CombinedOp::PrepareDataFields] does the same to [kGF_] around the
    calls of [op_[i]->PrepareDataFields()]; [k] is its local zero
    vector. *)
Definition PrepareDataFields := with_kGF_at.

(** The blocks that [UpdateGradient] sets in [grad_]: block [(i, j)] is
    [op_[i]->GetGradientBlock(j)] when that is not [NULL]. *)
Definition grad_block (x : t) (i j : nat) : option Form :=
  if (Nat.ltb i (neq_ x) && Nat.ltb j (neq_ x))%bool then
    match nth_error (op_ x) i with
    | Some op => fst (NLOperator.GetGradientBlock j (base op))
    | None => None
    end
  else None.

Definition is_dummy (op : Op) : bool :=
  match op with
  | Dummy _ => true
  | _ => false
  end.

(** The coupling of the five equations (neutral density, ion density, ion
    momentum, ion and electron static pressure): equation [i] depends on
    its own field; a physical operator depends, besides, on the ion
    density (field 1), and the ion density equation on the neutral
    density (field 0). *)
Definition couples (physical : bool) (i j : nat) : bool :=
  (Nat.eqb j i
   || (physical && (Nat.eqb j 1 || (Nat.eqb i 1 && Nat.eqb j 0))))%bool.

End CombinedOp.

(** ** [class DGTransportTDO] *)

Module DGTransportTDO.

Import Lib.
Local Open Scope Z_scope.

(** [yGF_] and [kGF_] are the caller's grid-function arrays, held by
    reference and shared with [op_] and its operators. *)
Record t : Type := {
  height : Z;
  width : Z;
  yGF_ : list ParGridFunction;
  kGF_ : list ParGridFunction;
  op_ : CombinedOp.t
}.

Definition offsets_ (x : t) : list Z := CombinedOp.offsets_ (op_ x).

(** One evaluation the Newton solver asks of its operator, with the
    address of the vector it passes. *)
Inductive NewtonCall : Type :=
| CallMult (k : Z)
| CallGetGradient (k : Z).

(** [newton_solver_.Mult(zero, k)]: the solver evaluates [op_] and its
    gradient some number of times. *)
Definition newton_solver_Mult (calls : list NewtonCall) (x : t) : t :=
  fold_left (fun x c =>
    {| height := height x; width := width x; yGF_ := yGF_ x;
       kGF_ := match c with
               | CallMult k => CombinedOp.Mult k (op_ x) (kGF_ x)
               | CallGetGradient k =>
                   CombinedOp.UpdateGradient k (op_ x) (kGF_ x)
               end;
       op_ := op_ x |}) calls x.

(** [ImplicitSolve], up to the call of the Newton solver: returns the
    operator with its grid functions at the blocks of [y] and [k], and the
    saved [prev_y] and [prev_k]. *)
Definition ImplicitSolve_enter (dt : R) (y k : Z) (x : t)
  : t * Z * Z * Trace :=
  let n := (length (offsets_ x) - 1)%nat in
  let prev_y := CombinedOp.GetData0 (yGF_ x) in
  let yGF := CombinedOp.repoint n y (offsets_ x) (yGF_ x) in
  let prev_k := CombinedOp.GetData0 (kGF_ x) in
  let kGF := CombinedOp.repoint n k (offsets_ x) (kGF_ x) in
  ({| height := height x; width := width x; yGF_ := yGF; kGF_ := kGF;
      op_ := CombinedOp.SetTimeStep dt (op_ x) |},
   prev_y, prev_k,
   [Call (Member "yGF_") "ExchangeFaceNbrData";
    Call (Member "kGF_") "ExchangeFaceNbrData";
    Call (Member "op_") "SetTimeStep"]).

(** [ImplicitSolve], after the Newton solver returns:
    "Restore the data arrays to those used before this method was
    called." *)
Definition ImplicitSolve_leave (prev_y prev_k : Z) (x : t) : t * Trace :=
  let n := (length (offsets_ x) - 1)%nat in
  ({| height := height x; width := width x;
      yGF_ := CombinedOp.repoint n prev_y (offsets_ x) (yGF_ x);
      kGF_ := CombinedOp.repoint n prev_k (offsets_ x) (kGF_ x);
      op_ := op_ x |},
   [Call (Member "yGF_") "ExchangeFaceNbrData"]
   ++ if Z.eqb prev_k NULL then []
      else [Call (Member "kGF_") "ExchangeFaceNbrData"]).

Definition ImplicitSolve (calls : list NewtonCall) (dt : R) (y k : Z) (x : t)
  : t * Trace :=
  let '(x, prev_y, prev_k, tr1) := ImplicitSolve_enter dt y k x in
  let x := newton_solver_Mult calls x in
  let '(x, tr2) := ImplicitSolve_leave prev_y prev_k x in
  (x, tr1 ++ [Call (Member "newton_solver_") "Mult"] ++ tr2).

Definition Update (fes ffes : ParFiniteElementSpace) (x : t) : t * Trace :=
  let '(op, tr) := CombinedOp.Update fes (op_ x) in
  ({| height := GetVSize ffes; width := GetVSize ffes;
      yGF_ := yGF_ x; kGF_ := kGF_ x; op_ := op |},
   [Call (Member "BxyGF_") "Update"; Call (Member "BzGF_") "Update"]
   ++ map (Within (Member "op_")) tr
   ++ [Call (Member "newton_solver_") "SetOperator"]).

(** The grid functions of [gf] lie at the offsets [offsets_[i]] of one
    array that starts at [base]. *)
Definition block_layout (base : Z) (offsets : list Z)
  (gf : list ParGridFunction) : Prop :=
  forall i g, nth_error gf i = Some g -> GetData g = base + nth i offsets 0.

(** A solver on the operator [c]: [yGF_] views the blocks of a state
    vector at address 1000, and [kGF_] holds five grid functions without
    data, as before the first solve. *)
Definition example_on (c : CombinedOp.t) : t :=
  {| height := 50; width := 50;
     yGF_ := map (fun o => {| GetData := 1000 + o |}) [0; 10; 20; 30; 40];
     kGF_ := repeat {| GetData := NULL |} 5;
     op_ := c |}.

(** The grid functions the operator owns ([yGF_] and [kGF_] belong to the
    caller). *)
Definition owned_grid_functions : list Obj :=
  [Member "BxyGF_"; Member "BzGF_"].

End DGTransportTDO.

(** ** [class TransportPrec] *)

Module TransportPrec.

Import Lib.
Local Open Scope Z_scope.
Local Open Scope result_scope.

(** The dynamic type of a block of a block operator: a
    [HypreParMatrix], or an operator of another class. *)
Inductive Block : Type :=
| HypreParMatrix (name : string)
| OtherOperator (name : string).

(** What [SetOperator] reads of a [BlockOperator]. *)
Record BlockOperator : Type := {
  blk_Height : Z;
  RowOffsets : list Z;
  IsZeroBlock : nat -> nat -> bool;
  GetBlock : nat -> nat -> Block
}.

(** The argument of [SetOperator]: [dynamic_cast<const BlockOperator*>]
    yields the block operator, or [NULL] for an operator of another
    class. *)
Inductive Operator : Type :=
| Blocked (blk_op : BlockOperator)
| Plain (Height : Z).

Definition Height (op : Operator) : Z :=
  match op with
  | Blocked blk_op => blk_Height blk_op
  | Plain h => h
  end.

(** [new HypreBoomerAMG(M)] *)
Inductive Solver : Type := HypreBoomerAMG (M : string).

(** [height], [width], [Offsets()] and the diagonal blocks registered by
    [SetDiagonalBlock] belong to the base class
    [BlockDiagonalPreconditioner]; [diag_prec_] holds the preconditioners
    this class owns. *)
Record t : Type := {
  height : Z;
  width : Z;
  Offsets : list Z;
  DiagonalBlock : nat -> option Solver;
  diag_prec_ : list (option Solver)
}.

(** The constructor, on the base-class object that
    [BlockDiagonalPreconditioner(offsets)] builds: [diag_prec_(5)],
    [diag_prec_ = NULL]. *)
Definition new (base : t) : t :=
  {| height := height base; width := width base; Offsets := Offsets base;
     DiagonalBlock := DiagonalBlock base;
     diag_prec_ := repeat None 5 |}.

(** [diag_prec_[i] = new HypreBoomerAMG(M); SetDiagonalBlock(i, ...)] *)
Definition set_diag_prec (i : nat) (s : Solver) (x : t) : t :=
  {| height := height x; width := width x; Offsets := Offsets x;
     DiagonalBlock :=
       fun j => if Nat.eqb i j then Some s else DiagonalBlock x j;
     diag_prec_ := array_update (diag_prec_ x) i (fun _ => Some s) |}.

(** [SetOperator(op)].  The [dynamic_cast<HypreParMatrix&>] of a block of
    another class throws [std::bad_cast]; the call then does not return.
    The trace records the [delete] of each preconditioner that was
    allocated. *)
Definition SetOperator (op : Operator) (x : t) : result (t * Trace) :=
  let x := {| height := Height op; width := Height op;
              Offsets := Offsets x; DiagonalBlock := DiagonalBlock x;
              diag_prec_ := diag_prec_ x |} in
  match op with
  | Blocked blk_op =>
      let x := {| height := height x; width := width x;
                  Offsets := RowOffsets blk_op;
                  DiagonalBlock := DiagonalBlock x;
                  diag_prec_ := diag_prec_ x |} in
      for_loop (length (diag_prec_ x)) (fun i r =>
        st <- r ;;
        let '(x, tr) := st in
        if negb (IsZeroBlock blk_op i i) then
          let tr :=
            tr ++ if_allocated (nth i (diag_prec_ x) None)
                    [Call (Elem "diag_prec_" i) "delete"] in
          match GetBlock blk_op i i with
          | HypreParMatrix M => Ok (set_diag_prec i (HypreBoomerAMG M) x, tr)
          | OtherOperator _ => Abort "std::bad_cast"
          end
        else Ok (x, tr)) (Ok (x, []))
  | Plain _ => Ok (x, [])
  end.

(** What [SetOperator(blk_op)] leaves at index [i], from [x] to [x']: the
    preconditioner of an earlier operator where the diagonal block is
    zero, and otherwise a new [HypreBoomerAMG] on the diagonal block,
    registered as block [i] of the preconditioner. *)
Definition rebuilt (blk_op : BlockOperator) (x x' : t) (i : nat) : Prop :=
  if IsZeroBlock blk_op i i
  then nth_error (diag_prec_ x') i = nth_error (diag_prec_ x) i
       /\ DiagonalBlock x' i = DiagonalBlock x i
  else exists M,
         GetBlock blk_op i i = HypreParMatrix M
         /\ nth_error (diag_prec_ x') i = Some (Some (HypreBoomerAMG M))
         /\ DiagonalBlock x' i = Some (HypreBoomerAMG M).

(** A block operator whose diagonal blocks 0, 3 and 4 are matrices and
    whose other blocks are zero. *)
Definition example_op : BlockOperator :=
  {| blk_Height := 50; RowOffsets := [0; 10; 20; 30; 40; 50];
     IsZeroBlock := fun i j =>
       negb (Nat.eqb i j && (Nat.eqb i 0 || Nat.leb 3 i));
     GetBlock := fun _ _ => HypreParMatrix "gradIJ" |}.

Definition example : t :=
  new {| height := 50; width := 50; Offsets := [0; 10; 20; 30; 40; 50];
         DiagonalBlock := fun _ => None; diag_prec_ := [] |}.

End TransportPrec.

(** ** The driver [ex1lor.cpp] *)

Module Ex1Lor.

Local Open Scope string_scope.
Local Open Scope Z_scope.
Local Open Scope list_scope.

(** The option variables of [main], as [args.Parse()] leaves them. *)
Record Options : Type := {
  mesh_file : string;
  order : Z;
  static_cond : bool;
  pa : bool;
  device_config : string;
  visualization : bool;
  pc_type : string;
  pc_storage_opt : string;
  pc_acc : R;
  pc_max_bs : Z
}.

(** The initial values in [main]. *)
Definition default_options : Options :=
  {| mesh_file := "../../data/beam-hex.mesh";
     order := 2;
     static_cond := false;
     pa := true;
     device_config := "cpu";
     visualization := true;
     pc_type := "gko:bj";
     pc_storage_opt := "auto";
     pc_acc := 1e-1%R;
     pc_max_bs := 32 |}.

(** [enum PCType { NONE, GKO_BLOCK_JACOBI, GKO_ILU, MFEM_GS }] *)
Inductive PCType : Type := NONE | GKO_BLOCK_JACOBI | GKO_ILU | MFEM_GS.

(** [!strcmp(a, b)] *)
Definition streq (a b : string) : bool := String.eqb a b.

(** The chain of [strcmp] tests: the choice and the flag [pc], or nothing
    when [main] takes the error branch. *)
Definition select_pc (pc_type : string) : option (PCType * bool) :=
  if streq pc_type "gko:bj" then Some (GKO_BLOCK_JACOBI, true)
  else if streq pc_type "gko:ilu" then Some (GKO_ILU, true)
  else if streq pc_type "mfem:gs" then Some (MFEM_GS, true)
  else if streq pc_type "none" then Some (NONE, false)
  else None.

(** *** What the library computes, symbolically

    The numerical results of MFEM and Ginkgo are kept as terms that record
    which call produced them from which arguments: two runs that build the
    same term obtain the same result. *)

Inductive Executor : Type := OmpExecutor | CudaExecutor.

(** The discretized problem (refined mesh, space, linear system and LOR
    matrix): built from these option values and from nothing else. *)
Record Problem : Type := {
  p_mesh_file : string;
  p_order : Z;
  p_static_cond : bool;
  p_pa : bool;
  p_device_config : string
}.

Inductive Preconditioner : Type :=
| GinkgoJacobiPreconditioner (executor : Executor) (A_pc : Problem)
    (storage_opt : string) (acc : R) (max_bs : Z)
| GinkgoIluPreconditioner (executor : Executor) (A_pc : Problem)
| GSSmoother (A_pc : Problem).

(** The solution vector [X] after the solve. *)
Inductive Solve : Type :=
| cg_solve (A : Problem)
| pcg_solve (A : Problem) (B : Preconditioner)
| initial_guess (A : Problem).

(** What is written to a file or a socket. *)
Inductive Content : Type :=
| MeshOf (p : Problem)
| SolutionOf (x : Solve)
| MeshAndSolution (p : Problem) (x : Solve)
| LorMeshOf (p : Problem)
| LorMatrixOf (p : Problem).

Inductive OptValue : Type :=
| VString (s : string)
| VInt (z : Z)
| VDouble (r : R)
| VFlag.

(** A line on [cout]; wall-clock values are not represented. *)
Inductive Line : Type :=
| Usage
| OptionsUsed (opts : list (string * OptValue))
| Text (s : string)
| DevicePrint (device_config : string)
| SpaceInfo (p : Problem)
| Timing (label : string)
| Iterations (x : Solve).

Inductive Output : Type :=
| Stdout (l : Line)
| mfem_error (msg : string)
| FileWrite (name : string) (c : Content)
| SocketSend (host : string) (port : Z) (c : Content).

(** Modelled from the spec: [OptionsParser::PrintOptions] of MFEM's
    [general/optparser.cpp], not among the verified files.  The options are
    those the spec lists for the driver ("mesh file path, element order,
    device backend selector, preconditioner type selector, and numeric
    tuning parameters for the Ginkgo Block-Jacobi preconditioner
    (storage-optimization mode, accuracy, max block size), plus boolean flags
    for partial assembly, static condensation, and visualization"), in the
    order [main] registers them; the call echoes each with its current
    value, a boolean flag as the long name of its enabled or disabled
    form. *)
Definition PrintOptions (o : Options) : Line :=
  OptionsUsed
    [("--mesh", VString (mesh_file o));
     ("--order", VInt (order o));
     (if static_cond o then "--static-condensation"
      else "--no-static-condensation", VFlag);
     (if pa o then "--partial-assembly" else "--no-partial-assembly", VFlag);
     ("--device", VString (device_config o));
     (if visualization o then "--visualization" else "--no-visualization",
      VFlag);
     ("--preconditioner-type", VString (pc_type o));
     ("--preconditioner-storage-optimization", VString (pc_storage_opt o));
     ("--preconditioner-accuracy", VDouble (pc_acc o));
     ("--preconditioner-max-block-size", VInt (pc_max_bs o))].

(** The body of [main] after [args.Parse()]; [good] is [args.Good()] and
    [output_mesh] the local variable of that name.  Returns the exit status
    and the outputs in program order. *)
Definition main_body (output_mesh : bool) (good : bool) (o : Options)
  : Z * list Output :=
  if negb good then (1, [Stdout Usage])
  else
    let out := [Stdout (PrintOptions o)] in
    match select_pc (pc_type o) with
    | None => (3, out ++ [mfem_error "Invalid Preconditioner specified"])
    | Some (pc_choice, pc) =>
        let executor :=
          if streq (device_config o) "cuda" then CudaExecutor
          else OmpExecutor in
        let out := out ++ [Stdout (Text "Using basis ...");
                           Stdout (DevicePrint (device_config o))] in
        let problem :=
          {| p_mesh_file := mesh_file o; p_order := order o;
             p_static_cond := static_cond o; p_pa := pa o;
             p_device_config := device_config o |} in
        let out := out ++ [Stdout (SpaceInfo problem)] in
        let '(X, out) :=
          if pc then
            let out :=
              out ++ [Stdout (Timing "Real time creating A_pc SparseMatrix: ")]
            in
            match pc_choice with
            | GKO_BLOCK_JACOBI =>
                let M := GinkgoJacobiPreconditioner executor problem
                           (pc_storage_opt o) (pc_acc o) (pc_max_bs o) in
                (pcg_solve problem M,
                 out ++ [Stdout (Timing
                   "Real time creating Ginkgo BlockJacobi preconditioner: ");
                         Stdout (Timing "Real time in PCG: ")])
            | GKO_ILU =>
                let M := GinkgoIluPreconditioner executor problem in
                (pcg_solve problem M,
                 out ++ [Stdout (Timing
                   "Real time creating Ginkgo Ilu preconditioner: ");
                         Stdout (Timing "Real time in PCG: ")])
            | MFEM_GS =>
                let M := GSSmoother problem in
                (pcg_solve problem M,
                 out ++ [Stdout (Timing
                   "Real time creating MFEM GS preconditioner: ");
                         Stdout (Timing "Real time in PCG: ")])
            | NONE => (initial_guess problem, out)
            end
          else
            (cg_solve problem, out ++ [Stdout (Timing "Real time in CG: ")])
        in
        let out := out ++ [Stdout (Iterations X);
                           Stdout (Timing "Avg time per iteration: ")] in
        let out :=
          if output_mesh then
            out ++ [FileWrite "refined.mesh" (MeshOf problem);
                    FileWrite "sol.gf" (SolutionOf X)]
                ++ (if pc
                    then [FileWrite "lor-refined.mesh" (LorMeshOf problem);
                          FileWrite "lor-mat.dat" (LorMatrixOf problem)]
                    else [])
          else out in
        let out :=
          if visualization o
          then out ++ [SocketSend "localhost" 19916
                         (MeshAndSolution problem X)]
          else out in
        (0, out)
    end.

(** [bool output_mesh = false;]: no option is registered for it. *)
Definition output_mesh : bool := false.

Definition main (good : bool) (o : Options) : Z * list Output :=
  main_body output_mesh good o.

(** Two invocations without LOR preconditioner that differ only in the
    maximal Block-Jacobi block size. *)
Definition options_none_32 : Options :=
  {| mesh_file := "star.mesh"; order := 2; static_cond := false;
     pa := true; device_config := "cpu"; visualization := false;
     pc_type := "none"; pc_storage_opt := "auto";
     pc_acc := 1e-1%R; pc_max_bs := 32 |}.

Definition options_none_16 : Options :=
  {| mesh_file := "star.mesh"; order := 2; static_cond := false;
     pa := true; device_config := "cpu"; visualization := false;
     pc_type := "none"; pc_storage_opt := "auto";
     pc_acc := 1e-1%R; pc_max_bs := 16 |}.

(** An invocation with a preconditioner type that is not accepted. *)
Definition options_jacobi : Options :=
  {| mesh_file := "star.mesh"; order := 3; static_cond := false;
     pa := true; device_config := "cpu"; visualization := false;
     pc_type := "jacobi"; pc_storage_opt := "auto";
     pc_acc := 1e-1%R; pc_max_bs := 32 |}.

(** The four accepted preconditioner types. *)
Definition valid_pc_type (s : string) : Prop :=
  s = "gko:bj" \/ s = "gko:ilu" \/ s = "mfem:gs" \/ s = "none".

(** Two option records that differ at most in the three Block-Jacobi
    tuning parameters. *)
Definition same_but_tuning (o1 o2 : Options) : Prop :=
  mesh_file o1 = mesh_file o2 /\ order o1 = order o2
  /\ static_cond o1 = static_cond o2 /\ pa o1 = pa o2
  /\ device_config o1 = device_config o2
  /\ visualization o1 = visualization o2 /\ pc_type o1 = pc_type o2.

(** A line other than the echo of the options. *)
Definition not_options_echo (x : Output) : bool :=
  match x with
  | Stdout (OptionsUsed _) => false
  | _ => true
  end.

(** The run without the echo of the options: exit status, the remaining
    lines on [cout], the files and the socket stream. *)
Definition without_options_echo (r : Z * list Output) : Z * list Output :=
  (fst r, filter not_options_echo (snd r)).

End Ex1Lor.

(** ** [class AdvectionTDO] and [class FaceIntegrator]: the Euler system *)

Module AdvectionTDO.

Import Vec Lib.
Local Open Scope R_scope.
Local Open Scope result_scope.

(** A dense tensor, read as [t(i,j,k)]. *)
Definition DenseTensor := nat -> nat -> nat -> R.

(** [t(i,j,k) = x] *)
Definition tset (t : DenseTensor) (i j k : nat) (x : R) : DenseTensor :=
  fun i' j' k' =>
    if (Nat.eqb i i' && Nat.eqb j j' && Nat.eqb k k')%bool then x
    else t i' j' k'.

(** The members [Mult] and [GetFlux] read or write; [state_] and [f_] are
    the scratch state and flux matrix of [GetFlux]. *)
Record t : Type := {
  dim_ : nat;
  num_equation_ : nat;
  specific_heat_ratio_ : R;
  state_ : Vector;
  f_ : DenseMatrix;
  flux_ : DenseTensor;
  max_char_speed_ : R
}.

Definition set_scratch (state : Vector) (f : DenseMatrix) (mcs : R) (a : t)
  : t :=
  {| dim_ := dim_ a; num_equation_ := num_equation_ a;
     specific_heat_ratio_ := specific_heat_ratio_ a;
     state_ := state; f_ := f; flux_ := flux_ a;
     max_char_speed_ := mcs |}.

Definition set_flux (flux : DenseTensor) (a : t) : t :=
  {| dim_ := dim_ a; num_equation_ := num_equation_ a;
     specific_heat_ratio_ := specific_heat_ratio_ a;
     state_ := state_ a; f_ := f_ a; flux_ := flux;
     max_char_speed_ := max_char_speed_ a |}.

(** Compute the flux at solution nodes.  [SizeI] and [SizeJ] are
    [flux.SizeI()] and [flux.SizeJ()]; an assertion that fails at a node
    ends the call there. *)
Definition GetFlux (MFEM_DEBUG : bool) (SizeI SizeJ : nat) (x : DenseMatrix)
  (flux : DenseTensor) (a : t) : result (DenseTensor * t) :=
  let dof := SizeI in
  let dim := SizeJ in
  for_loop dof (fun i r =>
    st <- r ;;
    let '(flux, a) := st in
    let state :=
      for_loop (num_equation_ a) (fun k state => vset state k (x i k))
        (state_ a) in
    f <- Euler.ComputeFlux MFEM_DEBUG state dim (specific_heat_ratio_ a)
           (f_ a) ;;
    let flux :=
      for_loop dim (fun d flux =>
        for_loop (num_equation_ a) (fun k flux =>
          tset flux i d k (f k d)) flux) flux in
    (* Update max char speed *)
    let mcs :=
      Euler.ComputeMaxCharSpeed state dim (specific_heat_ratio_ a) in
    Ok (flux,
        set_scratch state f
          (if Rgt_dec mcs (max_char_speed_ a) then mcs
           else max_char_speed_ a) a))
    (Ok (flux, a)).

(** [Mult(x, y)]; [xmat] is the view of [x] as a matrix with one row per
    node and one column per equation, [GetNDofs] and [GetNE] are the sizes
    of [vfes_].  The face terms, the products with [Aflux_] and with the
    inverse mass matrices are library calls. *)
Definition Mult (MFEM_DEBUG : bool) (GetNDofs GetNE : nat) (xmat : DenseMatrix)
  (a : t) : result (t * Trace) :=
  (* 0. Reset wavespeed computation before operator application. *)
  let a := set_scratch (state_ a) (f_ a) 0 a in
  (* 1. Create the vector z with the face terms -<F.n(u), [w]>. *)
  let tr := [Call (Member "A_") "Mult"] in
  (* 2. Add the element terms. *)
  r <- GetFlux MFEM_DEBUG GetNDofs (dim_ a) xmat (flux_ a) a ;;
  let '(flux, a) := r in
  let a := set_flux flux a in
  let tr :=
    for_loop (num_equation_ a) (fun k tr =>
      tr ++ [Call (Member "Aflux_") "AddMult"]) tr in
  (* 3. Multiply element-wise by the inverse mass matrices. *)
  let tr :=
    for_loop GetNE (fun i tr =>
      tr ++ [Call (Member "vfes_") "GetElementVDofs";
             Call (Member "z_") "GetSubVector";
             Call (Elem "Me_inv_" i) "Mult";
             Call (Member "y") "SetSubVector"]) tr in
  Ok (a, tr).

(** The state at node [i]: row [i] of [x], [n] entries. *)
Definition row (x : DenseMatrix) (n i : nat) : Vector := map (x i) (seq 0 n).

(** A scalar form of the Euler system in one space dimension with two
    nodes, both physical for [gamma = 1.4]. *)
Definition example : t :=
  {| dim_ := 1; num_equation_ := 3; specific_heat_ratio_ := 1.4;
     state_ := [0; 0; 0]; f_ := fun _ _ => 0; flux_ := fun _ _ _ => 0;
     max_char_speed_ := 7 |}.

Definition example_x : DenseMatrix :=
  fun i k => vget (if Nat.eqb i 0 then Euler.example_state1
                   else Euler.example_state2) k.

End AdvectionTDO.

Module FaceIntegrator.

Import Vec Lib.
Local Open Scope R_scope.
Local Open Scope result_scope.

(** What the finite-element library supplies at one integration point of
    the face: [ip.weight], the basis functions of the two elements
    ([shape1_] and [shape2_] after [CalcShape]), the states interpolated
    from [elfun] ([funval1_] and [funval2_] after [MultTranspose]) and the
    normal ([nor_] after [CalcOrtho]). *)
Record FacePoint : Type := {
  weight : R;
  shape1_ : Vector;
  shape2_ : Vector;
  funval1_ : Vector;
  funval2_ : Vector;
  nor_ : Vector
}.

(** The members that outlive a point of the quadrature; [rsolver_] is a
    reference to the caller's solver. *)
Record t : Type := {
  num_equation_ : nat;
  max_char_speed_ : R;
  rsolver_ : Euler.RiemannSolver;
  fluxN_ : Vector
}.

(** The constructor: [max_char_speed_(0.0)], [fluxN_(num_equation_)]. *)
Definition new (rsolver : Euler.RiemannSolver) (num_equation : nat) : t :=
  {| num_equation_ := num_equation; max_char_speed_ := 0;
     rsolver_ := rsolver; fluxN_ := repeat 0 num_equation |}.

(** [AssembleFaceVector]: compute the term <F.n(u),[w]> on the interior
    faces.  [ir] holds the integration points in order.  [elvect] is
    returned as its two views [elvect1_mat] ([dof1 x num_equation_]) and
    [elvect2_mat] ([dof2 x num_equation_]), which [elvect = 0.0] zeroes. *)
Definition AssembleFaceVector (MFEM_DEBUG : bool) (dof1 dof2 : nat)
  (ir : list FacePoint) (x : t) : result (DenseMatrix * DenseMatrix * t) :=
  fold_left (fun r ip =>
    st <- r ;;
    let '(elvect1_mat, elvect2_mat, x) := st in
    (* Get the normal vector and the flux on the face *)
    ev <- Euler.Eval MFEM_DEBUG (rsolver_ x) (funval1_ ip) (funval2_ ip)
            (nor_ ip) (fluxN_ x) ;;
    let '(mcs, fluxN, rsolver) := ev in
    (* Update max char speed *)
    let max_char_speed :=
      if Rgt_dec mcs (max_char_speed_ x) then mcs else max_char_speed_ x in
    (* fluxN_ *= ip.weight *)
    let fluxN := map (fun v => v * weight ip) fluxN in
    let '(elvect1_mat, elvect2_mat) :=
      for_loop (num_equation_ x) (fun k el =>
        let '(elvect1_mat, elvect2_mat) := el in
        (for_loop dof1 (fun s m =>
           mset m s k (m s k - vget fluxN k * vget (shape1_ ip) s))
           elvect1_mat,
         for_loop dof2 (fun s m =>
           mset m s k (m s k + vget fluxN k * vget (shape2_ ip) s))
           elvect2_mat)) (elvect1_mat, elvect2_mat) in
    Ok (elvect1_mat, elvect2_mat,
        {| num_equation_ := num_equation_ x;
           max_char_speed_ := max_char_speed;
           rsolver_ := rsolver; fluxN_ := fluxN |}))
    ir (Ok (fun _ _ => 0, fun _ _ => 0, x)).

(** [sum_{s < dof} m(s,k)]: the total that column [k] of an element
    vector adds to equation [k]. *)
Definition column_sum (dof : nat) (m : DenseMatrix) (k : nat) : R :=
  accumulate dof (fun s => m s k).

(** The speed [Eval] returns at a point: the larger of the characteristic
    speeds of the two states. *)
Definition point_speed (gamma : R) (ip : FacePoint) : R :=
  Rmax (Euler.ComputeMaxCharSpeed (funval1_ ip) (length (nor_ ip)) gamma)
       (Euler.ComputeMaxCharSpeed (funval2_ ip) (length (nor_ ip)) gamma).

(** A point of a mesh of dimension [num_equation - 2] at which both
    interpolated states are physical. *)
Definition admissible (num_equation : nat) (gamma : R) (ip : FacePoint)
  : Prop :=
  num_equation = (length (nor_ ip) + 2)%nat
  /\ Euler.Physical (funval1_ ip) (length (nor_ ip)) gamma
  /\ Euler.Physical (funval2_ ip) (length (nor_ ip)) gamma.

(** The sizes the two constructors establish: the solver and the
    integrator are built for the same number of equations. *)
Definition well_sized (x : t) : Prop :=
  Euler.num_equation_ (rsolver_ x) = num_equation_ x
  /\ length (Euler.flux1_ (rsolver_ x)) = num_equation_ x
  /\ length (Euler.flux2_ (rsolver_ x)) = num_equation_ x
  /\ length (fluxN_ x) = num_equation_ x.

(** A face in one space dimension between two linear elements, with one
    integration point at which the states of [Euler] meet. *)
Definition example_ir : list FacePoint :=
  [{| weight := 1; shape1_ := [0; 1]; shape2_ := [1; 0];
      funval1_ := Euler.example_state1; funval2_ := Euler.example_state2;
      nor_ := Euler.example_nor |}].

Definition example : t := new Euler.example_solver 3.

End FaceIntegrator.

Module DomainIntegrator.

Import Vec.
Local Open Scope R_scope.

(** What the finite-element library supplies at one integration point of
    the element: [ip.weight], the basis functions of the trial element
    ([shape_] after [CalcShape]) and the physical gradients of the test
    functions ([dshapedx_] after [CalcDShape] and the product with
    [Tr.AdjugateJacobian()]). *)
Record Point : Type := {
  weight : R;
  shape_ : Vector;
  dshapedx_ : DenseMatrix
}.

(** [AssembleElementMatrix2]: assemble the form (vec(v), grad(w)) for a
    trial element of [dof_trial] and a test element of [dof_test] degrees
    of freedom in dimension [dim].  [ir] holds the integration points in
    order; [elmat] is sized [dof_test x (dof_trial * dim)] and zeroed. *)
Definition AssembleElementMatrix2 (dim dof_trial dof_test : nat)
  (ir : list Point) : DenseMatrix :=
  fold_left (fun elmat ip =>
    (* shape_ *= ip.weight *)
    let shape_ := map (fun v => v * weight ip) (shape_ ip) in
    for_loop dim (fun d elmat =>
      for_loop dof_test (fun j elmat =>
        for_loop dof_trial (fun k elmat =>
          mset elmat j (k + d * dof_trial)%nat
            (elmat j (k + d * dof_trial)%nat
             + vget shape_ k * dshapedx_ ip j d))
          elmat) elmat) elmat)
    ir (fun _ _ => 0).

(** [sum_{ip in ir} f(ip)], in the order of the points. *)
Definition quadrature (ir : list Point) (f : Point -> R) : R :=
  fold_left (fun acc ip => acc + f ip) ir 0.

(** Two integration points on a segment with linear trial and test
    functions: the points sit on the two nodes. *)
Definition example_ir : list Point :=
  [{| weight := 0.5; shape_ := [1; 0];
      dshapedx_ := fun j _ => match j with O => -1 | _ => 1 end |};
   {| weight := 0.5; shape_ := [0; 1];
      dshapedx_ := fun j _ => match j with O => -1 | _ => 1 end |}].

End DomainIntegrator.

(** * Part II: lemmas and theorems *)

Import Vec.

(** Membership in an explicit list. *)
Ltac in_list := cbn; repeat (first [left; reflexivity | right]).
Ltac not_in_list H := cbn in H; intuition discriminate.

Lemma for_loop_invariant {S : Type} (P : nat -> S -> Prop) n body (s : S) :
  P O s ->
  (forall k t, (k < n)%nat -> P k t -> P (Datatypes.S k) (body k t)) ->
  P n (for_loop n body s).
Proof.
  intros H0 Hstep. induction n as [|n IH]; simpl; auto.
  apply Hstep; [lia|]. apply IH. intros k t Hk. apply Hstep. lia.
Qed.

Section VecFacts.

Local Open Scope R_scope.

Lemma length_vset v i x : length (vset v i x) = length v.
Proof.
  revert i. induction v as [|h t IH]; intros [|j]; simpl; auto.
Qed.

Lemma vget_vset_eq v i x : (i < length v)%nat -> vget (vset v i x) i = x.
Proof.
  unfold vget. revert i.
  induction v as [|h t IH]; intros [|j] Hi; simpl in *; try lia; auto.
  apply IH. lia.
Qed.

Lemma vget_vset_neq v i j x : i <> j -> vget (vset v i x) j = vget v j.
Proof.
  unfold vget. revert i j.
  induction v as [|h t IH]; intros [|i] [|j] Hij; simpl; auto; try congruence.
Qed.

Lemma mset_eq m i j x : mset m i j x i j = x.
Proof. unfold mset. now rewrite !Nat.eqb_refl. Qed.

Lemma mset_neq m i j x i' j' :
  (i <> i' \/ j <> j') -> mset m i j x i' j' = m i' j'.
Proof.
  unfold mset. intros H.
  destruct (Nat.eqb_spec i i'), (Nat.eqb_spec j j'); simpl; auto.
  destruct H; congruence.
Qed.

Lemma accumulate_S n f : accumulate (Datatypes.S n) f = accumulate n f + f n.
Proof. reflexivity. Qed.

Lemma accumulate_ext n f g :
  (forall d, (d < n)%nat -> f d = g d) -> accumulate n f = accumulate n g.
Proof.
  induction n as [|n IH]; intros H; [reflexivity|].
  rewrite !accumulate_S, IH, (H n); auto.
Qed.

Lemma accumulate_scal n f c :
  accumulate n (fun d => c * f d) = c * accumulate n f.
Proof.
  induction n as [|n IH]; [unfold accumulate; simpl; lra|].
  rewrite !accumulate_S, IH. lra.
Qed.

Lemma accumulate_plus n f g :
  accumulate n (fun d => f d + g d) = accumulate n f + accumulate n g.
Proof.
  induction n as [|n IH]; [unfold accumulate; simpl; lra|].
  rewrite !accumulate_S, IH. lra.
Qed.

Lemma accumulate_opp n f :
  accumulate n (fun d => - f d) = - accumulate n f.
Proof.
  induction n as [|n IH]; [unfold accumulate; simpl; lra|].
  rewrite !accumulate_S, IH. lra.
Qed.

(** Only the term at [i] survives a sum against an indicator. *)
Lemma accumulate_indicator n i (f : nat -> R) :
  accumulate n (fun d => if Nat.eqb i d then f d else 0)
  = if Nat.ltb i n then f i else 0.
Proof.
  induction n as [|n IH]; [reflexivity|].
  rewrite accumulate_S, IH.
  destruct (Nat.ltb_spec i n), (Nat.ltb_spec i (Datatypes.S n)),
    (Nat.eqb_spec i n); subst; try lia; lra.
Qed.

Lemma accumulate_sqr_nonneg n f : 0 <= accumulate n (fun d => f d * f d).
Proof.
  induction n as [|n IH]; [unfold accumulate; simpl; lra|].
  rewrite accumulate_S. nra.
Qed.

End VecFacts.

(** ** The Euler flux and the Riemann solver *)

Section EulerFacts.

Import Euler.
Local Open Scope R_scope.

Lemma Physical_StateIsPhysical state dim gamma :
  Physical state dim gamma -> StateIsPhysical state dim gamma = true.
Proof.
  intros (Hden & Hen & Hp). unfold StateIsPhysical.
  destruct (Rlt_dec _ _) as [H|_]; [lra|].
  destruct (Rle_dec _ _) as [H|_]; [lra|].
  unfold ComputePressure in Hp.
  destruct (Rle_dec _ _) as [H|_]; [lra|reflexivity].
Qed.

Lemma MFEM_ASSERT_Physical dbg state dim gamma msg :
  Physical state dim gamma ->
  MFEM_ASSERT dbg (fun _ => StateIsPhysical state dim gamma) msg = Ok tt.
Proof.
  intros H. unfold MFEM_ASSERT, MFEM_VERIFY.
  rewrite (Physical_StateIsPhysical _ _ _ H). now destruct dbg.
Qed.

(** What [ComputeFluxDotN] leaves in [fluxN]. *)
Lemma ComputeFluxDotN_entries dbg state nor gamma fluxN :
  length fluxN = (length nor + 2)%nat ->
  Physical state (length nor) gamma ->
  exists f, ComputeFluxDotN dbg state nor gamma fluxN = Ok f
    /\ length f = length fluxN
    /\ forall i, (i < length nor + 2)%nat ->
                 vget f i = fluxN_entry state nor gamma i.
Proof.
  intros Hlen Hphys. unfold ComputeFluxDotN.
  rewrite (MFEM_ASSERT_Physical _ _ _ _ _ Hphys). cbn [bind].
  set (dim := length nor) in *.
  set (dN := accumulate dim (fun d => den_vel state d * vget nor d)).
  set (pres := ComputePressure state dim gamma).
  set (val := fun d => dN * den_vel state d / vget state 0 + pres * vget nor d).
  set (f0 := vset fluxN 0 dN).
  assert (Hloop :
    let t := for_loop dim (fun d f => vset f (1 + d) (val d)) f0 in
    length t = length fluxN /\ vget t 0 = dN
    /\ forall d, (d < dim)%nat -> vget t (1 + d) = val d).
  { apply (for_loop_invariant (fun k t =>
      length t = length fluxN /\ vget t 0 = dN
      /\ forall d, (d < k)%nat -> vget t (1 + d) = val d)).
    - subst f0. rewrite length_vset. repeat split; [|intros; lia].
      apply vget_vset_eq. lia.
    - intros k t Hk (Hl & H0 & Hd). rewrite length_vset.
      repeat split; auto.
      + rewrite vget_vset_neq; auto.
      + intros d Hdk. destruct (Nat.eq_dec d k) as [->|Hne].
        * apply vget_vset_eq. lia.
        * rewrite vget_vset_neq; [apply Hd|]; lia. }
  cbv zeta in Hloop. destruct Hloop as (Hl & H0 & Hd).
  eexists. split; [reflexivity|]. rewrite length_vset. split; [exact Hl|].
  intros i Hi. unfold fluxN_entry. fold dim. fold dN. fold pres.
  destruct (Nat.eqb_spec i 0) as [->|Hi0].
  - rewrite vget_vset_neq; [exact H0|lia].
  - destruct (Nat.leb_spec i dim) as [Hle|Hgt].
    + rewrite vget_vset_neq by lia.
      replace i with (1 + (i - 1))%nat at 1 by lia.
      rewrite Hd by lia. reflexivity.
    + replace i with (1 + dim)%nat by lia.
      apply vget_vset_eq. unfold val in Hl. rewrite Hl. lia.
Qed.

(** What [ComputeFlux] writes: column [d] of the Euler flux. *)
Lemma ComputeFlux_entries dbg state dim gamma F0 :
  Physical state dim gamma ->
  exists F, ComputeFlux dbg state dim gamma F0 = Ok F
    /\ forall d, (d < dim)%nat ->
         F 0%nat d = den_vel state d
         /\ (forall i, (i < dim)%nat ->
               F (1 + i)%nat d
               = den_vel state i * den_vel state d / vget state 0
                 + (if Nat.eqb i d then ComputePressure state dim gamma else 0))
         /\ F (1 + dim)%nat d
            = den_vel state d
              * ((vget state (1 + dim) + ComputePressure state dim gamma)
                 / vget state 0).
Proof.
  intros Hphys. unfold ComputeFlux.
  rewrite (MFEM_ASSERT_Physical _ _ _ _ _ Hphys). cbn [bind].
  set (pres := ComputePressure state dim gamma).
  set (den := vget state 0).
  set (dv := den_vel state).
  set (H := (vget state (1 + dim) + pres) / den).
  set (body1 := fun d flux =>
    let flux := mset flux 0 d (dv d) in
    let flux := for_loop dim (fun i flux =>
                  mset flux (1 + i) d (dv i * dv d / den)) flux in
    mset flux (1 + d) d (flux (1 + d)%nat d + pres)).
  change (for_loop dim _ F0) with (for_loop dim body1 F0).
  set (col := fun (F : DenseMatrix) d =>
    F 0%nat d = dv d
    /\ forall i, (i < dim)%nat ->
         F (1 + i)%nat d = dv i * dv d / den + (if Nat.eqb i d then pres else 0)).
  assert (H1 : forall d, (d < dim)%nat -> col (for_loop dim body1 F0) d).
  { apply (for_loop_invariant (fun k F => forall d, (d < k)%nat -> col F d)).
    - intros; lia.
    - intros k F Hk IH d Hd. unfold body1.
      set (Fa := mset F 0 k (dv k)).
      (* the inner loop fills rows 1..dim of column k and nothing else *)
      assert (Hin :
        let t := for_loop dim (fun i flux =>
                   mset flux (1 + i) k (dv i * dv k / den)) Fa in
        (forall i' j', (j' <> k \/ i' = 0%nat) -> t i' j' = Fa i' j')
        /\ forall i, (i < dim)%nat -> t (1 + i)%nat k = dv i * dv k / den).
      { apply (for_loop_invariant (fun j t =>
          (forall i' j', (j' <> k \/ i' = 0%nat) -> t i' j' = Fa i' j')
          /\ forall i, (i < j)%nat -> t (1 + i)%nat k = dv i * dv k / den)).
        - split; [reflexivity|intros; lia].
        - intros j t Hj (Hout & Hcol). split.
          + intros i' j' Hij. rewrite mset_neq; [apply Hout; exact Hij|].
            destruct Hij; [right; congruence|left; lia].
          + intros i Hi. destruct (Nat.eq_dec i j) as [->|Hne].
            * apply mset_eq.
            * rewrite mset_neq; [apply Hcol; lia|left; lia]. }
      cbv zeta in Hin. destruct Hin as (Hout & Hcol).
      set (Fb := for_loop dim _ Fa) in *.
      destruct (Nat.eq_dec d k) as [->|Hne].
      + split.
        * rewrite mset_neq by (left; lia).
          rewrite Hout by (right; reflexivity). apply mset_eq.
        * intros i Hi. destruct (Nat.eqb_spec i k) as [->|Hik].
          -- rewrite mset_eq, Hcol by lia. reflexivity.
          -- rewrite mset_neq by (left; lia). rewrite Hcol by lia. lra.
      + destruct (IH d ltac:(lia)) as (IH0 & IHi). split.
        * rewrite mset_neq by (right; lia). rewrite Hout by (left; lia).
          unfold Fa. rewrite mset_neq by (right; lia). exact IH0.
        * intros i Hi. rewrite mset_neq by (right; lia).
          rewrite Hout by (left; lia).
          unfold Fa. rewrite mset_neq by (right; lia). apply IHi, Hi. }
  set (F1 := for_loop dim body1 F0) in *.
  assert (H2 :
    let t := for_loop dim (fun d flux => mset flux (1 + dim) d (dv d * H)) F1 in
    (forall i j, i <> (1 + dim)%nat -> t i j = F1 i j)
    /\ forall d, (d < dim)%nat -> t (1 + dim)%nat d = dv d * H).
  { apply (for_loop_invariant (fun k t =>
      (forall i j, i <> (1 + dim)%nat -> t i j = F1 i j)
      /\ forall d, (d < k)%nat -> t (1 + dim)%nat d = dv d * H)).
    - split; [reflexivity|intros; lia].
    - intros k t Hk (Hout & Hrow). split.
      + intros i j Hi. rewrite mset_neq by (left; lia). apply Hout, Hi.
      + intros d Hd. destruct (Nat.eq_dec d k) as [->|Hne].
        * apply mset_eq.
        * rewrite mset_neq by (right; lia). apply Hrow. lia. }
  cbv zeta in H2. destruct H2 as (Hout & Hrow).
  eexists. split; [reflexivity|].
  intros d Hd. destruct (H1 d Hd) as (Ha & Hb). repeat split.
  - rewrite Hout by lia. exact Ha.
  - intros i Hi. rewrite Hout by lia. apply Hb, Hi.
  - apply Hrow, Hd.
Qed.

(** [ComputeFluxDotN] computes the Euler flux contracted with [nor]. *)
Lemma EulerFlux_contract state nor gamma i :
  Physical state (length nor) gamma ->
  (i < length nor + 2)%nat ->
  contract (EulerFlux state (length nor) gamma) nor i
  = fluxN_entry state nor gamma i.
Proof.
  intros Hphys Hi. unfold EulerFlux.
  destruct (ComputeFlux_entries false state (length nor) gamma (fun _ _ => 0)
              Hphys) as (F & -> & HF).
  unfold contract, fluxN_entry.
  set (dim := length nor) in *.
  set (pres := ComputePressure state dim gamma) in *.
  set (den := vget state 0) in *.
  destruct (Nat.eqb_spec i 0) as [->|Hi0].
  - apply accumulate_ext. intros d Hd.
    destruct (HF d Hd) as (-> & _). reflexivity.
  - destruct (Nat.leb_spec i dim) as [Hle|Hgt].
    + rewrite (accumulate_ext _ _ (fun d =>
        den_vel state (i - 1) / den * (den_vel state d * vget nor d)
        + (if Nat.eqb (i - 1) d then pres * vget nor d else 0))).
      * rewrite accumulate_plus, accumulate_scal.
        rewrite (accumulate_indicator dim (i - 1)
                   (fun d => pres * vget nor d)).
        destruct (Nat.ltb_spec (i - 1) dim); [|lia].
        unfold Rdiv. ring.
      * intros d Hd. destruct (HF d Hd) as (_ & Hrow & _).
        replace i with (1 + (i - 1))%nat at 1 by lia.
        rewrite Hrow by lia.
        destruct (Nat.eqb (i - 1) d); unfold Rdiv; ring.
    + replace i with (1 + dim)%nat by lia.
      rewrite (accumulate_ext _ _ (fun d =>
        (vget state (1 + dim) + pres) / den
        * (den_vel state d * vget nor d))).
      * rewrite accumulate_scal. ring.
      * intros d Hd. destruct (HF d Hd) as (_ & _ & ->). ring.
Qed.

(** The speed [ComputeMaxCharSpeed] returns is [|v| + sqrt(gamma p / rho)]. *)
Lemma ComputeMaxCharSpeed_char_speed state dim gamma :
  0 < vget state 0 ->
  ComputeMaxCharSpeed state dim gamma = char_speed state dim gamma.
Proof.
  intros Hden. unfold ComputeMaxCharSpeed, char_speed, norm2.
  f_equal. f_equal.
  rewrite (accumulate_ext _ (fun d => velocity state d * velocity state d)
             (fun d => / vget state 0 * / vget state 0
                       * (den_vel state d * den_vel state d))).
  - rewrite accumulate_scal. unfold Rdiv. ring.
  - intros d _. unfold velocity, Rdiv. ring.
Qed.

Lemma length_vneg nor : length (vneg nor) = length nor.
Proof. apply length_map. Qed.

Lemma vget_vneg nor d : vget (vneg nor) d = - vget nor d.
Proof.
  unfold vget, vneg. rewrite <- (map_nth Ropp). f_equal. lra.
Qed.

(** [ComputeFluxDotN] is odd in [nor]. *)
Lemma fluxN_entry_vneg state nor gamma i :
  fluxN_entry state (vneg nor) gamma i = - fluxN_entry state nor gamma i.
Proof.
  unfold fluxN_entry. rewrite length_vneg.
  rewrite (accumulate_ext _ (fun d => den_vel state d * vget (vneg nor) d)
             (fun d => - (den_vel state d * vget nor d)))
    by (intros; rewrite vget_vneg; ring).
  rewrite accumulate_opp, vget_vneg.
  destruct (Nat.eqb i 0); [reflexivity|].
  destruct (Nat.leb i (length nor)); unfold Rdiv; ring.
Qed.

(** The scaling [normag] is even in [nor]. *)
Lemma normag_vneg nor :
  accumulate (length (vneg nor)) (fun i => vget (vneg nor) i * vget (vneg nor) i)
  = accumulate (length nor) (fun i => vget nor i * vget nor i).
Proof.
  rewrite length_vneg. apply accumulate_ext.
  intros d _. rewrite vget_vneg. ring.
Qed.

(** [Eval] on physical states, with the scratch vectors and [flux] sized
    [num_equation_ = dim + 2]: it returns, and this is what it returns. *)
Lemma Eval_returns dbg rs state1 state2 nor flux :
  num_equation_ rs = (length nor + 2)%nat ->
  length (flux1_ rs) = num_equation_ rs ->
  length (flux2_ rs) = num_equation_ rs ->
  length flux = num_equation_ rs ->
  Physical state1 (length nor) (specific_heat_ratio_ rs) ->
  Physical state2 (length nor) (specific_heat_ratio_ rs) ->
  exists flux' rs',
    let gamma := specific_heat_ratio_ rs in
    let maxE := Rmax (ComputeMaxCharSpeed state1 (length nor) gamma)
                     (ComputeMaxCharSpeed state2 (length nor) gamma) in
    Eval dbg rs state1 state2 nor flux = Ok (maxE, flux', rs')
    /\ length flux' = num_equation_ rs
    /\ num_equation_ rs' = num_equation_ rs
    /\ specific_heat_ratio_ rs' = gamma
    /\ length (flux1_ rs') = num_equation_ rs
    /\ length (flux2_ rs') = num_equation_ rs
    /\ forall i, (i < num_equation_ rs)%nat ->
         vget flux' i
         = 0.5 * (fluxN_entry state1 nor gamma i
                  + fluxN_entry state2 nor gamma i)
           - 0.5 * maxE * (vget state2 i - vget state1 i)
             * sqrt (accumulate (length nor)
                       (fun i => vget nor i * vget nor i)).
Proof.
  intros Hneq Hl1 Hl2 Hlf Hp1 Hp2. unfold Eval.
  rewrite !MFEM_ASSERT_Physical by assumption. cbn [bind].
  destruct (ComputeFluxDotN_entries dbg state1 nor (specific_heat_ratio_ rs)
              (flux1_ rs) ltac:(lia) Hp1) as (f1 & -> & Hlf1 & Hf1).
  destruct (ComputeFluxDotN_entries dbg state2 nor (specific_heat_ratio_ rs)
              (flux2_ rs) ltac:(lia) Hp2) as (f2 & -> & Hlf2 & Hf2).
  cbn [bind].
  set (gamma := specific_heat_ratio_ rs) in *.
  set (maxE := Rmax _ _).
  set (normag := sqrt _).
  set (val := fun i => 0.5 * (vget f1 i + vget f2 i)
                       - 0.5 * maxE * (vget state2 i - vget state1 i) * normag).
  assert (Hloop :
    let t := for_loop (num_equation_ rs) (fun i fl => vset fl i (val i)) flux in
    length t = num_equation_ rs
    /\ forall i, (i < num_equation_ rs)%nat -> vget t i = val i).
  { apply (for_loop_invariant (fun k t =>
      length t = num_equation_ rs
      /\ forall i, (i < k)%nat -> vget t i = val i)).
    - split; [exact Hlf|intros; lia].
    - intros k t Hk (Hl & Hv). rewrite length_vset. split; [exact Hl|].
      intros i Hi. destruct (Nat.eq_dec i k) as [->|Hne].
      + apply vget_vset_eq. lia.
      + rewrite vget_vset_neq by lia. apply Hv. lia. }
  cbv zeta in Hloop. unfold val in Hloop. destruct Hloop as (Hl & Hv).
  eexists _, _. cbv zeta. split; [reflexivity|]. cbn.
  repeat split; try assumption; try lia.
  intros i Hi. rewrite Hv by exact Hi.
  rewrite Hf1, Hf2 by lia. reflexivity.
Qed.

(** The constructor sizes both scratch vectors to [num_equation]. *)
Lemma RiemannSolver_new_sizes n gamma :
  num_equation_ (RiemannSolver_new n gamma) = n
  /\ specific_heat_ratio_ (RiemannSolver_new n gamma) = gamma
  /\ length (flux1_ (RiemannSolver_new n gamma)) = n
  /\ length (flux2_ (RiemannSolver_new n gamma)) = n.
Proof. cbn. rewrite !repeat_length. auto. Qed.

End EulerFacts.

(** ** Arrays updated in a loop *)

Section ArrayFacts.

Import Lib.

Context {A : Type}.

Lemma length_array_update (l : list A) i f :
  length (array_update l i f) = length l.
Proof.
  revert i. induction l as [|h t IH]; intros [|i]; simpl; auto.
Qed.

Lemma nth_error_array_update_eq (l : list A) i f :
  nth_error (array_update l i f) i = option_map f (nth_error l i).
Proof.
  revert i. induction l as [|h t IH]; intros [|i]; simpl; auto.
Qed.

Lemma nth_error_array_update_neq (l : list A) i j f :
  i <> j -> nth_error (array_update l i f) j = nth_error l j.
Proof.
  revert i j. induction l as [|h t IH]; intros [|i] [|j] H; simpl; auto.
  congruence.
Qed.

(** [for (i = 0; i < n; i++) { a[g(i)] = f(i, a[g(i)]); }] with distinct
    indices [g(i)]: entry [g(j)] is updated once, by [f j]; the other
    entries stay. *)
Lemma for_loop_array_update (g : nat -> nat) (f : nat -> A -> A) n
  (l : list A) :
  (forall i j, g i = g j -> i = j) ->
  let l' := for_loop n (fun i a => array_update a (g i) (f i)) l in
  length l' = length l
  /\ (forall j, (j < n)%nat ->
        nth_error l' (g j) = option_map (f j) (nth_error l (g j)))
  /\ (forall k, (forall j, (j < n)%nat -> g j <> k) ->
        nth_error l' k = nth_error l k).
Proof.
  intros Hg. cbv zeta.
  apply (for_loop_invariant (fun n l' =>
    length l' = length l
    /\ (forall j, (j < n)%nat ->
          nth_error l' (g j) = option_map (f j) (nth_error l (g j)))
    /\ (forall k, (forall j, (j < n)%nat -> g j <> k) ->
          nth_error l' k = nth_error l k))).
  - repeat split; auto. intros; lia.
  - intros k t Hk (Hl & Hin & Hout). rewrite length_array_update.
    split; [exact Hl|]. split.
    + intros j Hj. destruct (Nat.eq_dec j k) as [->|Hne].
      * rewrite nth_error_array_update_eq. f_equal.
        apply Hout. intros j Hj' E. apply Hg in E. lia.
      * rewrite nth_error_array_update_neq.
        -- apply Hin. lia.
        -- intros E. apply Hg in E. lia.
    + intros m Hm. rewrite nth_error_array_update_neq.
      * apply Hout. intros j Hj. apply Hm. lia.
      * apply Hm. lia.
Qed.

Lemma nth_error_lt (l : list A) i a :
  nth_error l i = Some a -> (i < length l)%nat.
Proof.
  intros H. apply nth_error_Some. congruence.
Qed.

Lemma nth_of_nth_error (l : list A) i d a :
  nth_error l i = Some a -> nth i l d = a.
Proof.
  intros H. apply nth_error_nth. exact H.
Qed.

(** Two arrays of the same length with the same entries are equal. *)
Lemma nth_error_ext (l1 l2 : list A) :
  (forall i, nth_error l1 i = nth_error l2 i) -> l1 = l2.
Proof.
  revert l2. induction l1 as [|h t IH]; intros [|h2 t2] H.
  - reflexivity.
  - specialize (H O). discriminate H.
  - specialize (H O). discriminate H.
  - pose proof (H O) as H0. simpl in H0. injection H0 as ->.
    f_equal. apply IH. intros i. exact (H (Datatypes.S i)).
Qed.

End ArrayFacts.

(** ** Time-dependent operators *)

Section AdvectionDiffusionClaims.

Import Lib DGAdvectionDiffusionTDO.
Local Open Scope R_scope.

Lemma time_step_changed_true dt x :
  time_step_changed dt x = true <-> Rabs (dt - dt_ x) > 1e-4 * dt_ x.
Proof.
  unfold time_step_changed. destruct (Rgt_dec _ _); split; auto; discriminate.
Qed.

(** [imex_] is fixed by the constructor: no method assigns it. *)
Lemma imex_initQ x : imex_ (initQ x) = imex_ x.
Proof.
  unfold initQ. destruct (imex_ x) eqn:E.
  - set (x1 := match q_exp_ x with Some _ => x | None => _ end).
    assert (E1 : imex_ x1 = true).
    { unfold x1. destruct (q_exp_ x); [exact E|].
      destruct (has_rhs x); [cbn|]; exact E. }
    destruct (q_imp_ x1); [exact E1|].
    destruct (has_rhs x1); [cbn|]; exact E1.
  - destruct (q_imp_ x); [exact E|].
    destruct (has_rhs x); [cbn|]; exact E.
Qed.

Lemma imex_init x :
  imex_ (initA x) = imex_ x /\ imex_ (initB x) = imex_ x
  /\ imex_ (initS x) = imex_ x /\ imex_ (initK x) = imex_ x.
Proof.
  unfold initA, initB, initS, initK. repeat split.
  - destruct (a_ x); reflexivity.
  - destruct (b_ x); [reflexivity|].
    destruct (dCoef_ x || DCoef_ x || VCoef_ x)%bool; reflexivity.
  - destruct (s_ x); [reflexivity|].
    destruct (dCoef_ x || DCoef_ x)%bool; reflexivity.
  - destruct (k_ x); [reflexivity|]. destruct (VCoef_ x); reflexivity.
Qed.

Lemma imex_SetTime x : imex_ (SetTime x) = imex_ x.
Proof.
  unfold SetTime. rewrite imex_initQ.
  destruct (imex_init x) as (Ea & _).
  rewrite Ea. destruct (imex_ x).
  - destruct (imex_init (initS (initA x))) as (_ & _ & _ & ->).
    destruct (imex_init (initA x)) as (_ & _ & -> & _). exact Ea.
  - destruct (imex_init (initA x)) as (_ & -> & _ & _). exact Ea.
Qed.

Lemma imex_is_constant fes dt x :
  imex_ (SetAdvectionCoefficient x) = imex_ x
  /\ imex_ (SetDiffusionCoefficient x) = imex_ x
  /\ imex_ (SetDiffusionCoefficient_Matrix x) = imex_ x
  /\ imex_ (SetTime x) = imex_ x
  /\ (forall x' tr, ImplicitSolve dt x = Ok (x', tr) -> imex_ x' = imex_ x)
  /\ (forall x' tr, Update fes x = Ok (x', tr) -> imex_ x' = imex_ x).
Proof.
  repeat split.
  - unfold SetAdvectionCoefficient. cbn. destruct (imex_ x) eqn:E; cbn; exact E.
  - unfold SetDiffusionCoefficient. cbn. destruct (imex_ x) eqn:E; cbn; exact E.
  - unfold SetDiffusionCoefficient_Matrix. cbn.
    destruct (imex_ x) eqn:E; cbn; exact E.
  - apply imex_SetTime.
  - intros x' tr. unfold ImplicitSolve.
    destruct (time_step_changed dt x); cbn; destruct (a_ x); cbn;
      intros H; try discriminate H; inversion H; reflexivity.
  - intros x' tr. unfold Update. cbn.
    destruct (a_ x); cbn; intros H; try discriminate H; inversion H;
      reflexivity.
Qed.

(** [SetTime] allocates [a_] (in [initA]), and the later [init] functions
    keep it. *)
Lemma SetTime_allocates_a x : a_ (SetTime x) <> None.
Proof.
  assert (HA : a_ (initA x) <> None).
  { unfold initA. destruct (a_ x) eqn:E; [congruence|cbn; discriminate]. }
  assert (HB : forall y, a_ (initB y) = a_ y).
  { intros y. unfold initB. destruct (b_ y); [reflexivity|].
    destruct (dCoef_ y || DCoef_ y || VCoef_ y)%bool; reflexivity. }
  assert (HS : forall y, a_ (initS y) = a_ y).
  { intros y. unfold initS. destruct (s_ y); [reflexivity|].
    destruct (dCoef_ y || DCoef_ y)%bool; reflexivity. }
  assert (HK : forall y, a_ (initK y) = a_ y).
  { intros y. unfold initK. destruct (k_ y); [reflexivity|].
    destruct (VCoef_ y); reflexivity. }
  assert (HQ : forall y, a_ (initQ y) = a_ y).
  { intros y. unfold initQ. destruct (imex_ y).
    - set (y1 := match q_exp_ y with Some _ => y | None => _ end).
      assert (E1 : a_ y1 = a_ y).
      { unfold y1. destruct (q_exp_ y); [reflexivity|].
        destruct (has_rhs y); reflexivity. }
      destruct (q_imp_ y1); [exact E1|].
      destruct (has_rhs y1); [cbn|]; exact E1.
    - destruct (q_imp_ y); [reflexivity|].
      destruct (has_rhs y); reflexivity. }
  unfold SetTime. rewrite HQ.
  destruct (imex_ (initA x)); rewrite ?HK, ?HS, ?HB; exact HA.
Qed.

(** C7. [ExplicitMult] may only be called on an operator constructed with
    [imex = true]: the [MFEM_VERIFY(imex_, ...)] at its entry passes for
    every IMEX operator, and aborts with "Unexpected call to ExplicitMult
    for non-IMEX method!" whenever [imex_] is false; with [imex_ = true]
    the error branch is not taken. *)
Theorem ExplicitMult_requires_IMEX (x : t) :
  (imex_ x = true -> exists tr, ExplicitMult x = Ok tr)
  /\ (imex_ x = false ->
      ExplicitMult x
      = Abort "Unexpected call to ExplicitMult for non-IMEX method!")
  /\ (imex_ x = true -> forall msg, ExplicitMult x <> Abort msg)
  /\ (forall fes imex, imex_ (new fes imex) = imex).
Proof.
  unfold ExplicitMult, MFEM_VERIFY. repeat split.
  - intros ->. cbn. eauto.
  - intros ->. reflexivity.
  - intros -> msg. cbn. discriminate.
Qed.

(** Runs of C7 on an IMEX and on a fully implicit operator. *)
Lemma ExplicitMult_requires_IMEX_witness :
  (exists tr, ExplicitMult example_imex = Ok tr)
  /\ ExplicitMult example_implicit
     = Abort "Unexpected call to ExplicitMult for non-IMEX method!".
Proof.
  split.
  - exact (proj1 (ExplicitMult_requires_IMEX example_imex) eq_refl).
  - exact (proj1 (proj2 (ExplicitMult_requires_IMEX example_implicit))
             eq_refl).
Defined.

(** [ImplicitSolve] returns once [a_] is allocated, and then it has
    rescaled the coefficients exactly under the test on the time step. *)
Lemma ImplicitSolve_dt_state dt x :
  (a_ x <> None -> exists x' tr, ImplicitSolve dt x = Ok (x', tr))
  /\ (forall x' tr, ImplicitSolve dt x = Ok (x', tr) ->
        (Rabs (dt - dt_ x) > 1e-4 * dt_ x ->
         dt_state x'
         = (dt, option_map (SetAConst dt) (dtdCoef_ x),
            option_map (SetAConst dt) (dtDCoef_ x),
            option_map (SetAConst dt) (dtNegVCoef_ x)))
        /\ (~ Rabs (dt - dt_ x) > 1e-4 * dt_ x -> dt_state x' = dt_state x)).
Proof.
  unfold ImplicitSolve. split.
  - intros Ha. destruct (time_step_changed dt x); cbn;
      destruct (a_ x); try contradiction; cbn; eauto.
  - intros x' tr.
    destruct (time_step_changed dt x) eqn:E; cbn;
      destruct (a_ x); cbn; intros H; try discriminate H;
      inversion H; subst; clear H; split; intros Hc.
    + reflexivity.
    + apply time_step_changed_true in E. contradiction.
    + apply time_step_changed_true in Hc. congruence.
    + reflexivity.
Qed.

End AdvectionDiffusionClaims.

Section DiffusionClaims.

Import Lib DiffusionTDO.
Local Open Scope R_scope.

Lemma Diffusion_time_step_changed_true dt x :
  time_step_changed dt x = true <-> Rabs (dt - dt_ x) > 1e-4 * dt.
Proof.
  unfold time_step_changed. destruct (Rgt_dec _ _); split; auto; discriminate.
Qed.

(** The constructor leaves nothing built. *)
Lemma new_fresh dg_sigma : fresh (new dg_sigma) = true.
Proof. reflexivity. Qed.

(** [initSolver] on a fresh or built operator: it returns unless the
    operator is fresh and the time step unchanged; when it returns, the
    operator is built, and matrix, preconditioner and solver were rebuilt
    exactly under the test on the time step. *)
Lemma initSolver_rebuilds dt x :
  fresh x = true \/ built x = true ->
  (Rabs (dt - dt_ x) > 1e-4 * dt \/ built x = true ->
   exists x' tr, initSolver dt x = Ok (x', tr))
  /\ (forall x' tr, initSolver dt x = Ok (x', tr) ->
        built x' = true
        /\ (Rabs (dt - dt_ x) > 1e-4 * dt ->
            dt_ x' = dt /\ AConst (dtNuCoef_ x') = dt
            /\ built_with dt x' /\ rebuilt tr)
        /\ (~ Rabs (dt - dt_ x) > 1e-4 * dt -> x' = x /\ tr = [])).
Proof.
  intros Hinv. unfold initSolver.
  destruct (time_step_changed dt x) eqn:E.
  - apply Diffusion_time_step_changed_true in E.
    destruct x as [d sg c [M|] [A|] [S|]];
      (destruct Hinv as [Hinv|Hinv]; cbn in Hinv; try discriminate Hinv);
      cbn; destruct (Req_dec_T sg (-1)); cbn;
      (split; [intros _; eauto|]);
      intros x' tr H; inversion H; subst; clear H; cbn;
      (split; [reflexivity|]); (split; [|intros Hn; contradiction]);
      intros _; unfold built_with, rebuilt; cbn; intuition auto.
  - assert (Hn : ~ Rabs (dt - dt_ x) > 1e-4 * dt).
    { intros Hc. apply Diffusion_time_step_changed_true in Hc. congruence. }
    destruct x as [d sg c [M|] [A|] [S|]];
      (destruct Hinv as [Hinv|Hinv]; cbn in Hinv; try discriminate Hinv);
      cbn in *.
    + split; [intros _; eauto|].
      intros x' tr H; inversion H; subst; clear H.
      split; [reflexivity|]. split; [intros Hc; contradiction|].
      intros _. split; reflexivity.
    + split; [intros [Hc|Hb]; [contradiction|discriminate]|].
      intros x' tr H. discriminate H.
Qed.

End DiffusionClaims.

(** ** [SetTimeStep] *)

Section SetTimeStepClaims.

Import Lib CombinedOp.
Local Open Scope R_scope.

Lemma NLOperator_SetTimeStep_y1Coef dt (b : NLOperator.t) j c :
  (j < 5)%nat ->
  nth_error (NLOperator.y1Coef_ b) j = Some c ->
  nth_error (NLOperator.y1Coef_ (NLOperator.SetTimeStep dt b)) j
  = Some (SetBeta dt c).
Proof.
  intros Hj Hc. cbn [NLOperator.SetTimeStep NLOperator.y1Coef_].
  destruct (for_loop_array_update (fun i => i) (fun _ => SetBeta dt) 5
              (NLOperator.y1Coef_ b) ltac:(auto)) as (_ & Hin & _).
  rewrite (Hin j Hj), Hc. reflexivity.
Qed.

Lemma base_Op_SetTimeStep dt op :
  base (Op_SetTimeStep dt op) = NLOperator.SetTimeStep dt (base op).
Proof. destruct op; reflexivity. Qed.

Lemma SetTimeStep_op dt x i op :
  (i < neq_ x)%nat ->
  nth_error (op_ x) i = Some op ->
  nth_error (op_ (SetTimeStep dt x)) i = Some (Op_SetTimeStep dt op).
Proof.
  intros Hi Hop. cbn [SetTimeStep op_].
  destruct (for_loop_array_update (fun i => i) (fun _ => Op_SetTimeStep dt)
              (neq_ x) (op_ x) ltac:(auto)) as (_ & Hin & _).
  rewrite (Hin i Hi), Hop. reflexivity.
Qed.

(** The factor each [dt]-scaled coefficient has after [SetTimeStep]. *)
Lemma dt_coefficients_SetTimeStep dt op name c :
  In (name, c) (dt_coefficients (Op_SetTimeStep dt op)) ->
  AConst c = if negated_dt_coefficient name then - dt else dt.
Proof.
  destruct op; cbn; intros H;
    repeat (destruct H as [H|H]; [injection H as <- <-; reflexivity|]);
    contradiction.
Qed.

(** C3, as stated, fails: after [SetTimeStep(1)] on the five physical
    operators, the factor of [dtdChiGradTCoef_] in the electron pressure
    operator is [-1], not [1]. *)
Lemma SetTimeStep_factor_counterexample :
  ~ (forall (dt : R) (x : CombinedOp.t) (i : nat) (op : Op)
            (name : string) (c : ProductCoefficient),
       (i < neq_ x)%nat ->
       nth_error (op_ (SetTimeStep dt x)) i = Some op ->
       In (name, c) (dt_coefficients op) ->
       AConst c = dt).
Proof.
  intros H.
  assert (E : example = Ok example_op) by reflexivity.
  specialize (H 1 example_op 4%nat _ "dtdChiGradTCoef_"%string
                {| AConst := - 1 |} ltac:(cbn; lia) eq_refl).
  cbn in H. assert (F : - 1 = 1) by (apply H; right; left; reflexivity).
  lra.
Qed.

(** C3, amended.  [CombinedOp::SetTimeStep(dt)] forwards [dt] to the
    [SetTimeStep] of each of its operators; each such call stores [dt] in
    [dt_], sets [dt] as the [beta] factor of each of the five [y1Coef_] sum
    coefficients (which then evaluate to [y0 + dt * k]), and rescales every
    [dt]-scaled product coefficient of the operator so that its factor is
    [dt], except [negdtdSizdnnCoef_] and [negdtdSizdniCoef_] of
    [IonDensityOp] and [dtdChiGradTCoef_] of [ElectronStaticPressureOp],
    whose factor is [-dt]. *)
Theorem SetTimeStep_forwards_dt (dt : R) (x : CombinedOp.t) (i : nat)
  (op : Op) :
  (i < neq_ x)%nat ->
  nth_error (op_ x) i = Some op ->
  let op' := Op_SetTimeStep dt op in
  nth_error (op_ (SetTimeStep dt x)) i = Some op'
  /\ NLOperator.dt_ (base op') = dt
  /\ (forall j c, (j < 5)%nat ->
        nth_error (NLOperator.y1Coef_ (base op)) j = Some c ->
        exists c', nth_error (NLOperator.y1Coef_ (base op')) j = Some c'
                   /\ beta c' = dt
                   /\ (alpha c = 1 ->
                       forall y0 k, SumCoefficient_Eval c' y0 k = y0 + dt * k))
  /\ (forall name c, In (name, c) (dt_coefficients op') ->
        AConst c = if negated_dt_coefficient name then - dt else dt).
Proof.
  intros Hi Hop op'. split; [apply SetTimeStep_op; assumption|].
  split; [unfold op'; rewrite base_Op_SetTimeStep; reflexivity|].
  split.
  - intros j c Hj Hc. exists (SetBeta dt c). unfold op'.
    rewrite base_Op_SetTimeStep.
    split; [apply NLOperator_SetTimeStep_y1Coef; assumption|].
    split; [reflexivity|].
    intros Ha y0 k. unfold SumCoefficient_Eval, SetBeta. cbn. rewrite Ha. ring.
  - intros name c. apply dt_coefficients_SetTimeStep.
Qed.

(** A run of C3 as amended: the neutral density operator of [example],
    time step [0.5]. *)
Lemma SetTimeStep_forwards_dt_witness :
  exists op,
    example = Ok example_op
    /\ nth_error (op_ (SetTimeStep 0.5 example_op)) 0 = Some op
    /\ NLOperator.dt_ (base op) = 0.5
    /\ forall name c, In (name, c) (dt_coefficients op) -> AConst c = 0.5.
Proof.
  eexists. split; [reflexivity|].
  destruct (fun H => SetTimeStep_forwards_dt 0.5 example_op 0
              (NeutralDensity _) H eq_refl)
    as (H1 & H2 & _ & H4); [cbn; lia|].
  split; [exact H1|]. split; [exact H2|].
  intros name c Hin. rewrite (H4 name c Hin).
  cbn in Hin.
  repeat (destruct Hin as [Hin|Hin]; [injection Hin as <- _; reflexivity|]).
  contradiction.
Defined.

End SetTimeStepClaims.

(** ** [DGTransportTDO::ImplicitSolve] *)

Section ImplicitSolveClaims.

Import Lib DGTransportTDO.
Local Open Scope Z_scope.

Lemma repoint_spec n base offsets gf :
  let gf' := CombinedOp.repoint n base offsets gf in
  length gf' = length gf
  /\ (forall i, (i < n)%nat ->
        nth_error gf' i
        = option_map (MakeRef (base + nth i offsets 0)) (nth_error gf i))
  /\ (forall i, (n <= i)%nat -> nth_error gf' i = nth_error gf i).
Proof.
  cbv zeta. unfold CombinedOp.repoint.
  destruct (for_loop_array_update (fun i => i)
              (fun i => MakeRef (base + nth i offsets 0)) n gf ltac:(auto))
    as (Hl & Hin & Hout).
  split; [exact Hl|]. split; [exact Hin|].
  intros i Hi. apply Hout. intros j Hj. lia.
Qed.

(** After [repoint], the first [n] grid functions lie at the offsets of the
    array at [base]. *)
Lemma repoint_at n base offsets gf i :
  (i < n)%nat -> (i < length gf)%nat ->
  nth_error (CombinedOp.repoint n base offsets gf) i
  = Some {| GetData := base + nth i offsets 0 |}.
Proof.
  intros Hn Hl. destruct (repoint_spec n base offsets gf) as (_ & Hin & _).
  rewrite (Hin i Hn).
  destruct (nth_error gf i) eqn:E; [reflexivity|].
  apply nth_error_None in E. lia.
Qed.

(** Re-pointing grid functions that already lie at those offsets changes
    nothing. *)
Lemma repoint_block_layout n base offsets gf :
  length gf = n ->
  block_layout base offsets gf ->
  CombinedOp.repoint n base offsets gf = gf.
Proof.
  intros Hl Hb. apply nth_error_ext. intros i.
  destruct (repoint_spec n base offsets gf) as (_ & Hin & Hout).
  destruct (Nat.lt_ge_cases i n) as [Hi|Hi]; [|apply Hout, Hi].
  rewrite (Hin i Hi). destruct (nth_error gf i) as [g|] eqn:E; [|reflexivity].
  cbn. unfold MakeRef. rewrite <- (Hb i g E). now destruct g.
Qed.

Lemma repoint_is_block_layout n base offsets gf :
  length gf = n ->
  block_layout base offsets (CombinedOp.repoint n base offsets gf).
Proof.
  intros Hl i g Hg.
  assert (Hi : (i < n)%nat).
  { destruct (repoint_spec n base offsets gf) as (Hlen & _).
    apply nth_error_lt in Hg. lia. }
  rewrite repoint_at in Hg by lia. now injection Hg as <-.
Qed.

(** The Newton solver leaves [yGF_] and [op_] alone and keeps the size of
    [kGF_]. *)
Lemma newton_solver_Mult_frame calls x :
  let x' := newton_solver_Mult calls x in
  yGF_ x' = yGF_ x /\ op_ x' = op_ x /\ length (kGF_ x') = length (kGF_ x).
Proof.
  cbv zeta. unfold newton_solver_Mult. revert x.
  induction calls as [|c calls IH]; intros x; [auto|].
  cbn [fold_left].
  match goal with |- context [fold_left ?f calls ?x1] =>
    destruct (IH x1) as (Hy & Ho & Hk) end.
  rewrite Hy, Ho, Hk. cbn.
  repeat split.
  destruct c; unfold CombinedOp.Mult, CombinedOp.UpdateGradient,
    CombinedOp.with_kGF_at;
    destruct (repoint_spec (length (CombinedOp.offsets_ (op_ x)) - 1)
                (CombinedOp.GetData0 (kGF_ x)) (CombinedOp.offsets_ (op_ x))
                (CombinedOp.repoint (length (kGF_ x)) k
                   (CombinedOp.offsets_ (op_ x)) (kGF_ x))) as (-> & _);
    destruct (repoint_spec (length (kGF_ x)) k (CombinedOp.offsets_ (op_ x))
                (kGF_ x)) as (-> & _); reflexivity.
Qed.

(** While the Newton solver runs, [kGF_] stays at the blocks of [k]:
    every evaluation re-points it and restores the block layout. *)
Lemma newton_solver_Mult_keeps_blocks calls k x :
  nth 0 (offsets_ x) 0 = 0 ->
  length (kGF_ x) = (length (offsets_ x) - 1)%nat ->
  (0 < length (kGF_ x))%nat ->
  block_layout k (offsets_ x) (kGF_ x) ->
  kGF_ (newton_solver_Mult calls x) = kGF_ x.
Proof.
  unfold newton_solver_Mult. revert x.
  induction calls as [|c calls IH]; intros x H0 Hl Hpos Hb; [reflexivity|].
  cbn [fold_left].
  assert (Hstep : forall k', CombinedOp.with_kGF_at k' (op_ x) (kGF_ x)
                             = kGF_ x).
  { intros k'. unfold CombinedOp.with_kGF_at. fold (offsets_ x).
    assert (Hprev : CombinedOp.GetData0 (kGF_ x) = k).
    { unfold CombinedOp.GetData0.
      destruct (kGF_ x) as [|g t] eqn:E; [cbn in Hpos; lia|].
      cbn. rewrite (Hb O g eq_refl), H0. lia. }
    rewrite Hprev. apply nth_error_ext. intros i.
    destruct (repoint_spec (length (offsets_ x) - 1) k (offsets_ x)
                (CombinedOp.repoint (length (kGF_ x)) k' (offsets_ x)
                   (kGF_ x))) as (Hlen & Hin & Hout).
    destruct (repoint_spec (length (kGF_ x)) k' (offsets_ x) (kGF_ x))
      as (Hlen' & Hin' & Hout').
    destruct (Nat.lt_ge_cases i (length (offsets_ x) - 1)) as [Hi|Hi].
    - rewrite (Hin i Hi), (Hin' i ltac:(lia)).
      destruct (nth_error (kGF_ x) i) as [g|] eqn:E; [|reflexivity].
      cbn. unfold MakeRef. rewrite <- (Hb i g E). now destruct g.
    - rewrite (Hout i Hi). apply Hout'. lia. }
  match goal with |- context [fold_left ?f calls ?x1] =>
    assert (E1 : x1 = x) end.
  { destruct x as [h w yg kg o]. cbn in *.
    f_equal. destruct c; apply Hstep. }
  rewrite E1. apply IH; assumption.
Qed.

End ImplicitSolveClaims.

(** ** [Update] *)

Section UpdateFacts.

Import Lib.
Local Open Scope Z_scope.

(** Membership in a list built by appending one piece per iteration. *)
Lemma in_for_loop_app {A : Type} (F : nat -> list A) n (a : A) :
  In a (for_loop n (fun i l => l ++ F i) [])
  <-> exists i, (i < n)%nat /\ In a (F i).
Proof.
  induction n as [|n IH]; cbn [for_loop].
  - split; [intros []|intros (i & Hi & _); lia].
  - rewrite in_app_iff, IH. split.
    + intros [(i & Hi & H)|H]; [exists i|exists n]; split; auto; lia.
    + intros (i & Hi & H). destruct (Nat.eq_dec i n) as [->|Hne]; auto.
      left. exists i. split; auto. lia.
Qed.

Lemma Zsum_S n f : CombinedOp.Zsum (S n) f = CombinedOp.Zsum n f + f n.
Proof. reflexivity. Qed.

Lemma Zsum_ext n f g :
  (forall i, (i < n)%nat -> f i = g i) ->
  CombinedOp.Zsum n f = CombinedOp.Zsum n g.
Proof.
  induction n as [|n IH]; intros H; [reflexivity|].
  rewrite !Zsum_S, IH, (H n); auto.
Qed.

Lemma Zsum_shift n f :
  CombinedOp.Zsum (S n) f = f O + CombinedOp.Zsum n (fun i => f (S i)).
Proof.
  induction n as [|n IH]; [unfold CombinedOp.Zsum; cbn; lia|].
  rewrite Zsum_S, IH, Zsum_S. lia.
Qed.

Lemma Zsum_const n f c :
  (forall i, (i < n)%nat -> f i = c) ->
  CombinedOp.Zsum n f = Z.of_nat n * c.
Proof.
  induction n as [|n IH]; intros H; [reflexivity|].
  rewrite Zsum_S, IH, (H n) by auto. lia.
Qed.

(** After [PartialSum], entry [n] holds the sum of the entries up to [n]. *)
Lemma nth_PartialSum_from l : forall s n,
  (n < length l)%nat ->
  nth n (CombinedOp.PartialSum_from s l) 0
  = s + CombinedOp.Zsum (S n) (fun i => nth i l 0).
Proof.
  induction l as [|h t IH]; intros s n Hn; [cbn in Hn; lia|].
  destruct n as [|m].
  - unfold CombinedOp.Zsum. cbn. lia.
  - cbn [CombinedOp.PartialSum_from nth].
    rewrite IH by (cbn in Hn; lia).
    rewrite (Zsum_shift (S m)). cbn [nth]. lia.
Qed.

Lemma length_PartialSum_from l : forall s,
  length (CombinedOp.PartialSum_from s l) = length l.
Proof. induction l as [|h t IH]; intros s; cbn; auto. Qed.

End UpdateFacts.

Section CombinedOpUpdate.

Import Lib CombinedOp.
Local Open Scope Z_scope.

(** The constructor builds five operators. *)
Lemma new_shape fes ny nk offsets op_flag vis c :
  new fes ny nk offsets op_flag vis = Ok c ->
  neq_ c = 5%nat /\ length (op_ c) = 5%nat.
Proof.
  unfold new. intros H.
  repeat match type of H with
         | context [bind ?r _] =>
             destruct r; cbn [bind] in H; try discriminate H
         end.
  injection H as <-. split; reflexivity.
Qed.

(** [SetTimeStep] and [Update] keep the number of operators. *)
Lemma SetTimeStep_shape dt x :
  neq_ (SetTimeStep dt x) = neq_ x
  /\ length (op_ (SetTimeStep dt x)) = length (op_ x)
  /\ offsets_ (SetTimeStep dt x) = offsets_ x.
Proof.
  cbn. repeat split.
  destruct (for_loop_array_update (fun i => i) (fun _ => Op_SetTimeStep dt)
              (neq_ x) (op_ x) ltac:(auto)) as (Hl & _).
  exact Hl.
Qed.

(** [updateOffsets]: [height] and [width] become [offsets_[neq_]], the sum
    of the heights of the [neq_] operators. *)
Lemma updateOffsets_height x :
  (neq_ x < length (offsets_ x))%nat ->
  let x' := updateOffsets x in
  op_ x' = op_ x /\ neq_ x' = neq_ x
  /\ height x' = nth (neq_ x) (offsets_ x') 0
  /\ width x' = nth (neq_ x) (offsets_ x') 0
  /\ nth (neq_ x) (offsets_ x') 0 = Zsum (neq_ x) (Height_at (op_ x)).
Proof.
  intros Hlen. cbv zeta. unfold updateOffsets. cbn.
  repeat (split; [reflexivity|]).
  set (o1 := array_update (offsets_ x) 0 (fun _ => 0)).
  destruct (for_loop_array_update (fun i => (i + 1)%nat)
              (fun i (_ : Z) => Height_at (op_ x) i) (neq_ x) o1
              ltac:(intros i j H; cbv beta in H; lia)) as (Hl & Hin & Hout).
  set (o2 := for_loop _ _ o1) in *.
  assert (Hl1 : length o1 = length (offsets_ x))
    by apply length_array_update.
  unfold PartialSum. rewrite nth_PartialSum_from by lia.
  rewrite Zsum_shift.
  assert (H0 : nth 0 o2 0 = 0).
  { apply nth_of_nth_error. rewrite Hout by (intros; lia).
    unfold o1. rewrite nth_error_array_update_eq.
    destruct (nth_error (offsets_ x) 0) eqn:E; [reflexivity|].
    apply nth_error_None in E. lia. }
  rewrite H0. cbn [Z.add]. apply Zsum_ext. intros i Hi.
  apply nth_of_nth_error.
  replace (S i) with (i + 1)%nat by lia. rewrite (Hin i Hi).
  destruct (nth_error o1 (i + 1)) eqn:E; [reflexivity|].
  apply nth_error_None in E. lia.
Qed.

(** [op->Update()] sets the height of the operator to the size of the
    space and updates every form and grid function the operator owns. *)
Lemma Op_Update_spec fes op :
  Height (fst (Op_Update fes op)) = GetVSize fes
  /\ NLOperator.width (base (fst (Op_Update fes op))) = 5 * GetVSize fes
  /\ forall o, In o (owned op) ->
               In (Call o "Update") (snd (Op_Update fes op)).
Proof.
  assert (Hblf : forall b o,
    In o (NLOperator.owned_forms b) ->
    In (Call o "Update") (snd (NLOperator.Update fes b))).
  { intros b o Ho. unfold NLOperator.owned_forms in Ho.
    apply in_for_loop_app in Ho as (i & Hi & Ho).
    cbn [NLOperator.Update snd]. apply in_for_loop_app.
    exists i. split; [exact Hi|].
    destruct (nth i (NLOperator.blf_ b) None); cbn in *; [|contradiction].
    destruct Ho as [<-|[]]. left. reflexivity. }
  assert (Htr :
    snd (Op_Update fes op)
    = snd (NLOperator.Update fes (base op))
      ++ match op with
         | NeutralDensity p =>
             update_if (NeutralDensityOp.DGF_ p) "DGF_"
             ++ update_if (NeutralDensityOp.SGF_ p) "SGF_"
         | IonDensity p =>
             update_if (IonDensityOp.DPerpGF_ p) "DPerpGF_"
             ++ update_if (IonDensityOp.AGF_ p) "AGF_"
             ++ update_if (IonDensityOp.SGF_ p) "SGF_"
         | IonMomentum p =>
             update_if (IonMomentumOp.EtaParaGF_ p) "EtaParaGF_"
             ++ update_if (IonMomentumOp.EtaPerpGF_ p) "EtaPerpGF_"
             ++ update_if (IonMomentumOp.MomParaGF_ p) "MomParaGF_"
             ++ update_if (IonMomentumOp.SGF_ p) "SGF_"
         | IonStaticPressure _ | ElectronStaticPressure _ =>
             [Call (Member "ChiParaGF_") "Update";
              Call (Member "ChiPerpGF_") "Update"]
         | Dummy _ => []
         end).
  { destruct op; cbn [Op_Update base]; try reflexivity.
    unfold DummyOp.Update. cbn. now rewrite app_nil_r. }
  split; [destruct op; reflexivity|].
  split; [destruct op; reflexivity|].
  intros o Ho. unfold owned in Ho. apply in_app_iff in Ho.
  rewrite Htr. apply in_app_iff.
  destruct Ho as [Ho|Ho]; [left; apply Hblf, Ho|]. right.
  destruct op as [p|p|p|p|p|p].
  - unfold NeutralDensityOp.owned_grid_functions, member_if, update_if in *.
    destruct (NeutralDensityOp.DGF_ p), (NeutralDensityOp.SGF_ p);
      cbn in *; intuition (subst; auto).
  - unfold IonDensityOp.owned_grid_functions, member_if, update_if in *.
    destruct (IonDensityOp.DPerpGF_ p), (IonDensityOp.AGF_ p),
      (IonDensityOp.SGF_ p); cbn in *; intuition (subst; auto).
  - unfold IonMomentumOp.owned_grid_functions, member_if, update_if in *.
    destruct (IonMomentumOp.EtaParaGF_ p), (IonMomentumOp.EtaPerpGF_ p),
      (IonMomentumOp.MomParaGF_ p), (IonMomentumOp.SGF_ p);
      cbn in *; intuition (subst; auto).
  - cbn in *. intuition (subst; auto).
  - cbn in *. intuition (subst; auto).
  - contradiction.
Qed.

(** The loop of [CombinedOp::Update]: every operator is updated, and its
    events are in the trace. *)
Lemma Update_loop fes ops n :
  let st := for_loop n (fun i st =>
      let '(ops, tr) := st in
      match nth_error ops i with
      | Some op =>
          let '(op, tri) := Op_Update fes op in
          (array_update ops i (fun _ => op),
           tr ++ map (Within (Elem "op_" i)) tri)
      | None => (ops, tr)
      end) (ops, []) in
  length (fst st) = length ops
  /\ (forall i, (i < n)%nat ->
        nth_error (fst st) i
        = option_map (fun op => fst (Op_Update fes op)) (nth_error ops i))
  /\ (forall i, (n <= i)%nat -> nth_error (fst st) i = nth_error ops i)
  /\ (forall i op e, (i < n)%nat -> nth_error ops i = Some op ->
        In e (snd (Op_Update fes op)) ->
        In (Within (Elem "op_" i) e) (snd st)).
Proof.
  cbv zeta.
  apply (for_loop_invariant (fun n st =>
    length (fst st) = length ops
    /\ (forall i, (i < n)%nat ->
          nth_error (fst st) i
          = option_map (fun op => fst (Op_Update fes op)) (nth_error ops i))
    /\ (forall i, (n <= i)%nat -> nth_error (fst st) i = nth_error ops i)
    /\ (forall i op e, (i < n)%nat -> nth_error ops i = Some op ->
          In e (snd (Op_Update fes op)) ->
          In (Within (Elem "op_" i) e) (snd st)))).
  - cbn. repeat split; auto; intros; lia.
  - intros k [ops' tr] Hk (Hl & Hin & Hout & Htr). cbn [fst snd] in *.
    pose proof (Hout k (Nat.le_refl k)) as Ek.
    destruct (nth_error ops' k) as [op|] eqn:E.
    + destruct (Op_Update fes op) as [op' tri] eqn:EU. cbn [fst snd].
      rewrite length_array_update. split; [exact Hl|]. split; [|split].
      * intros i Hi. destruct (Nat.eq_dec i k) as [->|Hne].
        -- rewrite nth_error_array_update_eq, E, <- Ek. cbn.
           now rewrite EU.
        -- rewrite nth_error_array_update_neq by lia. apply Hin. lia.
      * intros i Hi. rewrite nth_error_array_update_neq by lia.
        apply Hout. lia.
      * intros i op0 e Hi Hop He. apply in_app_iff.
        destruct (Nat.eq_dec i k) as [->|Hne].
        -- right. apply in_map.
           assert (op0 = op) by congruence. subst op0.
           now rewrite EU in He.
        -- left. apply (Htr i op0 e); auto. lia.
    + cbn [fst snd]. split; [exact Hl|]. split; [|split].
      * intros i Hi. destruct (Nat.eq_dec i k) as [->|Hne].
        -- rewrite E, <- Ek. reflexivity.
        -- apply Hin. lia.
      * intros i Hi. apply Hout. lia.
      * intros i op0 e Hi Hop He.
        destruct (Nat.eq_dec i k) as [->|Hne]; [congruence|].
        apply (Htr i op0 e); auto. lia.
Qed.

(** [CombinedOp::Update]. *)
Lemma CombinedOp_Update_spec fes x :
  length (op_ x) = neq_ x ->
  (neq_ x < length (offsets_ x))%nat ->
  let x' := fst (Update fes x) in
  let tr := snd (Update fes x) in
  height x' = width x'
  /\ height x' = nth (neq_ x) (offsets_ x') 0
  /\ height x' = Zsum (neq_ x) (Height_at (op_ x'))
  /\ height x' = Z.of_nat (neq_ x) * GetVSize fes
  /\ (forall i op, nth_error (op_ x) i = Some op ->
        nth_error (op_ x') i = Some (fst (Op_Update fes op))
        /\ forall o, In o (owned op) ->
                     In (Within (Elem "op_" i) (Call o "Update")) tr).
Proof.
  intros Hops Hoff. cbv zeta. unfold Update.
  pose proof (Update_loop fes (op_ x) (neq_ x)) as HL. cbv zeta in HL.
  destruct (for_loop (neq_ x) _ (op_ x, [])) as [ops tr] eqn:EL.
  cbn [fst snd] in *. destruct HL as (Hl & Hin & Hout & Htr).
  match goal with |- context [updateOffsets ?y] =>
    pose proof (updateOffsets_height y) as HU
  end.
  cbv zeta in HU. cbn [neq_ offsets_ op_] in HU.
  destruct (HU Hoff) as (Eop & Eneq & Eh & Ew & Esum). clear HU.
  assert (Hheights : forall i, (i < neq_ x)%nat ->
                               Height_at ops i = GetVSize fes).
  { intros i Hi. unfold Height_at. rewrite (Hin i Hi).
    destruct (nth_error (op_ x) i) as [op|] eqn:E.
    - cbn. apply Op_Update_spec.
    - apply nth_error_None in E. lia. }
  split; [congruence|]. split; [exact Eh|].
  split; [rewrite Eh, Esum, Eop; reflexivity|].
  split; [rewrite Eh, Esum; apply Zsum_const, Hheights|].
  intros i op Hop.
  assert (Hi : (i < neq_ x)%nat).
  { apply nth_error_lt in Hop. lia. }
  split.
  - rewrite Eop, (Hin i Hi), Hop. reflexivity.
  - intros o Ho. apply (Htr i op); auto.
    apply Op_Update_spec, Ho.
Qed.

Lemma Update_shape fes x :
  neq_ (fst (Update fes x)) = neq_ x
  /\ length (op_ (fst (Update fes x))) = length (op_ x).
Proof.
  unfold Update.
  pose proof (Update_loop fes (op_ x) (neq_ x)) as HL. cbv zeta in HL.
  destruct (for_loop (neq_ x) _ (op_ x, [])) as [ops tr].
  cbn [fst snd] in *. destruct HL as (Hl & _).
  unfold updateOffsets. cbn. split; [reflexivity|exact Hl].
Qed.

End CombinedOpUpdate.

(** ** Claims about the Riemann solver *)

Section RiemannSolverClaims.

Import Euler.
Local Open Scope R_scope.

(** C4. For physical states [state1] and [state2] (density, energy and
    pressure positive) and any face normal [nor], of any length,
    [RiemannSolver::Eval] returns [maxE], the larger of the two
    characteristic speeds [|v| + sqrt(gamma p / rho)], and writes the local
    Lax-Friedrichs (Rusanov) flux: component [i] of [flux] is
    [0.5 (F(state1).nor + F(state2).nor)(i)
       - 0.5 maxE (state2(i) - state1(i)) ||nor||],
    with [F(s).nor] the Euler flux of [ComputeFlux] contracted with [nor]. *)
Theorem Eval_local_Lax_Friedrichs (MFEM_DEBUG : bool) (rs : RiemannSolver)
  (state1 state2 nor flux : Vector) :
  let dim := length nor in
  let gamma := specific_heat_ratio_ rs in
  num_equation_ rs = (dim + 2)%nat ->
  length state1 = num_equation_ rs ->
  length state2 = num_equation_ rs ->
  length (flux1_ rs) = num_equation_ rs ->
  length (flux2_ rs) = num_equation_ rs ->
  length flux = num_equation_ rs ->
  Physical state1 dim gamma ->
  Physical state2 dim gamma ->
  exists maxE flux' rs',
    Eval MFEM_DEBUG rs state1 state2 nor flux = Ok (maxE, flux', rs')
    /\ maxE = Rmax (char_speed state1 dim gamma) (char_speed state2 dim gamma)
    /\ forall i, (i < num_equation_ rs)%nat ->
         vget flux' i
         = 0.5 * (contract (EulerFlux state1 dim gamma) nor i
                  + contract (EulerFlux state2 dim gamma) nor i)
           - 0.5 * maxE * (vget state2 i - vget state1 i)
             * norm2 dim (vget nor).
Proof.
  intros dim gamma Hneq _ _ Hl1 Hl2 Hlf Hp1 Hp2.
  destruct (Eval_returns MFEM_DEBUG rs state1 state2 nor flux
              Hneq Hl1 Hl2 Hlf Hp1 Hp2) as (flux' & rs' & Hev).
  cbv zeta in Hev. destruct Hev as (Hev & _ & _ & _ & _ & _ & Hflux).
  fold dim gamma in Hev, Hflux.
  destruct Hp1 as (Hd1 & Hp1'), Hp2 as (Hd2 & Hp2').
  rewrite !ComputeMaxCharSpeed_char_speed in Hev, Hflux by assumption.
  eexists _, flux', rs'. split; [exact Hev|]. split; [reflexivity|].
  intros i Hi. rewrite (Hflux i Hi).
  unfold dim. rewrite !EulerFlux_contract by (try split; auto; lia).
  reflexivity.
Qed.

(** A run of C4: one space dimension, [gamma = 1.4], a normal of length 2. *)
Lemma Eval_local_Lax_Friedrichs_witness :
  exists maxE flux' rs',
    Eval true example_solver example_state1 example_state2 example_nor
      [0; 0; 0] = Ok (maxE, flux', rs')
    /\ maxE = Rmax (char_speed example_state1 1 1.4)
                   (char_speed example_state2 1 1.4)
    /\ forall i, (i < 3)%nat ->
         vget flux' i
         = 0.5 * (contract (EulerFlux example_state1 1 1.4) example_nor i
                  + contract (EulerFlux example_state2 1 1.4) example_nor i)
           - 0.5 * maxE * (vget example_state2 i - vget example_state1 i)
             * norm2 1 (vget example_nor).
Proof.
  apply (Eval_local_Lax_Friedrichs true example_solver
           example_state1 example_state2 example_nor [0; 0; 0]);
    try reflexivity;
    unfold Physical, ComputePressure, accumulate, den_vel, vget;
    simpl; lra.
Defined.

(** C10. The Riemann flux is conservative across a face: with the states
    swapped and the normal negated, [Eval] returns the same wave speed
    [maxE] and the opposite flux, component by component. *)
Theorem Eval_conservative (MFEM_DEBUG : bool) (rs rs' : RiemannSolver)
  (state1 state2 nor flux fluxR : Vector) :
  let dim := length nor in
  let gamma := specific_heat_ratio_ rs in
  num_equation_ rs = (dim + 2)%nat ->
  length state1 = num_equation_ rs ->
  length state2 = num_equation_ rs ->
  length (flux1_ rs) = num_equation_ rs ->
  length (flux2_ rs) = num_equation_ rs ->
  length flux = num_equation_ rs ->
  num_equation_ rs' = num_equation_ rs ->
  specific_heat_ratio_ rs' = gamma ->
  length (flux1_ rs') = num_equation_ rs ->
  length (flux2_ rs') = num_equation_ rs ->
  length fluxR = num_equation_ rs ->
  Physical state1 dim gamma ->
  Physical state2 dim gamma ->
  exists maxE f rs1 f' rs2,
    Eval MFEM_DEBUG rs state1 state2 nor flux = Ok (maxE, f, rs1)
    /\ Eval MFEM_DEBUG rs' state2 state1 (vneg nor) fluxR = Ok (maxE, f', rs2)
    /\ forall i, (i < num_equation_ rs)%nat -> vget f' i = - vget f i.
Proof.
  intros dim gamma Hneq _ _ Hl1 Hl2 Hlf Hneq' Hg' Hl1' Hl2' Hlf' Hp1 Hp2.
  destruct (Eval_returns MFEM_DEBUG rs state1 state2 nor flux
              Hneq Hl1 Hl2 Hlf Hp1 Hp2) as (f & rs1 & Hev).
  cbv zeta in Hev. destruct Hev as (Hev & _ & _ & _ & _ & _ & Hf).
  pose proof (Eval_returns MFEM_DEBUG rs' state2 state1 (vneg nor) fluxR)
    as Hev'.
  cbv zeta in Hev'. rewrite length_vneg, Hg', Hneq' in Hev'.
  destruct (Hev' Hneq Hl1' Hl2' Hlf' Hp2 Hp1)
    as (f' & rs2 & Hev2 & _ & _ & _ & _ & _ & Hf').
  clear Hev'. rename Hev2 into Hev'.
  rewrite Rmax_comm in Hev', Hf'.
  eexists _, f, rs1, f', rs2. split; [exact Hev|]. split; [exact Hev'|].
  intros i Hi. rewrite (Hf i Hi), (Hf' i Hi).
  rewrite <- (normag_vneg nor), !fluxN_entry_vneg. rewrite !length_vneg.
  fold gamma. ring.
Qed.

(** A run of C10 on the states of the run of C4. *)
Lemma Eval_conservative_witness :
  exists maxE f rs1 f' rs2,
    Eval true example_solver example_state1 example_state2 example_nor
      [0; 0; 0] = Ok (maxE, f, rs1)
    /\ Eval true example_solver example_state2 example_state1
         (vneg example_nor) [0; 0; 0] = Ok (maxE, f', rs2)
    /\ forall i, (i < 3)%nat -> vget f' i = - vget f i.
Proof.
  apply (Eval_conservative true example_solver example_solver
           example_state1 example_state2 example_nor [0; 0; 0] [0; 0; 0]);
    try reflexivity;
    unfold Physical, ComputePressure, accumulate, den_vel, vget;
    simpl; lra.
Defined.

End RiemannSolverClaims.

(** ** Claims about the driver [ex1lor.cpp] *)

Section Ex1LorClaims.

Import Ex1Lor.
Local Open Scope string_scope.
Local Open Scope Z_scope.
Local Open Scope list_scope.

Lemma select_pc_valid s :
  valid_pc_type s <-> exists c, select_pc s = Some c.
Proof.
  unfold valid_pc_type, select_pc, streq. split.
  - intros [-> | [-> | [-> | ->]]]; simpl; eauto.
  - intros [c Hc].
    destruct (String.eqb_spec s "gko:bj"); auto.
    destruct (String.eqb_spec s "gko:ilu"); auto.
    destruct (String.eqb_spec s "mfem:gs"); auto.
    destruct (String.eqb_spec s "none"); auto.
    discriminate.
Qed.

Lemma select_pc_invalid s : ~ valid_pc_type s -> select_pc s = None.
Proof.
  intros H. destruct (select_pc s) as [c|] eqn:E; auto.
  exfalso. apply H, select_pc_valid. eauto.
Qed.

(** The outputs of a run that passes the selection hold no [mfem_error]
    and, unless [output_mesh] is set, no file. *)
Lemma main_body_valid_outputs b o c :
  select_pc (pc_type o) = Some c ->
  fst (main_body b true o) = 0
  /\ (forall msg, ~ In (mfem_error msg) (snd (main_body b true o)))
  /\ (b = false ->
      forall name f, ~ In (FileWrite name f) (snd (main_body b true o)))
  /\ (visualization o = true <->
      exists f, In (SocketSend "localhost" 19916 f) (snd (main_body b true o))).
Proof.
  intros Hc. unfold main_body. cbn [negb]. rewrite Hc.
  destruct c as [[| | |] [|]], b, (visualization o); cbn;
    (split; [reflexivity|]);
    (split; [intros msg H; not_in_list H|]);
    (split; [intros Hb name f H; try discriminate Hb; not_in_list H|]);
    (split; [intros Hv; try discriminate Hv; eexists; in_list
            | intros [f H]; try reflexivity; not_in_list H]).
Qed.

(** C1. The preconditioner-type argument is accepted exactly when it is
    one of ["gko:bj"], ["gko:ilu"], ["mfem:gs"] and ["none"], selecting
    Ginkgo Block-Jacobi, Ginkgo ILU, MFEM Gauss-Seidel and no LOR
    preconditioner; for any other string the program calls
    [mfem_error("Invalid Preconditioner specified")] and returns, and no
    other path of the program calls [mfem_error]. *)
Theorem pc_type_accepted_iff_valid (o : Options) :
  (valid_pc_type (pc_type o) <-> exists c, select_pc (pc_type o) = Some c)
  /\ select_pc "gko:bj" = Some (GKO_BLOCK_JACOBI, true)
  /\ select_pc "gko:ilu" = Some (GKO_ILU, true)
  /\ select_pc "mfem:gs" = Some (MFEM_GS, true)
  /\ select_pc "none" = Some (NONE, false)
  /\ (valid_pc_type (pc_type o) -> fst (main true o) = 0)
  /\ (~ valid_pc_type (pc_type o) ->
      main true o
      = (3, [Stdout (PrintOptions o);
             mfem_error "Invalid Preconditioner specified"]))
  /\ (forall good msg,
        In (mfem_error msg) (snd (main good o))
        <-> good = true /\ ~ valid_pc_type (pc_type o)
            /\ msg = "Invalid Preconditioner specified").
Proof.
  split; [apply select_pc_valid|].
  repeat (split; [reflexivity|]).
  split; [|split].
  - intros Hv. apply select_pc_valid in Hv as [c Hc].
    apply (main_body_valid_outputs output_mesh o c Hc).
  - intros Hn. unfold main, main_body. cbn [negb].
    rewrite (select_pc_invalid _ Hn). reflexivity.
  - intros good msg. destruct good.
    + destruct (select_pc (pc_type o)) as [c|] eqn:Hc.
      * split.
        -- intros H. exfalso.
           exact (proj1 (proj2 (main_body_valid_outputs output_mesh o c Hc))
                    msg H).
        -- intros (_ & Hn & _). exfalso. apply Hn, select_pc_valid. eauto.
      * assert (Hn : ~ valid_pc_type (pc_type o)).
        { intros Hv. apply select_pc_valid in Hv as [c Hc']. congruence. }
        unfold main, main_body. cbn [negb]. rewrite Hc. cbn. split.
        -- intros [H | [H | []]]; [discriminate|]. injection H as <-. auto.
        -- intros (_ & _ & ->). auto.
    + unfold main, main_body. cbn. split.
      * intros [H | []]. discriminate.
      * intros (H & _). discriminate.
Qed.

(** A run of C1 with the type ["jacobi"], which is not accepted. *)
Lemma pc_type_accepted_iff_valid_witness :
  ~ valid_pc_type (pc_type options_jacobi)
  /\ main true options_jacobi
     = (3, [Stdout (PrintOptions options_jacobi);
            mfem_error "Invalid Preconditioner specified"]).
Proof.
  assert (Hn : ~ valid_pc_type (pc_type options_jacobi)).
  { intros [H | [H | [H | H]]]; discriminate H. }
  split; [exact Hn|].
  exact (proj1 (proj2 (proj2 (proj2 (proj2 (proj2
          (proj2 (pc_type_accepted_iff_valid options_jacobi))))))) Hn).
Defined.

(** C2, as stated, fails: the default run completes the solve and writes
    neither ["refined.mesh"] nor ["sol.gf"]. *)
Lemma files_written_counterexample :
  ~ (forall (o : Options) (out : list Output),
       main true o = (0, out) ->
       (exists c, In (FileWrite "refined.mesh" c) out)
       /\ (exists c, In (FileWrite "sol.gf" c) out)
       /\ (visualization o = true ->
           exists c, In (SocketSend "localhost" 19916 c) out)).
Proof.
  intros H.
  destruct (H default_options _ eq_refl) as ([c Hc] & _).
  cbn in Hc. intuition discriminate.
Qed.

(** C2, amended.  [main] writes ["refined.mesh"] and ["sol.gf"] only under
    its local flag [output_mesh], which it fixes to [false] and which no
    option changes: a run of [main] writes no file.  A run that completes
    the solve sends the mesh and the solution to the GLVis server at
    localhost:19916 exactly when visualization is enabled.  With the flag
    set, a run that completes the solve would write both files. *)
Theorem files_written_only_under_output_mesh (good : bool) (o : Options) :
  (forall name c, ~ In (FileWrite name c) (snd (main good o)))
  /\ (fst (main good o) = 0 ->
      (visualization o = true
       <-> exists c, In (SocketSend "localhost" 19916 c) (snd (main good o))))
  /\ (fst (main_body true good o) = 0 ->
      exists p x,
        In (FileWrite "refined.mesh" (MeshOf p)) (snd (main_body true good o))
        /\ In (FileWrite "sol.gf" (SolutionOf x))
             (snd (main_body true good o))).
Proof.
  destruct good.
  - destruct (select_pc (pc_type o)) as [c|] eqn:Hc.
    + destruct (main_body_valid_outputs output_mesh o c Hc)
        as (_ & _ & Hf & Hs).
      split; [exact (Hf eq_refl)|]. split; [intros _; exact Hs|].
      intros _. unfold main_body. cbn [negb]. rewrite Hc.
      destruct c as [[| | |] [|]], (visualization o); cbn;
        eexists _, _; split; in_list.
    + unfold main, main_body. cbn [negb]. rewrite Hc. cbn.
      split; [intros name c H; intuition discriminate|].
      split; intros H; discriminate H.
  - unfold main, main_body. cbn.
    split; [intros name c H; intuition discriminate|].
    split; intros H; discriminate H.
Qed.

(** A run of the amended C2: the default options, visualization on. *)
Lemma files_written_only_under_output_mesh_witness :
  fst (main true default_options) = 0
  /\ (visualization default_options = true
      <-> exists c, In (SocketSend "localhost" 19916 c)
                      (snd (main true default_options))).
Proof.
  split; [reflexivity|].
  exact (proj1 (proj2 (files_written_only_under_output_mesh
                         true default_options)) eq_refl).
Defined.

(** C9, as stated, fails: without LOR preconditioner, two runs that
    differ only in [pc_max_bs] do not behave identically, since each echoes
    its own option values on [cout]. *)
Lemma tuning_no_effect_counterexample :
  ~ (forall (good : bool) (o1 o2 : Options),
       same_but_tuning o1 o2 ->
       pc_type o1 <> "gko:bj" ->
       main good o1 = main good o2).
Proof.
  intros H.
  assert (E : main true options_none_32 = main true options_none_16).
  { apply H; [repeat split | discriminate]. }
  apply (f_equal snd) in E. cbn in E. discriminate E.
Qed.

(** C9, amended.  When the preconditioner type is not ["gko:bj"], the
    Block-Jacobi parameters [pc_storage_opt], [pc_acc] and [pc_max_bs] have
    no effect on the exit status, the computed solution, the files or the
    GLVis stream: two runs that differ only in them differ at most in the
    echo of the option values that [args.PrintOptions(cout)] prints. *)
Theorem tuning_affects_only_options_echo (good : bool) (o1 o2 : Options) :
  same_but_tuning o1 o2 ->
  pc_type o1 <> "gko:bj" ->
  without_options_echo (main good o1) = without_options_echo (main good o2).
Proof.
  intros (Hm & Ho & Hs & Hp & Hd & Hv & Ht) Hbj.
  destruct o1 as [m1 r1 s1 p1 d1 v1 t1 so1 acc1 bs1],
           o2 as [m2 r2 s2 p2 d2 v2 t2 so2 acc2 bs2].
  cbn in *. subst m2 r2 s2 p2 d2 v2 t2.
  unfold without_options_echo, main, main_body. destruct good; cbn; auto.
  unfold select_pc, streq.
  destruct (String.eqb_spec t1 "gko:bj"); [contradiction|].
  destruct (String.eqb t1 "gko:ilu"), (String.eqb t1 "mfem:gs"),
    (String.eqb t1 "none"), v1; reflexivity.
Qed.

(** A run of C9 as amended, on the two invocations of the
    counterexample. *)
Lemma tuning_affects_only_options_echo_witness :
  without_options_echo (main true options_none_32)
  = without_options_echo (main true options_none_16).
Proof.
  apply (tuning_affects_only_options_echo true
           options_none_32 options_none_16).
  - repeat split.
  - discriminate.
Defined.

End Ex1LorClaims.

Section ImplicitSolveBindings.

Import Lib DGTransportTDO.
Local Open Scope Z_scope.

(** Pointing any [n] grid functions at the offsets of the array at [base]
    yields the grid functions that lie there. *)
Lemma repoint_onto_block_layout n base offsets gf gf' :
  length gf' = n -> length gf = n ->
  block_layout base offsets gf ->
  CombinedOp.repoint n base offsets gf' = gf.
Proof.
  intros Hl' Hl Hb. apply nth_error_ext. intros i.
  destruct (Nat.lt_ge_cases i n) as [Hi|Hi].
  - rewrite repoint_at by lia.
    destruct (nth_error gf i) as [g|] eqn:E.
    + rewrite <- (Hb i g E). now destruct g.
    + apply nth_error_None in E. lia.
  - destruct (repoint_spec n base offsets gf') as (Hlen & _ & _).
    transitivity (@None ParGridFunction);
      [|symmetry]; apply nth_error_None; lia.
Qed.

(** C6, as stated, fails: with [kGF_] holding no data on entry, which
    [ImplicitSolve] provides for by its test [prev_k != NULL], the call
    leaves [kGF_[1]] at address [NULL + offsets_[1] = 10]. *)
Lemma ImplicitSolve_bindings_counterexample :
  ~ (forall (calls : list NewtonCall) (dt : R) (y k : Z) (x : t),
       length (yGF_ x) = (length (offsets_ x) - 1)%nat ->
       length (kGF_ x) = (length (offsets_ x) - 1)%nat ->
       yGF_ (fst (ImplicitSolve calls dt y k x)) = yGF_ x
       /\ kGF_ (fst (ImplicitSolve calls dt y k x)) = kGF_ x).
Proof.
  intros H.
  assert (E : CombinedOp.example = Ok CombinedOp.example_op) by reflexivity.
  destruct (H [CallMult 3000; CallGetGradient 3000] 1%R 2000 3000
              (example_on CombinedOp.example_op) eq_refl eq_refl)
    as (_ & Hk).
  apply (f_equal (fun l => nth_error l 1)) in Hk.
  cbv in Hk. discriminate Hk.
Qed.

(** C6, amended.  [ImplicitSolve(dt, y, k)] points [yGF_] and [kGF_] at the
    blocks of [y] and [k] for the Newton solve, during which they stay
    there, and on return every [yGF_[i]] references [prev_y + offsets_[i]]
    and every [kGF_[i]] references [prev_k + offsets_[i]], where [prev_y]
    and [prev_k] are the arrays of [yGF_[0]] and [kGF_[0]] on entry.  These
    are the arrays referenced on entry, so that the bindings are unchanged
    by the call, when on entry the grid functions lie at the offsets
    [offsets_[i]] of one array. *)
Theorem ImplicitSolve_restores_block_layout (calls : list NewtonCall)
  (dt : R) (y k : Z) (x : t) :
  let n := (length (offsets_ x) - 1)%nat in
  length (yGF_ x) = n ->
  length (kGF_ x) = n ->
  let prev_y := CombinedOp.GetData0 (yGF_ x) in
  let prev_k := CombinedOp.GetData0 (kGF_ x) in
  let x1 := fst (fst (fst (ImplicitSolve_enter dt y k x))) in
  let x2 := newton_solver_Mult calls x1 in
  let x' := fst (ImplicitSolve calls dt y k x) in
  (forall i, (i < n)%nat ->
     nth_error (yGF_ x1) i = Some {| GetData := y + nth i (offsets_ x) 0 |}
     /\ nth_error (kGF_ x1) i = Some {| GetData := k + nth i (offsets_ x) 0 |})
  /\ yGF_ x2 = yGF_ x1
  /\ (nth 0 (offsets_ x) 0 = 0 -> (0 < n)%nat -> kGF_ x2 = kGF_ x1)
  /\ (forall i, (i < n)%nat ->
        nth_error (yGF_ x') i
        = Some {| GetData := prev_y + nth i (offsets_ x) 0 |}
        /\ nth_error (kGF_ x') i
           = Some {| GetData := prev_k + nth i (offsets_ x) 0 |})
  /\ (block_layout prev_y (offsets_ x) (yGF_ x) -> yGF_ x' = yGF_ x)
  /\ (block_layout prev_k (offsets_ x) (kGF_ x) -> kGF_ x' = kGF_ x).
Proof.
  intros n Hy Hk prev_y prev_k x1 x2 x'.
  destruct (newton_solver_Mult_frame calls x1) as (Fy & Fo & Fk).
  fold x2 in Fy, Fo, Fk.
  assert (Ey1 : yGF_ x1 = CombinedOp.repoint n y (offsets_ x) (yGF_ x))
    by reflexivity.
  assert (Ek1 : kGF_ x1 = CombinedOp.repoint n k (offsets_ x) (kGF_ x))
    by reflexivity.
  assert (Eo1 : offsets_ x1 = offsets_ x) by reflexivity.
  assert (Ly1 : length (yGF_ x1) = n).
  { rewrite Ey1. destruct (repoint_spec n y (offsets_ x) (yGF_ x)) as (-> & _).
    exact Hy. }
  assert (Lk1 : length (kGF_ x1) = n).
  { rewrite Ek1. destruct (repoint_spec n k (offsets_ x) (kGF_ x)) as (-> & _).
    exact Hk. }
  assert (Eo2 : offsets_ x2 = offsets_ x).
  { unfold offsets_ in *. rewrite Fo. exact Eo1. }
  assert (Ey' : yGF_ x'
                = CombinedOp.repoint (length (offsets_ x2) - 1) prev_y
                    (offsets_ x2) (yGF_ x2)) by reflexivity.
  assert (Ek' : kGF_ x'
                = CombinedOp.repoint (length (offsets_ x2) - 1) prev_k
                    (offsets_ x2) (kGF_ x2)) by reflexivity.
  rewrite Eo2 in Ey', Ek'. fold n in Ey', Ek'.
  assert (Ly2 : length (yGF_ x2) = n) by (rewrite Fy; exact Ly1).
  assert (Lk2 : length (kGF_ x2) = n) by (rewrite Fk; exact Lk1).
  split; [|split; [exact Fy|split; [|split; [|split]]]].
  - intros i Hi. rewrite Ey1, Ek1. split; apply repoint_at; lia.
  - intros H0 Hpos. unfold x2.
    apply (newton_solver_Mult_keeps_blocks calls k x1);
      rewrite ?Eo1; try assumption; try lia.
    rewrite Ek1. apply repoint_is_block_layout, Hk.
  - intros i Hi. rewrite Ey', Ek'. split; apply repoint_at; lia.
  - intros Hb. rewrite Ey'.
    apply repoint_onto_block_layout; assumption.
  - intros Hb. rewrite Ek'.
    apply repoint_onto_block_layout; assumption.
Qed.

(** A run of C6 as amended: [yGF_] of [example_on] views one array, and
    the call leaves it as it is. *)
Lemma ImplicitSolve_restores_block_layout_witness :
  CombinedOp.example = Ok CombinedOp.example_op
  /\ yGF_ (fst (ImplicitSolve [CallMult 3000; CallGetGradient 3000]
                  1%R 2000 3000 (example_on CombinedOp.example_op)))
     = yGF_ (example_on CombinedOp.example_op).
Proof.
  split; [reflexivity|].
  destruct (ImplicitSolve_restores_block_layout
              [CallMult 3000; CallGetGradient 3000] 1%R 2000 3000
              (example_on CombinedOp.example_op) eq_refl eq_refl)
    as (_ & _ & _ & _ & H & _).
  apply H. intros i g Hg.
  do 5 (destruct i as [|i]; [injection Hg as <-; reflexivity|]).
  destruct i; discriminate Hg.
Defined.

End ImplicitSolveBindings.

Section TimeStepChange.

Import Lib.
Local Open Scope R_scope.

(** C5. The [dt]-dependent objects are rebuilt exactly on a change of the
    time-step size.  In [DGAdvectionDiffusionTDO::ImplicitSolve] the stored
    [dt_] and the factors of [dtdCoef_], [dtDCoef_] and [dtNegVCoef_] are
    set to [dt] when [|dt - dt_| > 1e-4 * dt_] and stay as they are
    otherwise.  In [DiffusionTDO::initSolver] the stored [dt_], the
    coefficient [dtNuCoef_], the matrix [M_], its AMG preconditioner and
    the linear solver are rebuilt when [|dt - dt_| > 1e-4 * dt]; otherwise
    the operator is left as it is and nothing is rebuilt. *)
Theorem dt_objects_rebuilt_on_time_step_change (dt : R)
  (x : DGAdvectionDiffusionTDO.t) (y : DiffusionTDO.t) :
  DGAdvectionDiffusionTDO.a_ x <> None ->
  DiffusionTDO.fresh y = true \/ DiffusionTDO.built y = true ->
  (exists x' tr,
     DGAdvectionDiffusionTDO.ImplicitSolve dt x = Ok (x', tr)
     /\ (Rabs (dt - DGAdvectionDiffusionTDO.dt_ x)
         > 1e-4 * DGAdvectionDiffusionTDO.dt_ x ->
         DGAdvectionDiffusionTDO.dt_state x'
         = (dt,
            option_map (SetAConst dt) (DGAdvectionDiffusionTDO.dtdCoef_ x),
            option_map (SetAConst dt) (DGAdvectionDiffusionTDO.dtDCoef_ x),
            option_map (SetAConst dt) (DGAdvectionDiffusionTDO.dtNegVCoef_ x)))
     /\ (~ Rabs (dt - DGAdvectionDiffusionTDO.dt_ x)
           > 1e-4 * DGAdvectionDiffusionTDO.dt_ x ->
         DGAdvectionDiffusionTDO.dt_state x'
         = DGAdvectionDiffusionTDO.dt_state x))
  /\ (Rabs (dt - DiffusionTDO.dt_ y) > 1e-4 * dt ->
      exists y' tr,
        DiffusionTDO.initSolver dt y = Ok (y', tr)
        /\ DiffusionTDO.dt_ y' = dt
        /\ AConst (DiffusionTDO.dtNuCoef_ y') = dt
        /\ DiffusionTDO.built_with dt y'
        /\ DiffusionTDO.rebuilt tr)
  /\ (~ Rabs (dt - DiffusionTDO.dt_ y) > 1e-4 * dt ->
      DiffusionTDO.built y = true ->
      DiffusionTDO.initSolver dt y = Ok (y, []))
  /\ (forall y' tr,
        DiffusionTDO.initSolver dt y = Ok (y', tr) ->
        DiffusionTDO.built y' = true
        /\ (Rabs (dt - DiffusionTDO.dt_ y) > 1e-4 * dt
            <-> DiffusionTDO.rebuilt tr)
        /\ (~ Rabs (dt - DiffusionTDO.dt_ y) > 1e-4 * dt -> y' = y)).
Proof.
  intros Ha Hinv.
  destruct (ImplicitSolve_dt_state dt x) as (Hret & Hst).
  destruct (Hret Ha) as (x' & tr & Hx).
  destruct (initSolver_rebuilds dt y Hinv) as (Hyret & Hy).
  split; [|split; [|split]].
  - exists x', tr. split; [exact Hx|]. apply (Hst x' tr Hx).
  - intros Hc. destruct (Hyret (or_introl Hc)) as (y' & tr' & Hy').
    exists y', tr'. split; [exact Hy'|].
    destruct (Hy y' tr' Hy') as (_ & H & _). exact (H Hc).
  - intros Hn Hb. destruct (Hyret (or_intror Hb)) as (y' & tr' & Hy').
    destruct (Hy y' tr' Hy') as (_ & _ & H).
    destruct (H Hn) as (-> & ->). exact Hy'.
  - intros y' tr' Hy'. destruct (Hy y' tr' Hy') as (Hb & Hc & Hn).
    split; [exact Hb|]. split; [split|].
    + intros H. apply Hc, H.
    + intros Hr. destruct (Rgt_dec (Rabs (dt - DiffusionTDO.dt_ y))
                             (1e-4 * dt)) as [H|H]; [exact H|].
      destruct (Hn H) as (_ & ->). destruct Hr as ([] & _).
    + intros H. apply Hn, H.
Qed.

(** A run of C5: the time step [0.5] on an implicit advection-diffusion
    operator (stored time step [-1]) and on a new diffusion operator
    (stored time step [0]). *)
Lemma dt_objects_rebuilt_on_time_step_change_witness :
  exists x' tr y' tr',
    DGAdvectionDiffusionTDO.ImplicitSolve 0.5
      DGAdvectionDiffusionTDO.example_implicit = Ok (x', tr)
    /\ DGAdvectionDiffusionTDO.dt_ x' = 0.5
    /\ DiffusionTDO.initSolver 0.5 (DiffusionTDO.new (-1)) = Ok (y', tr')
    /\ DiffusionTDO.dt_ y' = 0.5
    /\ DiffusionTDO.rebuilt tr'.
Proof.
  destruct (dt_objects_rebuilt_on_time_step_change 0.5
              DGAdvectionDiffusionTDO.example_implicit
              (DiffusionTDO.new (-1)))
    as ((x' & tr & Hx & Hc & _) & Hy & _).
  - discriminate.
  - left. reflexivity.
  - destruct Hy as (y' & tr' & Hy & Hd & _ & _ & Hr).
    + cbn. unfold Rabs. destruct (Rcase_abs _); lra.
    + exists x', tr, y', tr'. split; [exact Hx|]. split.
      * assert (E : DGAdvectionDiffusionTDO.dt_state x'
                    = (0.5, Some {| AConst := 0.5 |}, None, None)).
        { apply Hc. cbn. unfold Rabs. destruct (Rcase_abs _); lra. }
        unfold DGAdvectionDiffusionTDO.dt_state in E. congruence.
      * split; [exact Hy|]. split; [exact Hd|exact Hr].
Defined.

End TimeStepChange.

Section UpdateClaims.

Import Lib.
Local Open Scope Z_scope.

Lemma DGAdvectionDiffusionTDO_Update_spec fes x :
  DGAdvectionDiffusionTDO.a_ x <> None ->
  exists x' tr,
    DGAdvectionDiffusionTDO.Update fes x = Ok (x', tr)
    /\ DGAdvectionDiffusionTDO.height x' = GetVSize fes
    /\ DGAdvectionDiffusionTDO.width x' = GetVSize fes
    /\ DGAdvectionDiffusionTDO.RHS_ x' = GetTrueVSize fes
    /\ DGAdvectionDiffusionTDO.X_ x' = GetTrueVSize fes
    /\ forall f, In f (DGAdvectionDiffusionTDO.owned_forms x) ->
                 In (Call f "Update") tr.
Proof.
  intros Ha. unfold DGAdvectionDiffusionTDO.Update,
    DGAdvectionDiffusionTDO.owned_forms. cbn.
  destruct (DGAdvectionDiffusionTDO.a_ x) as [a|]; [|contradiction]. cbn.
  eexists _, _. split; [reflexivity|]. repeat (split; [reflexivity|]).
  intros f Hf.
  destruct (DGAdvectionDiffusionTDO.b_ x), (DGAdvectionDiffusionTDO.s_ x),
    (DGAdvectionDiffusionTDO.k_ x), (DGAdvectionDiffusionTDO.q_exp_ x),
    (DGAdvectionDiffusionTDO.q_imp_ x); cbn in Hf;
    repeat (destruct Hf as [<-|Hf]; [in_list|]); contradiction.
Qed.

Lemma DGTransportTDO_Update_spec fes ffes d :
  let d' := fst (DGTransportTDO.Update fes ffes d) in
  let tr := snd (DGTransportTDO.Update fes ffes d) in
  DGTransportTDO.height d' = GetVSize ffes
  /\ DGTransportTDO.width d' = GetVSize ffes
  /\ DGTransportTDO.op_ d' = fst (CombinedOp.Update fes (DGTransportTDO.op_ d))
  /\ (forall o, In o DGTransportTDO.owned_grid_functions ->
                In (Call o "Update") tr)
  /\ (forall e, In e (snd (CombinedOp.Update fes (DGTransportTDO.op_ d))) ->
                In (Within (Member "op_") e) tr).
Proof.
  cbv zeta. unfold DGTransportTDO.Update.
  destruct (CombinedOp.Update fes (DGTransportTDO.op_ d)) as [c' trc].
  cbn [fst snd DGTransportTDO.height DGTransportTDO.width DGTransportTDO.op_].
  repeat (split; [reflexivity|]). split.
  - intros o [<-|[<-|[]]]; in_list.
  - intros e He. rewrite !in_app_iff. right. left. apply in_map, He.
Qed.

(** C8. After every call to [Update], height and width of the operator
    are equal and match the current size of its finite-element space:
    [DGAdvectionDiffusionTDO::Update] sets [height = width =
    fes_->GetVSize()] and resizes [RHS_] and [X_] to [GetTrueVSize()];
    [DGTransportTDO::Update] sets [height = width = ffes_.GetVSize()]; and
    [CombinedOp::Update] calls [Update] on each of its operators and then
    sets [height = width = offsets_[neq_]], the sum of the heights of the
    operators; in each case every owned form and grid function has had its
    [Update] called. *)
Theorem Update_resizes_operators (fes ffes : ParFiniteElementSpace)
  (a : DGAdvectionDiffusionTDO.t) (d : DGTransportTDO.t)
  (c : CombinedOp.t) :
  DGAdvectionDiffusionTDO.a_ a <> None ->
  length (CombinedOp.op_ c) = CombinedOp.neq_ c ->
  (CombinedOp.neq_ c < length (CombinedOp.offsets_ c))%nat ->
  (exists a' tr,
     DGAdvectionDiffusionTDO.Update fes a = Ok (a', tr)
     /\ DGAdvectionDiffusionTDO.height a' = GetVSize fes
     /\ DGAdvectionDiffusionTDO.width a' = GetVSize fes
     /\ DGAdvectionDiffusionTDO.RHS_ a' = GetTrueVSize fes
     /\ DGAdvectionDiffusionTDO.X_ a' = GetTrueVSize fes
     /\ forall f, In f (DGAdvectionDiffusionTDO.owned_forms a) ->
                  In (Call f "Update") tr)
  /\ (let d' := fst (DGTransportTDO.Update fes ffes d) in
      let tr := snd (DGTransportTDO.Update fes ffes d) in
      DGTransportTDO.height d' = GetVSize ffes
      /\ DGTransportTDO.width d' = GetVSize ffes
      /\ DGTransportTDO.op_ d'
         = fst (CombinedOp.Update fes (DGTransportTDO.op_ d))
      /\ (forall o, In o DGTransportTDO.owned_grid_functions ->
                    In (Call o "Update") tr)
      /\ (forall e,
            In e (snd (CombinedOp.Update fes (DGTransportTDO.op_ d))) ->
            In (Within (Member "op_") e) tr))
  /\ (let c' := fst (CombinedOp.Update fes c) in
      let tr := snd (CombinedOp.Update fes c) in
      CombinedOp.height c' = CombinedOp.width c'
      /\ CombinedOp.height c'
         = nth (CombinedOp.neq_ c) (CombinedOp.offsets_ c') 0
      /\ CombinedOp.height c'
         = CombinedOp.Zsum (CombinedOp.neq_ c)
             (CombinedOp.Height_at (CombinedOp.op_ c'))
      /\ CombinedOp.height c' = Z.of_nat (CombinedOp.neq_ c) * GetVSize fes
      /\ (forall i op, nth_error (CombinedOp.op_ c) i = Some op ->
            nth_error (CombinedOp.op_ c') i
            = Some (fst (CombinedOp.Op_Update fes op))
            /\ forall o, In o (CombinedOp.owned op) ->
                 In (Within (Elem "op_" i) (Call o "Update")) tr)).
Proof.
  intros Ha Hops Hoff. split; [|split].
  - apply DGAdvectionDiffusionTDO_Update_spec, Ha.
  - apply DGTransportTDO_Update_spec.
  - apply CombinedOp_Update_spec; assumption.
Qed.

(** A run of C8 after a refinement to 40 degrees of freedom per field. *)
Lemma Update_resizes_operators_witness :
  exists a' tr,
    CombinedOp.example = Ok CombinedOp.example_op
    /\ DGAdvectionDiffusionTDO.Update
         {| GetVSize := 40; GetTrueVSize := 40 |}
         DGAdvectionDiffusionTDO.example_imex = Ok (a', tr)
    /\ DGAdvectionDiffusionTDO.height a' = 40
    /\ CombinedOp.height
         (fst (CombinedOp.Update {| GetVSize := 40; GetTrueVSize := 40 |}
                 CombinedOp.example_op))
       = 200
    /\ DGTransportTDO.height
         (fst (DGTransportTDO.Update
                 {| GetVSize := 40; GetTrueVSize := 40 |}
                 {| GetVSize := 200; GetTrueVSize := 200 |}
                 (DGTransportTDO.example_on CombinedOp.example_op)))
       = 200.
Proof.
  destruct (Update_resizes_operators
              {| GetVSize := 40; GetTrueVSize := 40 |}
              {| GetVSize := 200; GetTrueVSize := 200 |}
              DGAdvectionDiffusionTDO.example_imex
              (DGTransportTDO.example_on CombinedOp.example_op)
              CombinedOp.example_op)
    as ((a' & tr & Hu & Hh & _) & (Hd & _) & (_ & _ & _ & Hc & _)).
  - discriminate.
  - reflexivity.
  - cbn. lia.
  - exists a', tr. split; [reflexivity|]. split; [exact Hu|].
    split; [exact Hh|]. split; [exact Hc|exact Hd].
Defined.

End UpdateClaims.

(** ** Further properties of the Euler flux and the Riemann solver *)

Section EulerScaling.

Import Euler.
Local Open Scope R_scope.

Lemma length_vscale c v : length (vscale c v) = length v.
Proof. apply length_map. Qed.

Lemma vget_vscale c v d : vget (vscale c v) d = c * vget v d.
Proof.
  unfold vget, vscale. rewrite <- (map_nth (Rmult c)). f_equal. lra.
Qed.

Lemma den_vel_vscale c v d : den_vel (vscale c v) d = c * den_vel v d.
Proof. unfold den_vel. apply vget_vscale. Qed.

(** [ComputeFluxDotN] is linear in the scale of [nor]. *)
Lemma fluxN_entry_vscale state nor gamma c i :
  fluxN_entry state (vscale c nor) gamma i = c * fluxN_entry state nor gamma i.
Proof.
  unfold fluxN_entry. rewrite length_vscale.
  rewrite (accumulate_ext _ (fun d => den_vel state d * vget (vscale c nor) d)
             (fun d => c * (den_vel state d * vget nor d)))
    by (intros; rewrite vget_vscale; ring).
  rewrite accumulate_scal, vget_vscale.
  destruct (Nat.eqb i 0); [reflexivity|].
  destruct (Nat.leb i (length nor)); unfold Rdiv; ring.
Qed.

(** The length of [c * nor] is [c] times the length of [nor], [c >= 0]. *)
Lemma normag_vscale c nor :
  0 <= c ->
  sqrt (accumulate (length (vscale c nor))
          (fun i => vget (vscale c nor) i * vget (vscale c nor) i))
  = c * sqrt (accumulate (length nor) (fun i => vget nor i * vget nor i)).
Proof.
  intros Hc. rewrite length_vscale.
  rewrite (accumulate_ext _ _
             (fun i => (c * c) * (vget nor i * vget nor i)))
    by (intros; rewrite vget_vscale; ring).
  rewrite accumulate_scal, sqrt_mult_alt by nra.
  rewrite sqrt_square by exact Hc. reflexivity.
Qed.

(** The pressure of the scaled state [c * state], [c <> 0]. *)
Lemma ComputePressure_vscale c state dim gamma :
  c <> 0 -> vget state 0 <> 0 ->
  ComputePressure (vscale c state) dim gamma
  = c * ComputePressure state dim gamma.
Proof.
  intros Hc Hden. unfold ComputePressure.
  rewrite !vget_vscale.
  rewrite (accumulate_ext _ _
             (fun d => (c * c) * (den_vel state d * den_vel state d)))
    by (intros; rewrite den_vel_vscale; ring).
  rewrite accumulate_scal. field. split; assumption.
Qed.

Lemma Physical_vscale c state dim gamma :
  0 < c -> Physical state dim gamma -> Physical (vscale c state) dim gamma.
Proof.
  intros Hc (Hd & He & Hp). unfold Physical.
  rewrite ComputePressure_vscale by lra. rewrite !vget_vscale.
  repeat split; apply Rmult_lt_0_compat; assumption.
Qed.

(** On a physical state [ComputeFlux] writes the Euler flux, whatever the
    matrix held before. *)
Lemma ComputeFlux_EulerFlux dbg state dim gamma F0 :
  Physical state dim gamma ->
  exists F, ComputeFlux dbg state dim gamma F0 = Ok F
    /\ forall k d, (k < dim + 2)%nat -> (d < dim)%nat ->
         F k d = EulerFlux state dim gamma k d.
Proof.
  intros Hp.
  destruct (ComputeFlux_entries dbg state dim gamma F0 Hp) as (F & HF & HE).
  exists F. split; [exact HF|]. intros k d Hk Hd. unfold EulerFlux.
  destruct (ComputeFlux_entries false state dim gamma (fun _ _ => 0) Hp)
    as (G & -> & HG).
  destruct (HE d Hd) as (E0 & Ei & Ee), (HG d Hd) as (G0 & Gi & Ge).
  destruct (Nat.eq_dec k 0) as [->|Hk0]; [congruence|].
  destruct (Nat.eq_dec k (1 + dim)) as [->|Hk1]; [congruence|].
  replace k with (1 + (k - 1))%nat by lia.
  rewrite Ei, Gi by lia. reflexivity.
Qed.

(** The entries of the Euler flux of a physical state. *)
Lemma EulerFlux_entries state dim gamma d :
  Physical state dim gamma -> (d < dim)%nat ->
  EulerFlux state dim gamma 0%nat d = den_vel state d
  /\ (forall i, (i < dim)%nat ->
        EulerFlux state dim gamma (1 + i)%nat d
        = den_vel state i * den_vel state d / vget state 0
          + (if Nat.eqb i d then ComputePressure state dim gamma else 0))
  /\ EulerFlux state dim gamma (1 + dim)%nat d
     = den_vel state d
       * ((vget state (1 + dim) + ComputePressure state dim gamma)
          / vget state 0).
Proof.
  intros Hp Hd. unfold EulerFlux.
  destruct (ComputeFlux_entries false state dim gamma (fun _ _ => 0) Hp)
    as (G & -> & HG).
  exact (HG d Hd).
Qed.

(** The speeds are non-negative: a sum of two square roots. *)
Lemma ComputeMaxCharSpeed_nonneg state dim gamma :
  0 <= ComputeMaxCharSpeed state dim gamma.
Proof.
  unfold ComputeMaxCharSpeed.
  apply Rplus_le_le_0_compat; apply sqrt_pos.
Qed.

End EulerScaling.

Section RiemannSolverProperties.

Import Euler.
Local Open Scope R_scope.

(** X1. Consistency of the numerical flux: when both sides of the face
    carry the same physical state, [RiemannSolver::Eval] writes the Euler
    flux of that state contracted with [nor], without any dissipation, and
    returns the characteristic speed of the state. *)
Theorem Eval_consistent (MFEM_DEBUG : bool) (rs : RiemannSolver)
  (state nor flux : Vector) :
  let dim := length nor in
  let gamma := specific_heat_ratio_ rs in
  num_equation_ rs = (dim + 2)%nat ->
  length (flux1_ rs) = num_equation_ rs ->
  length (flux2_ rs) = num_equation_ rs ->
  length flux = num_equation_ rs ->
  Physical state dim gamma ->
  exists flux' rs',
    Eval MFEM_DEBUG rs state state nor flux
    = Ok (char_speed state dim gamma, flux', rs')
    /\ forall i, (i < num_equation_ rs)%nat ->
         vget flux' i = contract (EulerFlux state dim gamma) nor i.
Proof.
  intros dim gamma Hneq Hl1 Hl2 Hlf Hp.
  destruct (Eval_returns MFEM_DEBUG rs state state nor flux
              Hneq Hl1 Hl2 Hlf Hp Hp) as (flux' & rs' & Hev).
  cbv zeta in Hev. destruct Hev as (Hev & _ & _ & _ & _ & _ & Hflux).
  fold dim gamma in Hev, Hflux.
  assert (Hm : Rmax (ComputeMaxCharSpeed state dim gamma)
                    (ComputeMaxCharSpeed state dim gamma)
               = char_speed state dim gamma).
  { rewrite Rmax_left by lra.
    apply ComputeMaxCharSpeed_char_speed, Hp. }
  rewrite Hm in Hev. exists flux', rs'. split; [exact Hev|].
  intros i Hi. rewrite (Hflux i Hi).
  unfold dim, gamma in *. rewrite EulerFlux_contract by (auto; lia).
  replace (vget state i - vget state i) with 0 by ring.
  rewrite Rmult_0_r, Rmult_0_l. lra.
Qed.

(** A run of X1 in one space dimension. *)
Lemma Eval_consistent_witness :
  exists flux' rs',
    Eval true example_solver example_state1 example_state1 example_nor
      [0; 0; 0]
    = Ok (char_speed example_state1 1 1.4, flux', rs')
    /\ forall i, (i < 3)%nat ->
         vget flux' i = contract (EulerFlux example_state1 1 1.4) example_nor i.
Proof.
  apply (Eval_consistent true example_solver example_state1 example_nor
           [0; 0; 0]); try reflexivity.
  unfold Physical, ComputePressure, accumulate, den_vel; cbn.
  repeat split; lra.
Defined.

(** X2. The numerical flux scales with the face: replacing the normal
    [nor] by [c * nor] with [c >= 0] (a face [c] times as large) leaves the
    returned speed as it is and multiplies every component of the flux by
    [c]; in particular a face of measure zero carries no flux. *)
Theorem Eval_scales_with_normal (MFEM_DEBUG : bool) (rs : RiemannSolver)
  (state1 state2 nor flux : Vector) (c : R) :
  let dim := length nor in
  let gamma := specific_heat_ratio_ rs in
  0 <= c ->
  num_equation_ rs = (dim + 2)%nat ->
  length (flux1_ rs) = num_equation_ rs ->
  length (flux2_ rs) = num_equation_ rs ->
  length flux = num_equation_ rs ->
  Physical state1 dim gamma ->
  Physical state2 dim gamma ->
  exists maxE flux1 rs1 fluxc rsc,
    Eval MFEM_DEBUG rs state1 state2 nor flux = Ok (maxE, flux1, rs1)
    /\ Eval MFEM_DEBUG rs state1 state2 (vscale c nor) flux
       = Ok (maxE, fluxc, rsc)
    /\ forall i, (i < num_equation_ rs)%nat ->
         vget fluxc i = c * vget flux1 i.
Proof.
  intros dim gamma Hc Hneq Hl1 Hl2 Hlf Hp1 Hp2.
  destruct (Eval_returns MFEM_DEBUG rs state1 state2 nor flux
              Hneq Hl1 Hl2 Hlf Hp1 Hp2) as (flux1 & rs1 & Hev).
  cbv zeta in Hev. destruct Hev as (Hev & _ & _ & _ & _ & _ & Hflux).
  assert (Hlen : length (vscale c nor) = length nor)
    by apply length_vscale.
  destruct (Eval_returns MFEM_DEBUG rs state1 state2 (vscale c nor) flux)
    as (fluxc & rsc & Hevc); try assumption;
    try (rewrite Hlen; assumption).
  cbv zeta in Hevc. destruct Hevc as (Hevc & _ & _ & _ & _ & _ & Hfluxc).
  rewrite Hlen in Hevc.
  eexists _, flux1, rs1, fluxc, rsc.
  split; [exact Hev|]. split; [exact Hevc|].
  intros i Hi. rewrite (Hfluxc i Hi), (Hflux i Hi).
  rewrite !fluxN_entry_vscale, normag_vscale by exact Hc.
  rewrite Hlen. ring.
Qed.

(** A run of X2: the normal of length 2 scaled by 3. *)
Lemma Eval_scales_with_normal_witness :
  exists maxE flux1 rs1 fluxc rsc,
    Eval true example_solver example_state1 example_state2 example_nor
      [0; 0; 0] = Ok (maxE, flux1, rs1)
    /\ Eval true example_solver example_state1 example_state2
         (vscale 3 example_nor) [0; 0; 0] = Ok (maxE, fluxc, rsc)
    /\ forall i, (i < 3)%nat -> vget fluxc i = 3 * vget flux1 i.
Proof.
  apply (Eval_scales_with_normal true example_solver example_state1
           example_state2 example_nor [0; 0; 0] 3);
    try reflexivity; try lra;
    unfold Physical, ComputePressure, accumulate, den_vel; cbn;
    repeat split; lra.
Defined.


(** X4. For a state of non-zero density, [StateIsPhysical] accepts exactly
    the states whose density, energy and pressure (as [ComputePressure]
    computes it) are positive. *)
Theorem StateIsPhysical_iff_Physical (state : Vector) (dim : nat) (gamma : R) :
  vget state 0 <> 0 ->
  (StateIsPhysical state dim gamma = true <-> Physical state dim gamma).
Proof.
  intros Hden. split; [|apply Physical_StateIsPhysical].
  unfold StateIsPhysical, Physical, ComputePressure.
  destruct (Rlt_dec _ _) as [H|Hd]; [discriminate|].
  destruct (Rle_dec _ _) as [H|He]; [discriminate|].
  destruct (Rle_dec _ _) as [H|Hp]; [discriminate|].
  intros _. repeat split; lra.
Qed.

(** A run of X4: a state of negative density is rejected. *)
Lemma StateIsPhysical_iff_Physical_witness :
  StateIsPhysical [-1; 0; 1] 1 1.4 = true <-> Physical [-1; 0; 1] 1 1.4.
Proof.
  apply StateIsPhysical_iff_Physical. cbn. lra.
Defined.

(** X5. Scale invariance of the Euler system as the code computes it: for
    a physical state and [c > 0], the state [c * state] is physical, its
    pressure and every entry of its flux are [c] times those of [state],
    and its characteristic speed is that of [state]. *)
Theorem Euler_flux_homogeneous (state : Vector) (dim : nat) (gamma c : R) :
  0 < c ->
  Physical state dim gamma ->
  Physical (vscale c state) dim gamma
  /\ ComputePressure (vscale c state) dim gamma
     = c * ComputePressure state dim gamma
  /\ ComputeMaxCharSpeed (vscale c state) dim gamma
     = ComputeMaxCharSpeed state dim gamma
  /\ forall k d, (k < dim + 2)%nat -> (d < dim)%nat ->
       EulerFlux (vscale c state) dim gamma k d
       = c * EulerFlux state dim gamma k d.
Proof.
  intros Hc Hp.
  pose proof (Physical_vscale c state dim gamma Hc Hp) as Hpc.
  destruct Hp as (Hd & He & Hpr).
  assert (HP : ComputePressure (vscale c state) dim gamma
               = c * ComputePressure state dim gamma)
    by (apply ComputePressure_vscale; lra).
  split; [exact Hpc|]. split; [exact HP|]. split.
  - unfold ComputeMaxCharSpeed. rewrite HP, !vget_vscale.
    rewrite (accumulate_ext _ _
               (fun d => (c * c) * (den_vel state d * den_vel state d)))
      by (intros; rewrite den_vel_vscale; ring).
    rewrite accumulate_scal. f_equal; f_equal; field; lra.
  - intros k d Hk Hdd.
    destruct (EulerFlux_entries (vscale c state) dim gamma d Hpc Hdd)
      as (C0 & Ci & Ce).
    destruct (EulerFlux_entries state dim gamma d
                (conj Hd (conj He Hpr)) Hdd) as (S0 & Si & Se).
    destruct (Nat.eq_dec k 0) as [->|Hk0].
    { rewrite C0, S0. apply den_vel_vscale. }
    destruct (Nat.eq_dec k (1 + dim)) as [->|Hk1].
    { rewrite Ce, Se, HP, !vget_vscale, den_vel_vscale. field. lra. }
    replace k with (1 + (k - 1))%nat by lia.
    rewrite Ci, Si by lia. rewrite HP, !vget_vscale, !den_vel_vscale.
    destruct (Nat.eqb (k - 1) d); field; lra.
Qed.

(** A run of X5: the first example state, doubled. *)
Lemma Euler_flux_homogeneous_witness :
  ComputeMaxCharSpeed (vscale 2 example_state1) 1 1.4
  = ComputeMaxCharSpeed example_state1 1 1.4.
Proof.
  refine (proj1 (proj2 (proj2
    (Euler_flux_homogeneous example_state1 1 1.4 2 _ _)))); [lra|].
  unfold Physical, ComputePressure, accumulate, den_vel; cbn.
  repeat split; lra.
Defined.

End RiemannSolverProperties.

(** ** The flux at the solution nodes ([AdvectionTDO]) *)

Section AdvectionFacts.

Import AdvectionTDO.
Local Open Scope R_scope.

Lemma tset_eq (t : DenseTensor) i j k v : tset t i j k v i j k = v.
Proof. unfold tset. now rewrite !Nat.eqb_refl. Qed.

Lemma tset_neq (t : DenseTensor) i j k v i' j' k' :
  (i <> i' \/ j <> j' \/ k <> k') -> tset t i j k v i' j' k' = t i' j' k'.
Proof.
  unfold tset. intros H.
  destruct (Nat.eqb_spec i i'), (Nat.eqb_spec j j'), (Nat.eqb_spec k k');
    simpl; auto.
  destruct H as [H|[H|H]]; congruence.
Qed.

(** [for (k = 0; k < n; k++) { state_(k) = x(i, k); }] loads row [i]. *)
Lemma for_loop_vset_row (f : nat -> R) n (l : Vector) :
  length l = n ->
  for_loop n (fun k s => vset s k (f k)) l = map f (seq 0 n).
Proof.
  intros Hl.
  assert (H : let t := for_loop n (fun k s => vset s k (f k)) l in
              length t = n /\ forall i, (i < n)%nat -> vget t i = f i).
  { apply (for_loop_invariant (fun k t =>
      length t = n /\ forall i, (i < k)%nat -> vget t i = f i)).
    - split; [exact Hl|intros; lia].
    - intros k t Hk (Ht & Hv). rewrite length_vset. split; [exact Ht|].
      intros i Hi. destruct (Nat.eq_dec i k) as [->|Hne].
      + apply vget_vset_eq. lia.
      + rewrite vget_vset_neq by lia. apply Hv. lia. }
  cbv zeta in H. destruct H as (Ht & Hv).
  apply (nth_ext _ _ 0 0).
  - rewrite Ht, length_map, length_seq. reflexivity.
  - intros i Hi. rewrite Ht in Hi. unfold vget in Hv.
    rewrite (Hv i Hi).
    rewrite (nth_indep _ 0 (f 0%nat))
      by (rewrite length_map, length_seq; exact Hi).
    rewrite map_nth, seq_nth by exact Hi. reflexivity.
Qed.

Lemma length_row x n i : length (row x n i) = n.
Proof. unfold row. now rewrite length_map, length_seq. Qed.

(** The two inner loops of [GetFlux] copy [f_] into slice [i] of [flux]
    and touch nothing else. *)
Lemma node_flux_loop i dim n (f : DenseMatrix) (flux : DenseTensor) :
  let flux' :=
    for_loop dim (fun d fl =>
      for_loop n (fun k fl => tset fl i d k (f k d)) fl) flux in
  (forall d k, (d < dim)%nat -> (k < n)%nat -> flux' i d k = f k d)
  /\ (forall i' d k, ~ (i' = i /\ (d < dim)%nat /\ (k < n)%nat) ->
        flux' i' d k = flux i' d k).
Proof.
  cbv zeta.
  apply (for_loop_invariant (fun j t =>
    (forall d k, (d < j)%nat -> (k < n)%nat -> t i d k = f k d)
    /\ (forall i' d k, ~ (i' = i /\ (d < j)%nat /\ (k < n)%nat) ->
          t i' d k = flux i' d k))).
  - split; [intros; lia|reflexivity].
  - intros j t Hj (Hin & Hout).
    assert (Hk :
      let t' := for_loop n (fun k fl => tset fl i j k (f k j)) t in
      (forall k, (k < n)%nat -> t' i j k = f k j)
      /\ (forall i' d k, ~ (i' = i /\ d = j /\ (k < n)%nat) ->
            t' i' d k = t i' d k)).
    { apply (for_loop_invariant (fun m t' =>
        (forall k, (k < m)%nat -> t' i j k = f k j)
        /\ (forall i' d k, ~ (i' = i /\ d = j /\ (k < m)%nat) ->
              t' i' d k = t i' d k))).
      - split; [intros; lia|reflexivity].
      - intros m t' Hm (Hin' & Hout'). split.
        + intros k Hk. destruct (Nat.eq_dec k m) as [->|Hne].
          * apply tset_eq.
          * rewrite tset_neq by lia. apply Hin'. lia.
        + intros i' d k Hn. rewrite tset_neq by lia.
          apply Hout'. lia. }
    cbv zeta in Hk. destruct Hk as (Hin' & Hout'). split.
    + intros d k Hd Hk. destruct (Nat.eq_dec d j) as [->|Hne].
      * apply Hin', Hk.
      * rewrite Hout' by lia. apply Hin; lia.
    + intros i' d k Hn. rewrite Hout' by lia. apply Hout. lia.
Qed.

(** [GetFlux] on physical nodes. *)
Lemma GetFlux_spec dbg dof dim x flux a :
  let n := num_equation_ a in
  let gamma := specific_heat_ratio_ a in
  let speed := fun i => Euler.ComputeMaxCharSpeed (row x n i) dim gamma in
  n = (dim + 2)%nat ->
  length (state_ a) = n ->
  (forall i, (i < dof)%nat -> Euler.Physical (row x n i) dim gamma) ->
  exists flux' a',
    GetFlux dbg dof dim x flux a = Ok (flux', a')
    /\ (forall i d k, (i < dof)%nat -> (d < dim)%nat -> (k < n)%nat ->
          flux' i d k = Euler.EulerFlux (row x n i) dim gamma k d)
    /\ (forall i d k, ~ ((i < dof)%nat /\ (d < dim)%nat /\ (k < n)%nat) ->
          flux' i d k = flux i d k)
    /\ max_char_speed_ a <= max_char_speed_ a'
    /\ (forall i, (i < dof)%nat -> speed i <= max_char_speed_ a')
    /\ (max_char_speed_ a' = max_char_speed_ a
        \/ exists i, (i < dof)%nat /\ max_char_speed_ a' = speed i)
    /\ num_equation_ a' = n /\ specific_heat_ratio_ a' = gamma
    /\ dim_ a' = dim_ a /\ flux_ a' = flux_ a.
Proof.
  intros n gamma speed Hn Hl Hphys. unfold GetFlux.
  match goal with |- exists flux' a', ?r = _ /\ _ =>
    assert (H : exists flux' a',
      r = Ok (flux', a')
      /\ (forall i d k, (i < dof)%nat -> (d < dim)%nat -> (k < n)%nat ->
            flux' i d k = Euler.EulerFlux (row x n i) dim gamma k d)
      /\ (forall i d k, ~ ((i < dof)%nat /\ (d < dim)%nat /\ (k < n)%nat) ->
            flux' i d k = flux i d k)
      /\ max_char_speed_ a <= max_char_speed_ a'
      /\ (forall i, (i < dof)%nat -> speed i <= max_char_speed_ a')
      /\ (max_char_speed_ a' = max_char_speed_ a
          \/ exists i, (i < dof)%nat /\ max_char_speed_ a' = speed i)
      /\ num_equation_ a' = n /\ specific_heat_ratio_ a' = gamma
      /\ dim_ a' = dim_ a /\ flux_ a' = flux_ a
      /\ length (state_ a') = n);
    [|destruct H as (fl & b & H1 & H2 & H3 & H4 & H5 & H6 & H7 & H8 & H9
                     & H10 & _);
      exists fl, b; repeat (split; [assumption|]); assumption]
  end.
  apply (for_loop_invariant (fun j r =>
    exists flux' a',
      r = Ok (flux', a')
      /\ (forall i d k, (i < j)%nat -> (d < dim)%nat -> (k < n)%nat ->
            flux' i d k = Euler.EulerFlux (row x n i) dim gamma k d)
      /\ (forall i d k, ~ ((i < j)%nat /\ (d < dim)%nat /\ (k < n)%nat) ->
            flux' i d k = flux i d k)
      /\ max_char_speed_ a <= max_char_speed_ a'
      /\ (forall i, (i < j)%nat -> speed i <= max_char_speed_ a')
      /\ (max_char_speed_ a' = max_char_speed_ a
          \/ exists i, (i < j)%nat /\ max_char_speed_ a' = speed i)
      /\ num_equation_ a' = n /\ specific_heat_ratio_ a' = gamma
      /\ dim_ a' = dim_ a /\ flux_ a' = flux_ a
      /\ length (state_ a') = n)).
  - exists flux, a. split; [reflexivity|].
    split; [intros; lia|]. split; [reflexivity|].
    split; [lra|]. split; [intros; lia|]. split; [left; reflexivity|].
    repeat split; auto.
  - intros j r Hj IH. destruct IH
      as (fl & b & -> & Hin & Hout & Hle & Hub & Hatt & Hnb & Hgb & Hdb
          & Hfb & Hlb).
    cbn [bind]. cbv beta iota. rewrite Hnb, Hgb.
    rewrite (for_loop_vset_row (x j) n (state_ b) Hlb).
    fold (row x n j).
    destruct (ComputeFlux_EulerFlux dbg (row x n j) dim gamma (f_ b)
                (Hphys j Hj)) as (F & -> & HF).
    cbn [bind].
    destruct (node_flux_loop j dim n F fl) as (Nin & Nout).
    cbv zeta in Nin, Nout.
    eexists _, _. split; [reflexivity|]. cbn.
    fold (speed j).
    split.
    { intros i d k Hi Hd Hk. destruct (Nat.eq_dec i j) as [->|Hne].
      - rewrite Nin by assumption. apply HF; lia.
      - rewrite Nout by lia. apply Hin; lia. }
    split.
    { intros i d k Hnot. rewrite Nout by lia. apply Hout. lia. }
    destruct (Rgt_dec (speed j) (max_char_speed_ b)) as [Hgt|Hngt].
    + split; [lra|]. split.
      { intros i Hi. destruct (Nat.eq_dec i j) as [->|Hne]; [lra|].
        specialize (Hub i ltac:(lia)). lra. }
      split; [right; exists j; split; [lia|reflexivity]|].
      rewrite length_row. repeat split; auto.
    + split; [exact Hle|]. split.
      { intros i Hi. destruct (Nat.eq_dec i j) as [->|Hne]; [lra|].
        apply Hub. lia. }
      split.
      { destruct Hatt as [E|(i & Hi & E)]; [left; exact E|].
        right. exists i. split; [lia|exact E]. }
      rewrite length_row. repeat split; auto.
Qed.

End AdvectionFacts.

Section AdvectionProperties.

Import AdvectionTDO.
Local Open Scope R_scope.

(** X6. [AdvectionTDO::GetFlux] on physical nodal states: slice [i] of
    [flux] receives the Euler flux of the state at node [i], whatever the
    scratch matrix [f_] held before, entries outside the [dof x dim x
    num_equation_] block keep their values, and [max_char_speed_] becomes
    the maximum of its old value and the characteristic speeds of the
    nodes. *)
Theorem GetFlux_nodal_flux (MFEM_DEBUG : bool) (dof dim : nat)
  (x : DenseMatrix) (flux : DenseTensor) (a : t) :
  let n := num_equation_ a in
  let gamma := specific_heat_ratio_ a in
  let speed := fun i => Euler.ComputeMaxCharSpeed (row x n i) dim gamma in
  n = (dim + 2)%nat ->
  length (state_ a) = n ->
  (forall i, (i < dof)%nat -> Euler.Physical (row x n i) dim gamma) ->
  exists flux' a',
    GetFlux MFEM_DEBUG dof dim x flux a = Ok (flux', a')
    /\ (forall i d k, (i < dof)%nat -> (d < dim)%nat -> (k < n)%nat ->
          flux' i d k = Euler.EulerFlux (row x n i) dim gamma k d)
    /\ (forall i d k, ~ ((i < dof)%nat /\ (d < dim)%nat /\ (k < n)%nat) ->
          flux' i d k = flux i d k)
    /\ max_char_speed_ a <= max_char_speed_ a'
    /\ (forall i, (i < dof)%nat -> speed i <= max_char_speed_ a')
    /\ (max_char_speed_ a' = max_char_speed_ a
        \/ exists i, (i < dof)%nat /\ max_char_speed_ a' = speed i).
Proof.
  intros n gamma speed Hn Hl Hphys.
  destruct (GetFlux_spec MFEM_DEBUG dof dim x flux a Hn Hl Hphys)
    as (fl & b & H1 & H2 & H3 & H4 & H5 & H6 & _).
  exists fl, b. repeat (split; [assumption|]). assumption.
Qed.

(** The two nodes of [example_x] are physical. *)
Lemma example_x_physical i :
  (i < 2)%nat -> Euler.Physical (row example_x 3 i) 1 1.4.
Proof.
  intros Hi. destruct i as [|[|i]]; [| |lia];
    unfold Euler.Physical, Euler.ComputePressure, accumulate, Euler.den_vel;
    cbn; repeat split; lra.
Qed.

(** A run of X6 on the two nodes of [example_x]. *)
Lemma GetFlux_nodal_flux_witness :
  exists flux' a',
    GetFlux true 2 1 example_x (flux_ example) example = Ok (flux', a')
    /\ 7 <= max_char_speed_ a'.
Proof.
  destruct (GetFlux_nodal_flux true 2 1 example_x (flux_ example) example
              eq_refl eq_refl example_x_physical)
    as (fl & b & H1 & _ & _ & H4 & _).
  exists fl, b. split; [exact H1|exact H4].
Defined.

(** X7. [AdvectionTDO::Mult] resets the wave speed before it evaluates
    the flux: on return [max_char_speed_] is the largest characteristic
    speed among the nodes of the current state, whatever it held before
    (and zero when there is no node), and [flux_] holds the Euler flux of
    every node. *)
Theorem Mult_max_char_speed (MFEM_DEBUG : bool) (GetNDofs GetNE : nat)
  (xmat : DenseMatrix) (a : t) :
  let n := num_equation_ a in
  let gamma := specific_heat_ratio_ a in
  let speed :=
    fun i => Euler.ComputeMaxCharSpeed (row xmat n i) (dim_ a) gamma in
  n = (dim_ a + 2)%nat ->
  length (state_ a) = n ->
  (forall i, (i < GetNDofs)%nat ->
     Euler.Physical (row xmat n i) (dim_ a) gamma) ->
  exists a' tr,
    Mult MFEM_DEBUG GetNDofs GetNE xmat a = Ok (a', tr)
    /\ (forall i, (i < GetNDofs)%nat -> speed i <= max_char_speed_ a')
    /\ (GetNDofs = 0%nat -> max_char_speed_ a' = 0)
    /\ ((0 < GetNDofs)%nat ->
        exists i, (i < GetNDofs)%nat /\ max_char_speed_ a' = speed i)
    /\ (forall i d k,
          (i < GetNDofs)%nat -> (d < dim_ a)%nat -> (k < n)%nat ->
          flux_ a' i d k
          = Euler.EulerFlux (row xmat n i) (dim_ a) gamma k d).
Proof.
  intros n gamma speed Hn Hl Hphys. unfold Mult.
  set (a0 := set_scratch (state_ a) (f_ a) 0 a).
  destruct (GetFlux_spec MFEM_DEBUG GetNDofs (dim_ a0) xmat (flux_ a0) a0
              Hn Hl Hphys)
    as (fl & b & -> & Hin & _ & Hle & Hub & Hatt & _).
  cbn [bind]. cbv beta iota zeta.
  eexists _, _. split; [reflexivity|]. cbn.
  split; [exact Hub|]. split; [|split; [|exact Hin]].
  - intros ->. destruct Hatt as [E|(i & Hi & _)]; [exact E|lia].
  - intros Hpos. destruct Hatt as [E|(i & Hi & E)].
    + exists 0%nat. split; [exact Hpos|].
      assert (H0 : speed 0%nat <= max_char_speed_ b)
        by exact (Hub 0%nat Hpos).
      assert (H1 : 0 <= speed 0%nat)
        by apply ComputeMaxCharSpeed_nonneg.
      change (max_char_speed_ a0) with 0 in E. lra.
    + exists i. split; [exact Hi|exact E].
Qed.

(** A run of X7: the stale speed 7 of [example] is discarded. *)
Lemma Mult_max_char_speed_witness :
  exists a' tr,
    Mult true 2 1 example_x example = Ok (a', tr)
    /\ exists i, (i < 2)%nat
         /\ max_char_speed_ a'
            = Euler.ComputeMaxCharSpeed (row example_x 3 i) 1 1.4.
Proof.
  destruct (Mult_max_char_speed true 2 1 example_x example
              eq_refl eq_refl example_x_physical)
    as (b & tr & H1 & _ & _ & H4 & _).
  exists b, tr. split; [exact H1|]. apply H4. lia.
Defined.

End AdvectionProperties.

(** ** The face term ([FaceIntegrator]) *)

Section FaceIntegratorFacts.

Import FaceIntegrator.
Local Open Scope R_scope.

(** [for (s = 0; s < dof; s++) { m(s, k) = op(m(s, k), v(s)); }] *)
Lemma column_loop (op : R -> R -> R) dof k (v : nat -> R) (m : DenseMatrix) :
  let m' := for_loop dof (fun s m => mset m s k (op (m s k) (v s))) m in
  (forall s, (s < dof)%nat -> m' s k = op (m s k) (v s))
  /\ (forall s' k', (k' <> k \/ (dof <= s')%nat) -> m' s' k' = m s' k').
Proof.
  cbv zeta.
  apply (for_loop_invariant (fun j t =>
    (forall s, (s < j)%nat -> t s k = op (m s k) (v s))
    /\ (forall s' k', (k' <> k \/ (j <= s')%nat) -> t s' k' = m s' k'))).
  - split; [intros; lia|reflexivity].
  - intros j t Hj (Hin & Hout). split.
    + intros s Hs. destruct (Nat.eq_dec s j) as [->|Hne].
      * rewrite mset_eq. f_equal. apply Hout. right. lia.
      * rewrite mset_neq by (left; lia). apply Hin. lia.
    + intros s' k' H. rewrite mset_neq.
      * apply Hout. destruct H; [left; assumption|right; lia].
      * destruct H; [right; congruence|left; lia].
Qed.

(** The loops over the equations and the degrees of freedom subtract
    [fluxN_(k) * shape1_(s)] from [elvect1_mat(s, k)] and add
    [fluxN_(k) * shape2_(s)] to [elvect2_mat(s, k)]. *)
Lemma element_loops n dof1 dof2 (fluxN : Vector) (ip : FacePoint)
  (e1 e2 : DenseMatrix) :
  let el :=
    for_loop n (fun k el =>
      let '(elvect1_mat, elvect2_mat) := el in
      (for_loop dof1 (fun s m =>
         mset m s k (m s k - vget fluxN k * vget (shape1_ ip) s))
         elvect1_mat,
       for_loop dof2 (fun s m =>
         mset m s k (m s k + vget fluxN k * vget (shape2_ ip) s))
         elvect2_mat)) (e1, e2) in
  (forall s k, (s < dof1)%nat -> (k < n)%nat ->
     fst el s k = e1 s k - vget fluxN k * vget (shape1_ ip) s)
  /\ (forall s k, (s < dof2)%nat -> (k < n)%nat ->
        snd el s k = e2 s k + vget fluxN k * vget (shape2_ ip) s).
Proof.
  cbv zeta.
  assert (H : forall j el,
    el = for_loop j (fun k el =>
      let '(elvect1_mat, elvect2_mat) := el in
      (for_loop dof1 (fun s m =>
         mset m s k (m s k - vget fluxN k * vget (shape1_ ip) s))
         elvect1_mat,
       for_loop dof2 (fun s m =>
         mset m s k (m s k + vget fluxN k * vget (shape2_ ip) s))
         elvect2_mat)) (e1, e2) ->
    (forall s k, (s < dof1)%nat ->
       fst el s k = if Nat.ltb k j
                    then e1 s k - vget fluxN k * vget (shape1_ ip) s
                    else e1 s k)
    /\ (forall s k, (s < dof2)%nat ->
          snd el s k = if Nat.ltb k j
                       then e2 s k + vget fluxN k * vget (shape2_ ip) s
                       else e2 s k)).
  { induction j as [|j IH]; intros el ->.
    - split; reflexivity.
    - simpl for_loop.
      destruct (for_loop j _ (e1, e2)) as [t1 t2] eqn:E.
      destruct (IH _ eq_refl) as (I1 & I2). cbn [fst snd] in *.
      destruct (column_loop Rminus dof1 j
                  (fun s => vget fluxN j * vget (shape1_ ip) s) t1)
        as (A1 & B1).
      destruct (column_loop Rplus dof2 j
                  (fun s => vget fluxN j * vget (shape2_ ip) s) t2)
        as (A2 & B2).
      cbv zeta beta in A1, B1, A2, B2.
      split; intros s k Hs.
      + destruct (Nat.eq_dec k j) as [->|Hne].
        * rewrite A1 by exact Hs. rewrite I1 by exact Hs.
          rewrite Nat.ltb_irrefl.
          destruct (Nat.ltb_spec j (S j)); [reflexivity|lia].
        * rewrite B1 by (left; exact Hne). rewrite I1 by exact Hs.
          destruct (Nat.ltb_spec k j), (Nat.ltb_spec k (S j));
            try reflexivity; lia.
      + destruct (Nat.eq_dec k j) as [->|Hne].
        * rewrite A2 by exact Hs. rewrite I2 by exact Hs.
          rewrite Nat.ltb_irrefl.
          destruct (Nat.ltb_spec j (S j)); [reflexivity|lia].
        * rewrite B2 by (left; exact Hne). rewrite I2 by exact Hs.
          destruct (Nat.ltb_spec k j), (Nat.ltb_spec k (S j));
            try reflexivity; lia. }
  destruct (H n _ eq_refl) as (H1 & H2). split; intros s k Hs Hk.
  - rewrite H1 by exact Hs. destruct (Nat.ltb_spec k n); [reflexivity|lia].
  - rewrite H2 by exact Hs. destruct (Nat.ltb_spec k n); [reflexivity|lia].
Qed.

(** [fluxN_ *= ip.weight] *)
Lemma vget_map_scale (v : Vector) w k :
  vget (map (fun y => y * w) v) k = vget v k * w.
Proof.
  unfold vget. rewrite <- (map_nth (fun y => y * w)). f_equal. lra.
Qed.

(** [AssembleFaceVector] over admissible points, started from any element
    vectors: it returns, the integrator stays well sized, the wave speed
    is a running maximum, and the total that the two element vectors add
    to each equation is kept when the basis functions of the two elements
    have the same sum at every point. *)
Lemma AssembleFaceVector_fold dbg dof1 dof2 ir : forall e1 e2 x,
  let n := num_equation_ x in
  let gamma := Euler.specific_heat_ratio_ (rsolver_ x) in
  well_sized x ->
  (forall ip, In ip ir -> admissible n gamma ip) ->
  exists e1' e2' x',
    fold_left (fun r ip =>
      bind r (fun st =>
        let '(elvect1_mat, elvect2_mat, x) := st in
        bind (Euler.Eval dbg (rsolver_ x) (funval1_ ip) (funval2_ ip)
                (nor_ ip) (fluxN_ x)) (fun ev =>
          let '(mcs, fluxN, rsolver) := ev in
          let max_char_speed :=
            if Rgt_dec mcs (max_char_speed_ x) then mcs
            else max_char_speed_ x in
          let fluxN := map (fun v => v * weight ip) fluxN in
          let '(elvect1_mat, elvect2_mat) :=
            for_loop (num_equation_ x) (fun k el =>
              let '(elvect1_mat, elvect2_mat) := el in
              (for_loop dof1 (fun s m =>
                 mset m s k (m s k - vget fluxN k * vget (shape1_ ip) s))
                 elvect1_mat,
               for_loop dof2 (fun s m =>
                 mset m s k (m s k + vget fluxN k * vget (shape2_ ip) s))
                 elvect2_mat)) (elvect1_mat, elvect2_mat) in
          Ok (elvect1_mat, elvect2_mat,
              {| num_equation_ := num_equation_ x;
                 max_char_speed_ := max_char_speed;
                 rsolver_ := rsolver; fluxN_ := fluxN |}))))
      ir (Ok (e1, e2, x)) = Ok (e1', e2', x')
    /\ well_sized x' /\ num_equation_ x' = n
    /\ Euler.specific_heat_ratio_ (rsolver_ x') = gamma
    /\ max_char_speed_ x <= max_char_speed_ x'
    /\ (forall ip, In ip ir -> point_speed gamma ip <= max_char_speed_ x')
    /\ (max_char_speed_ x' = max_char_speed_ x
        \/ exists ip, In ip ir /\ max_char_speed_ x' = point_speed gamma ip)
    /\ ((forall ip, In ip ir ->
           accumulate dof1 (vget (shape1_ ip))
           = accumulate dof2 (vget (shape2_ ip))) ->
        forall k, (k < n)%nat ->
          column_sum dof1 e1' k + column_sum dof2 e2' k
          = column_sum dof1 e1 k + column_sum dof2 e2 k).
Proof.
  induction ir as [|ip ir IH]; intros e1 e2 x n gamma Hws Hadm.
  - exists e1, e2, x. split; [reflexivity|]. split; [exact Hws|].
    split; [reflexivity|]. split; [reflexivity|]. split; [lra|].
    split; [intros ? []|]. split; [left; reflexivity|].
    intros _ k _. reflexivity.
  - cbn [fold_left bind]. cbv beta iota.
    destruct Hws as (W1 & W2 & W3 & W4).
    destruct (Hadm ip (or_introl eq_refl)) as (A1 & A2 & A3).
    unfold n in A1.
    destruct (Eval_returns dbg (rsolver_ x) (funval1_ ip) (funval2_ ip)
                (nor_ ip) (fluxN_ x) ltac:(congruence) ltac:(congruence)
                ltac:(congruence) ltac:(congruence) A2 A3)
      as (fl & rs' & Hev).
    cbv zeta in Hev.
    destruct Hev as (-> & Lf & R1 & R2 & R3 & R4 & _).
    cbn [bind]. cbv beta iota zeta.
    fold gamma. fold (point_speed gamma ip).
    set (fluxN := map (fun v => v * weight ip) fl).
    pose proof (element_loops (num_equation_ x) dof1 dof2 fluxN ip e1 e2)
      as HL. cbv zeta in HL.
    destruct (for_loop (num_equation_ x) _ (e1, e2)) as [t1 t2].
    cbn [fst snd] in HL. destruct HL as (L1 & L2).
    set (x1 := {| num_equation_ := num_equation_ x;
                  max_char_speed_ := _; rsolver_ := rs';
                  fluxN_ := fluxN |}).
    assert (Hws1 : well_sized x1).
    { unfold well_sized, x1, fluxN. cbn. rewrite length_map.
      repeat split; congruence. }
    destruct (IH t1 t2 x1 Hws1) as (e1' & e2' & x' & Hf & Hw' & Hn' & Hg'
                                     & Hle & Hub & Hatt & Hsum).
    { intros q Hq.
      change (admissible n (Euler.specific_heat_ratio_ rs') q).
      rewrite R2. apply Hadm. right. exact Hq. }
    cbv zeta in Hn', Hg', Hub, Hatt, Hsum.
    change (num_equation_ x1) with n in Hn', Hsum.
    change (Euler.specific_heat_ratio_ (rsolver_ x1))
      with (Euler.specific_heat_ratio_ rs') in Hg', Hub, Hatt.
    rewrite R2 in Hg', Hub, Hatt. fold gamma in Hg', Hub, Hatt.
    exists e1', e2', x'. split; [exact Hf|].
    split; [exact Hw'|]. split; [exact Hn'|]. split; [exact Hg'|].
    assert (Hstep : max_char_speed_ x <= max_char_speed_ x1
                    /\ point_speed gamma ip <= max_char_speed_ x1
                    /\ (max_char_speed_ x1 = max_char_speed_ x
                        \/ max_char_speed_ x1 = point_speed gamma ip)).
    { unfold x1. cbn.
      destruct (Rgt_dec (point_speed gamma ip) (max_char_speed_ x));
        repeat split; auto; lra. }
    destruct Hstep as (S1 & S2 & S3).
    split; [lra|]. split.
    { intros q [<-|Hq]; [lra|apply Hub, Hq]. }
    split.
    { destruct Hatt as [E|(q & Hq & E)].
      - destruct S3 as [E'|E'].
        + left. congruence.
        + right. exists ip. split; [left; reflexivity|congruence].
      - right. exists q. split; [right; exact Hq|exact E]. }
    intros Hshape k Hk. rewrite Hsum.
    + unfold column_sum.
      rewrite (accumulate_ext dof1 (fun s => t1 s k)
                 (fun s => e1 s k + (- vget fluxN k) * vget (shape1_ ip) s))
        by (intros s Hs; rewrite L1 by assumption; ring).
      rewrite (accumulate_ext dof2 (fun s => t2 s k)
                 (fun s => e2 s k + vget fluxN k * vget (shape2_ ip) s))
        by (intros s Hs; rewrite L2 by assumption; ring).
      rewrite !accumulate_plus, !accumulate_scal.
      rewrite (Hshape ip (or_introl eq_refl)). ring.
    + intros q Hq. apply Hshape. right. exact Hq.
    + exact Hk.
Qed.

End FaceIntegratorFacts.

Section FaceIntegratorProperties.

Import FaceIntegrator.
Local Open Scope R_scope.

Lemma accumulate_zero n : accumulate n (fun _ => 0) = 0.
Proof.
  induction n as [|n IH]; [reflexivity|]. rewrite accumulate_S, IH. lra.
Qed.

(** The point of [example_ir] is admissible. *)
Lemma example_ir_admissible ip :
  In ip example_ir -> admissible 3 1.4 ip.
Proof.
  intros [<-|[]]. unfold admissible. cbn. split; [reflexivity|].
  unfold Euler.Physical, Euler.ComputePressure, accumulate, Euler.den_vel;
    cbn; repeat split; lra.
Qed.

Lemma example_well_sized : well_sized example.
Proof. unfold well_sized. cbn. auto. Qed.

(** X8. The face term is conservative: when at every integration point
    the basis functions of the first element sum to the same value as
    those of the second (both sum to one for a nodal basis), the element
    vector that [FaceIntegrator::AssembleFaceVector] builds adds nothing
    in total to any equation: what it takes from the first element it
    gives to the second. *)
Theorem AssembleFaceVector_conservative (MFEM_DEBUG : bool) (dof1 dof2 : nat)
  (ir : list FacePoint) (x : t) :
  let n := num_equation_ x in
  let gamma := Euler.specific_heat_ratio_ (rsolver_ x) in
  well_sized x ->
  (forall ip, In ip ir ->
     admissible n gamma ip
     /\ accumulate dof1 (vget (shape1_ ip))
        = accumulate dof2 (vget (shape2_ ip))) ->
  exists elvect1_mat elvect2_mat x',
    AssembleFaceVector MFEM_DEBUG dof1 dof2 ir x
    = Ok (elvect1_mat, elvect2_mat, x')
    /\ forall k, (k < n)%nat ->
         column_sum dof1 elvect1_mat k + column_sum dof2 elvect2_mat k = 0.
Proof.
  intros n gamma Hws Hir. unfold AssembleFaceVector.
  destruct (AssembleFaceVector_fold MFEM_DEBUG dof1 dof2 ir
              (fun _ _ => 0) (fun _ _ => 0) x Hws
              (fun ip Hip => proj1 (Hir ip Hip)))
    as (e1 & e2 & x' & Hf & _ & _ & _ & _ & _ & _ & Hsum).
  exists e1, e2, x'. split; [exact Hf|].
  intros k Hk. rewrite (Hsum (fun ip Hip => proj2 (Hir ip Hip)) k Hk).
  unfold column_sum. rewrite !accumulate_zero. lra.
Qed.

(** A run of X8 on the face of [example_ir]. *)
Lemma AssembleFaceVector_conservative_witness :
  exists elvect1_mat elvect2_mat x',
    AssembleFaceVector true 2 2 example_ir example
    = Ok (elvect1_mat, elvect2_mat, x')
    /\ forall k, (k < 3)%nat ->
         column_sum 2 elvect1_mat k + column_sum 2 elvect2_mat k = 0.
Proof.
  apply (AssembleFaceVector_conservative true 2 2 example_ir example
           example_well_sized).
  intros ip Hip. split; [exact (example_ir_admissible ip Hip)|].
  destruct Hip as [<-|[]]. unfold accumulate. cbn. lra.
Defined.

(** X9. [FaceIntegrator::AssembleFaceVector] never lowers
    [max_char_speed_]: on return it is the maximum of its value on entry
    and the speeds [Eval] returned at the integration points, so that it
    accumulates over all faces assembled since the constructor set it to
    zero; the integrator and its solver keep their sizes for the next
    face. *)
Theorem AssembleFaceVector_max_char_speed (MFEM_DEBUG : bool)
  (dof1 dof2 : nat) (ir : list FacePoint) (x : t) :
  let n := num_equation_ x in
  let gamma := Euler.specific_heat_ratio_ (rsolver_ x) in
  well_sized x ->
  (forall ip, In ip ir -> admissible n gamma ip) ->
  exists elvect1_mat elvect2_mat x',
    AssembleFaceVector MFEM_DEBUG dof1 dof2 ir x
    = Ok (elvect1_mat, elvect2_mat, x')
    /\ max_char_speed_ x <= max_char_speed_ x'
    /\ (forall ip, In ip ir -> point_speed gamma ip <= max_char_speed_ x')
    /\ (max_char_speed_ x' = max_char_speed_ x
        \/ exists ip, In ip ir /\ max_char_speed_ x' = point_speed gamma ip)
    /\ well_sized x' /\ num_equation_ x' = n
    /\ Euler.specific_heat_ratio_ (rsolver_ x') = gamma.
Proof.
  intros n gamma Hws Hir. unfold AssembleFaceVector.
  destruct (AssembleFaceVector_fold MFEM_DEBUG dof1 dof2 ir
              (fun _ _ => 0) (fun _ _ => 0) x Hws Hir)
    as (e1 & e2 & x' & Hf & Hw & Hn & Hg & Hle & Hub & Hatt & _).
  exists e1, e2, x'. repeat (split; [assumption|]). assumption.
Qed.

(** A run of X9 on the face of [example_ir]. *)
Lemma AssembleFaceVector_max_char_speed_witness :
  exists elvect1_mat elvect2_mat x',
    AssembleFaceVector true 2 2 example_ir example
    = Ok (elvect1_mat, elvect2_mat, x')
    /\ 0 <= max_char_speed_ x'.
Proof.
  destruct (AssembleFaceVector_max_char_speed true 2 2 example_ir example
              example_well_sized example_ir_admissible)
    as (e1 & e2 & x' & H1 & H2 & _).
  exists e1, e2, x'. split; [exact H1|exact H2].
Defined.

End FaceIntegratorProperties.

(** ** Properties of [DomainIntegrator] *)

Section DomainIntegratorProperties.

Import DomainIntegrator.
Local Open Scope R_scope.

(** [for (k = 0; k < n; k++) { m(j, k + off) += v(k); }] *)
Lemma row_loop n j off (v : nat -> R) (m : DenseMatrix) :
  let m' := for_loop n (fun k m =>
              mset m j (k + off)%nat (m j (k + off)%nat + v k)) m in
  forall j' c,
    m' j' c = if (Nat.eqb j' j && Nat.leb off c && Nat.ltb c (off + n))%bool
              then m j' c + v (c - off)%nat else m j' c.
Proof.
  cbv zeta.
  apply (for_loop_invariant (fun t m' => forall j' c,
    m' j' c = if (Nat.eqb j' j && Nat.leb off c && Nat.ltb c (off + t))%bool
              then m j' c + v (c - off)%nat else m j' c)).
  - intros j' c.
    destruct (Nat.eqb_spec j' j), (Nat.leb_spec off c),
      (Nat.ltb_spec c (off + 0)); cbn; try reflexivity; lia.
  - intros t m' Ht IH j' c.
    destruct (Nat.eq_dec j j') as [<-|Hj];
      [destruct (Nat.eq_dec (t + off) c) as [<-|Hc]|].
    + rewrite mset_eq, IH.
      replace (t + off - off)%nat with t by lia.
      destruct (Nat.eqb_spec j j), (Nat.leb_spec off (t + off)),
        (Nat.ltb_spec (t + off) (off + t)),
        (Nat.ltb_spec (t + off) (off + S t)); cbn; try reflexivity; lia.
    + rewrite mset_neq by (right; exact Hc). rewrite IH.
      destruct (Nat.eqb_spec j j), (Nat.leb_spec off c),
        (Nat.ltb_spec c (off + t)), (Nat.ltb_spec c (off + S t));
        cbn; try reflexivity; lia.
    + rewrite mset_neq by (left; exact Hj). rewrite IH.
      destruct (Nat.eqb_spec j' j); [congruence|]. reflexivity.
Qed.

(** The loops over the test and the trial functions for one direction
    [d], with [off = d * dof_trial]. *)
Lemma block_loop dof_test n off (sh : Vector) (dx : nat -> R)
  (m : DenseMatrix) :
  let m' := for_loop dof_test (fun j m =>
              for_loop n (fun k m =>
                mset m j (k + off)%nat
                  (m j (k + off)%nat + vget sh k * dx j)) m) m in
  forall j' c,
    m' j' c
    = if (Nat.ltb j' dof_test && Nat.leb off c && Nat.ltb c (off + n))%bool
      then m j' c + vget sh (c - off) * dx j' else m j' c.
Proof.
  cbv zeta.
  apply (for_loop_invariant (fun t m' => forall j' c,
    m' j' c
    = if (Nat.ltb j' t && Nat.leb off c && Nat.ltb c (off + n))%bool
      then m j' c + vget sh (c - off) * dx j' else m j' c)).
  - intros j' c. reflexivity.
  - intros t m' Ht IH j' c.
    rewrite (row_loop n t off (fun k => vget sh k * dx t) m' j' c).
    rewrite !IH.
    destruct (Nat.eqb_spec j' t) as [->|Hj], (Nat.leb_spec off c),
      (Nat.ltb_spec c (off + n)); cbn [andb];
      try (destruct (Nat.ltb_spec t t); [lia|]);
      try (destruct (Nat.ltb_spec t (S t)); [|lia]);
      try (destruct (Nat.ltb_spec j' t), (Nat.ltb_spec j' (S t));
           try lia);
      cbn [andb]; reflexivity.
Qed.

(** One integration point: entry [(j, k + d * dof_trial)] grows by
    [shape_(k) * dshapedx_(j, d)]. *)
Lemma point_loops dim dof_trial dof_test (sh : Vector) (dx : DenseMatrix)
  (m : DenseMatrix) :
  let m' := for_loop dim (fun d m =>
              for_loop dof_test (fun j m =>
                for_loop dof_trial (fun k m =>
                  mset m j (k + d * dof_trial)%nat
                    (m j (k + d * dof_trial)%nat + vget sh k * dx j d))
                  m) m) m in
  forall j c,
    m' j c
    = if (Nat.ltb j dof_test && Nat.ltb c (dim * dof_trial)%nat)%bool
      then m j c + vget sh (c mod dof_trial)%nat * dx j (c / dof_trial)%nat
      else m j c.
Proof.
  cbv zeta.
  apply (for_loop_invariant (fun t m' => forall j c,
    m' j c
    = if (Nat.ltb j dof_test && Nat.ltb c (t * dof_trial)%nat)%bool
      then m j c + vget sh (c mod dof_trial)%nat * dx j (c / dof_trial)%nat
      else m j c)).
  - intros j c. rewrite andb_false_r. reflexivity.
  - intros t m' Ht IH j c.
    rewrite (block_loop dof_test dof_trial (t * dof_trial) sh
               (fun j => dx j t) m' j c).
    rewrite IH.
    destruct (Nat.ltb_spec j dof_test); cbn [andb]; [|reflexivity].
    destruct (Nat.leb_spec (t * dof_trial) c),
      (Nat.ltb_spec c (t * dof_trial + dof_trial)),
      (Nat.ltb_spec c (t * dof_trial)),
      (Nat.ltb_spec c (S t * dof_trial)); cbn [andb];
      try reflexivity; try lia.
    assert (Hn : dof_trial <> O) by lia.
    assert (Hq : (c / dof_trial)%nat = t).
    { symmetry. apply (Nat.div_unique c dof_trial t (c - t * dof_trial));
        nia. }
    assert (Hr : (c mod dof_trial)%nat = (c - t * dof_trial)%nat).
    { symmetry. apply (Nat.mod_unique c dof_trial t (c - t * dof_trial));
        nia. }
    rewrite Hq, Hr. reflexivity.
Qed.

Lemma quadrature_from ir (f : Point -> R) : forall a,
  fold_left (fun acc ip => acc + f ip) ir a = a + quadrature ir f.
Proof.
  unfold quadrature. induction ir as [|ip ir IH]; intros a; cbn.
  - lra.
  - rewrite IH, (IH (0 + f ip)). lra.
Qed.

(** [AssembleElementMatrix2] started from any element matrix. *)
Lemma AssembleElementMatrix2_fold dim dof_trial dof_test ir :
  forall (m : DenseMatrix) j c,
    fold_left (fun elmat ip =>
      let shape_ := map (fun v => v * weight ip) (shape_ ip) in
      for_loop dim (fun d elmat =>
        for_loop dof_test (fun j elmat =>
          for_loop dof_trial (fun k elmat =>
            mset elmat j (k + d * dof_trial)%nat
              (elmat j (k + d * dof_trial)%nat
               + vget shape_ k * dshapedx_ ip j d))
            elmat) elmat) elmat) ir m j c
    = if (Nat.ltb j dof_test && Nat.ltb c (dim * dof_trial)%nat)%bool
      then m j c
           + quadrature ir (fun ip =>
               vget (shape_ ip) (c mod dof_trial)%nat * weight ip
               * dshapedx_ ip j (c / dof_trial)%nat)
      else m j c.
Proof.
  induction ir as [|ip ir IH]; intros m j c.
  - cbn. unfold quadrature. cbn.
    destruct (_ && _)%bool; lra.
  - cbn [fold_left]. rewrite IH. cbv zeta.
    rewrite point_loops.
    destruct (Nat.ltb j dof_test && Nat.ltb c (dim * dof_trial)%nat)%bool;
      [|reflexivity].
    unfold quadrature at 2. cbn [fold_left].
    rewrite quadrature_from, vget_map_scale. lra.
Qed.

(** X28. The element matrix in closed form.  [AssembleElementMatrix2]
    returns the matrix whose entry [(j, k + d * dof_trial)], for a test
    function [j], a trial function [k] and a direction [d], is the sum
    over the integration points of
    [shape_(k) * ip.weight * dshapedx_(j, d)]; each entry is written once
    per point, and no entry outside these is touched. *)
Theorem AssembleElementMatrix2_entries (dim dof_trial dof_test : nat)
  (ir : list Point) (j k d : nat) :
  (j < dof_test)%nat -> (k < dof_trial)%nat -> (d < dim)%nat ->
  AssembleElementMatrix2 dim dof_trial dof_test ir j
    (k + d * dof_trial)%nat
  = quadrature ir (fun ip =>
      vget (shape_ ip) k * weight ip * dshapedx_ ip j d)
  /\ forall j' c, (dof_test <= j')%nat \/ (dim * dof_trial <= c)%nat ->
       AssembleElementMatrix2 dim dof_trial dof_test ir j' c = 0.
Proof.
  intros Hj Hk Hd. unfold AssembleElementMatrix2. split.
  - rewrite AssembleElementMatrix2_fold.
    destruct (Nat.ltb_spec j dof_test); [|lia].
    destruct (Nat.ltb_spec (k + d * dof_trial) (dim * dof_trial));
      [|nia].
    cbn [andb].
    rewrite Nat.div_add by lia. rewrite Nat.Div0.mod_add.
    rewrite Nat.div_small, Nat.mod_small by exact Hk.
    cbn [Nat.add]. lra.
  - intros j' c H. rewrite AssembleElementMatrix2_fold.
    destruct (Nat.ltb_spec j' dof_test),
      (Nat.ltb_spec c (dim * dof_trial)); cbn [andb];
      try reflexivity; lia.
Qed.

(** A run of X28 on [example_ir]: the entry of the first test and the
    first trial function. *)
Lemma AssembleElementMatrix2_entries_witness :
  AssembleElementMatrix2 1 2 2 example_ir 0%nat 0%nat = -0.5.
Proof.
  pose proof (proj1 (AssembleElementMatrix2_entries 1 2 2 example_ir
                       0 0 0 ltac:(lia) ltac:(lia) ltac:(lia))) as H.
  cbn [Nat.add Nat.mul] in H. rewrite H.
  unfold quadrature, example_ir, vget. cbn. lra.
Defined.

(** X29. The volume term is conservative.  When the gradients of the
    test functions sum to zero in every direction at every integration
    point (the test functions sum to a constant), every column of the
    element matrix sums to zero: tested against a constant, the form
    (vec(v), grad(w)) vanishes. *)
Theorem AssembleElementMatrix2_conservative (dim dof_trial dof_test : nat)
  (ir : list Point) (c : nat) :
  (forall ip d, In ip ir -> (d < dim)%nat ->
     accumulate dof_test (fun j => dshapedx_ ip j d) = 0) ->
  accumulate dof_test (fun j =>
    AssembleElementMatrix2 dim dof_trial dof_test ir j c) = 0.
Proof.
  intros H. unfold AssembleElementMatrix2.
  assert (G : forall (m : DenseMatrix),
    accumulate dof_test (fun j => m j c) = 0 ->
    accumulate dof_test (fun j =>
      fold_left (fun elmat ip =>
        let shape_ := map (fun v => v * weight ip) (shape_ ip) in
        for_loop dim (fun d elmat =>
          for_loop dof_test (fun j elmat =>
            for_loop dof_trial (fun k elmat =>
              mset elmat j (k + d * dof_trial)%nat
                (elmat j (k + d * dof_trial)%nat
                 + vget shape_ k * dshapedx_ ip j d))
              elmat) elmat) elmat) ir m j c) = 0).
  { induction ir as [|ip ir IH]; intros m Hm; [exact Hm|].
    cbn [fold_left]. apply IH.
    - intros ip' d Hin Hd. apply H; [right; exact Hin|exact Hd].
    - cbv zeta.
      set (s := vget (map (fun v => v * weight ip) (shape_ ip))
                  (c mod dof_trial)%nat).
      rewrite (accumulate_ext dof_test _
                 (fun j => m j c
                           + (if Nat.ltb c (dim * dof_trial)%nat
                              then s * dshapedx_ ip j (c / dof_trial)%nat
                              else 0))).
      + rewrite accumulate_plus, Hm.
        destruct (Nat.ltb_spec c (dim * dof_trial)) as [Hc|Hc].
        * rewrite accumulate_scal, H; [lra|left; reflexivity|].
          apply Nat.Div0.div_lt_upper_bound. lia.
        * rewrite accumulate_zero. lra.
      + intros j Hj. rewrite point_loops.
        destruct (Nat.ltb_spec j dof_test); [|lia]. cbn [andb].
        destruct (Nat.ltb c (dim * dof_trial)%nat); [reflexivity|lra]. }
  apply G. apply accumulate_zero.
Qed.

(** A run of X29 on [example_ir], whose two test functions have the
    gradients [-1] and [1]. *)
Lemma AssembleElementMatrix2_conservative_witness :
  AssembleElementMatrix2 1 2 2 example_ir 0%nat 1%nat
  + AssembleElementMatrix2 1 2 2 example_ir 1%nat 1%nat = 0.
Proof.
  assert (Hd : forall ip d, In ip example_ir -> (d < 1)%nat ->
                 accumulate 2 (fun j => dshapedx_ ip j d) = 0).
  { intros ip d [<-|[<-|[]]] _; unfold accumulate; cbn; lra. }
  pose proof (AssembleElementMatrix2_conservative 1 2 2 example_ir 1 Hd)
    as H.
  unfold accumulate in H. cbn [for_loop] in H. lra.
Defined.

End DomainIntegratorProperties.

(** ** Further properties of [DGAdvectionDiffusionTDO] *)

Section AdvectionDiffusionFrames.

Import Lib DGAdvectionDiffusionTDO.
Local Open Scope R_scope.

(** Each [init] function assigns at most its own form. *)
Lemma initA_eq x :
  initA x = set_forms (if_null (a_ x) (built_a x)) (b_ x) (s_ x) (k_ x)
              (q_exp_ x) (q_imp_ x) x.
Proof.
  destruct x as [h w im dt V d D S dbc nV c1 c2 c3 [a|] b s k qe qi r xs];
    reflexivity.
Qed.

Lemma initB_eq x :
  initB x = set_forms (a_ x) (if_null (b_ x) (built_b x)) (s_ x) (k_ x)
              (q_exp_ x) (q_imp_ x) x.
Proof.
  destruct x as [h w im dt V d D S dbc nV c1 c2 c3 a [b|] s k qe qi r xs];
    [reflexivity|].
  unfold initB, built_b, initB. cbn.
  destruct (d || D || V)%bool; reflexivity.
Qed.

Lemma initS_eq x :
  initS x = set_forms (a_ x) (b_ x) (if_null (s_ x) (built_s x)) (k_ x)
              (q_exp_ x) (q_imp_ x) x.
Proof.
  destruct x as [h w im dt V d D S dbc nV c1 c2 c3 a b [s|] k qe qi r xs];
    [reflexivity|].
  unfold initS, built_s, initS. cbn.
  destruct (d || D)%bool; reflexivity.
Qed.

Lemma initK_eq x :
  initK x = set_forms (a_ x) (b_ x) (s_ x) (if_null (k_ x) (built_k x))
              (q_exp_ x) (q_imp_ x) x.
Proof.
  destruct x as [h w im dt V d D S dbc nV c1 c2 c3 a b s [k|] qe qi r xs];
    [reflexivity|].
  unfold initK, built_k, initK. cbn.
  destruct V; reflexivity.
Qed.

Lemma initQ_eq x :
  initQ x = set_forms (a_ x) (b_ x) (s_ x) (k_ x)
              (q_exp_ (initQ x)) (q_imp_ (initQ x)) x.
Proof.
  destruct x as [h w im dt V d D S dbc nV c1 c2 c3 a b s k
                 [qe|] [qi|] r xs];
    destruct im; try reflexivity;
    destruct S, dbc, d, D, V; reflexivity.
Qed.

End AdvectionDiffusionFrames.

Section AdvectionDiffusionInvariant.

Import Lib DGAdvectionDiffusionTDO.
Local Open Scope R_scope.

(** [SetTime] fills in the forms of the mode that are [NULL] and leaves
    everything else apart from the right-hand sides. *)
Lemma SetTime_eq x :
  SetTime x
  = set_forms (if_null (a_ x) (built_a x))
      (if imex_ x then b_ x else if_null (b_ x) (built_b x))
      (if imex_ x then if_null (s_ x) (built_s x) else s_ x)
      (if imex_ x then if_null (k_ x) (built_k x) else k_ x)
      (q_exp_ (SetTime x)) (q_imp_ (SetTime x)) x.
Proof.
  set (y := if imex_ (initA x) then initK (initS (initA x))
            else initB (initA x)).
  change (SetTime x) with (initQ y).
  rewrite (initQ_eq y) at 1.
  generalize (q_exp_ (initQ y)) (q_imp_ (initQ y)). intros qe qi.
  unfold y. rewrite (initA_eq x).
  destruct x as [h w [|] dt V d D S dbc nV c1 c2 c3 a b s k qe0 qi0 r xs];
    cbn [imex_ set_forms].
  - rewrite initS_eq, initK_eq. destruct V, d, D; reflexivity.
  - rewrite initB_eq. destruct V, d, D; reflexivity.
Qed.

Lemma SetTime_q_exp x : imex_ x = false -> q_exp_ (SetTime x) = q_exp_ x.
Proof.
  intros Hi. unfold SetTime.
  destruct (imex_init x) as (Ea & _). rewrite Ea, Hi.
  set (y := initB (initA x)).
  assert (Hy : imex_ y = false /\ q_exp_ y = q_exp_ x).
  { unfold y. rewrite initB_eq, initA_eq. cbn. auto. }
  destruct Hy as (Hy & <-). unfold initQ. rewrite Hy.
  destruct (q_imp_ y); [reflexivity|]. destruct (has_rhs y); reflexivity.
Qed.

Lemma new_invariant fes imex : class_invariant (new fes imex).
Proof.
  unfold class_invariant, forms_of_mode, forms_up_to_date, up_to_date,
    coefficients_in_step. destruct imex; cbn; auto 10.
Qed.

(** The forms an [init] function builds depend on the coefficients that
    are set and on the mode only. *)
Lemma built_a_ext x y :
  imex_ x = imex_ y -> dCoef_ x = dCoef_ y -> DCoef_ x = DCoef_ y ->
  (imex_ x = false -> negVCoef_ x = negVCoef_ y) ->
  built_a x = built_a y.
Proof.
  destruct x as [h w im dt V d D S dbc nV c1 c2 c3 a b s k qe qi r xs].
  destruct y as [h' w' im' dt' V' d' D' S' dbc' nV' c1' c2' c3' a' b' s' k'
                 qe' qi' r' xs'].
  cbn. intros <- <- <- Hn. destruct im; [|rewrite (Hn eq_refl)];
    destruct d, D; try reflexivity.
  all: try (destruct nV, nV'; reflexivity).
Qed.

Lemma built_b_ext x y :
  VCoef_ x = VCoef_ y -> dCoef_ x = dCoef_ y -> DCoef_ x = DCoef_ y ->
  negVCoef_ x = negVCoef_ y ->
  built_b x = built_b y.
Proof.
  destruct x as [h w im dt V d D S dbc nV c1 c2 c3 a b s k qe qi r xs].
  destruct y as [h' w' im' dt' V' d' D' S' dbc' nV' c1' c2' c3' a' b' s' k'
                 qe' qi' r' xs'].
  cbn. intros <- <- <- <-. destruct V, d, D; reflexivity.
Qed.

Lemma built_s_ext x y :
  dCoef_ x = dCoef_ y -> DCoef_ x = DCoef_ y -> built_s x = built_s y.
Proof.
  destruct x as [h w im dt V d D S dbc nV c1 c2 c3 a b s k qe qi r xs].
  destruct y as [h' w' im' dt' V' d' D' S' dbc' nV' c1' c2' c3' a' b' s' k'
                 qe' qi' r' xs'].
  cbn. intros <- <-. destruct d, D; reflexivity.
Qed.

Lemma built_k_ext x y :
  VCoef_ x = VCoef_ y -> negVCoef_ x = negVCoef_ y -> built_k x = built_k y.
Proof.
  destruct x as [h w im dt V d D S dbc nV c1 c2 c3 a b s k qe qi r xs].
  destruct y as [h' w' im' dt' V' d' D' S' dbc' nV' c1' c2' c3' a' b' s' k'
                 qe' qi' r' xs'].
  cbn. intros <- <-. destruct V; reflexivity.
Qed.

Lemma up_to_date_if_null (c b : option Form) :
  up_to_date c b -> up_to_date (if_null c b) b.
Proof.
  unfold up_to_date. destruct c; cbn; intros [H|H]; auto.
Qed.


Ltac same_built x :=
  repeat match goal with
  | |- context [built_a ?y] =>
      lazymatch y with x => fail | _ => idtac end;
      rewrite (built_a_ext y x)
        by (try reflexivity; intros; try reflexivity; congruence)
  | |- context [built_b ?y] =>
      lazymatch y with x => fail | _ => idtac end;
      rewrite (built_b_ext y x) by reflexivity
  | |- context [built_s ?y] =>
      lazymatch y with x => fail | _ => idtac end;
      rewrite (built_s_ext y x) by reflexivity
  | |- context [built_k ?y] =>
      lazymatch y with x => fail | _ => idtac end;
      rewrite (built_k_ext y x) by reflexivity
  end.

Lemma SetTime_invariant x : class_invariant x -> class_invariant (SetTime x).
Proof.
  intros (Hm & (Ha & Hb & Hs & Hk) & Hc).
  pose proof (SetTime_q_exp x) as Hq.
  rewrite SetTime_eq. revert Hq.
  generalize (q_exp_ (SetTime x)) (q_imp_ (SetTime x)). intros qe qi Hq.
  unfold class_invariant, forms_of_mode, forms_up_to_date in *.
  cbn [a_ b_ s_ k_ q_exp_ q_imp_ imex_ set_forms].
  same_built x.
  split; [|split; [|exact Hc]].
  - destruct (imex_ x); [exact Hm|].
    destruct Hm as (? & ? & ?). repeat split; auto.
    rewrite Hq by reflexivity. assumption.
  - destruct (imex_ x); repeat split;
      auto using up_to_date_if_null.
Qed.

Lemma up_to_date_None b : up_to_date None b.
Proof. left. reflexivity. Qed.

Lemma in_step_new_if_null x y c :
  dt_ y = dt_ x -> in_step x c -> in_step y (new_if_null (dt_ x) c).
Proof.
  intros E. destruct c; cbn; intros H; congruence.
Qed.


(** Closes [up_to_date c (built_ y)] for a form that was deleted, that the
    mode never builds, or whose coefficients [y] shares with [x]. *)
Ltac utd x :=
  lazymatch goal with
  | |- up_to_date ?c ?b =>
      let c' := eval cbn in c in change (up_to_date c' b)
  end;
  first
  [ apply up_to_date_None
  | match goal with
    | H : ?c = None |- up_to_date ?c _ => rewrite H; apply up_to_date_None
    end
  | match goal with
    | |- up_to_date _ (built_a ?y) =>
        rewrite (built_a_ext y x)
          by (try reflexivity; intros HH; cbn in HH; congruence);
        assumption
    | |- up_to_date _ (built_b ?y) =>
        rewrite (built_b_ext y x) by reflexivity; assumption
    | |- up_to_date _ (built_s ?y) =>
        rewrite (built_s_ext y x) by reflexivity; assumption
    | |- up_to_date _ (built_k ?y) =>
        rewrite (built_k_ext y x) by reflexivity; assumption
    end ].

Ltac unfold_invariant :=
  unfold class_invariant, forms_of_mode, forms_up_to_date,
    coefficients_in_step in *.

Lemma SetAdvectionCoefficient_invariant x :
  class_invariant x -> class_invariant (SetAdvectionCoefficient x).
Proof.
  unfold_invariant. intros (Hm & (Ha & Hb & Hs & Hk) & (H1 & H2 & H3)).
  unfold SetAdvectionCoefficient.
  cbn [imex_ set_coefs set_dt].
  destruct (imex_ x) eqn:Him; [|destruct Hm as (Hms & Hmk & Hmq)];
    (split; [cbn; rewrite ?Him; auto|]);
    (split; [repeat split; utd x|]);
    (split; [apply in_step_new_if_null; [reflexivity|exact H1]|]);
    (split; [exact H2|exact H3]).
Qed.

Lemma SetDiffusionCoefficient_invariant x :
  class_invariant x -> class_invariant (SetDiffusionCoefficient x).
Proof.
  unfold_invariant. intros (Hm & (Ha & Hb & Hs & Hk) & (H1 & H2 & H3)).
  unfold SetDiffusionCoefficient.
  cbn [imex_ set_coefs set_dt].
  destruct (imex_ x) eqn:Him; [|destruct Hm as (Hms & Hmk & Hmq)];
    (split; [cbn; rewrite ?Him; auto|]);
    (split; [repeat split; utd x|]);
    (split; [exact H1|]);
    (split; [apply in_step_new_if_null; [reflexivity|exact H2]|exact H3]).
Qed.

Lemma SetDiffusionCoefficient_Matrix_invariant x :
  class_invariant x -> class_invariant (SetDiffusionCoefficient_Matrix x).
Proof.
  unfold_invariant. intros (Hm & (Ha & Hb & Hs & Hk) & (H1 & H2 & H3)).
  unfold SetDiffusionCoefficient_Matrix.
  cbn [imex_ set_coefs set_dt].
  destruct (imex_ x) eqn:Him; [|destruct Hm as (Hms & Hmk & Hmq)];
    (split; [cbn; rewrite ?Him; auto|]);
    (split; [repeat split; utd x|]);
    (split; [exact H1|]);
    (split; [exact H2|apply in_step_new_if_null; [reflexivity|exact H3]]).
Qed.

(** The three setters that only discard the right-hand sides. *)
Lemma rhs_setters_invariant x :
  class_invariant x ->
  class_invariant (SetSourceCoefficient x)
  /\ class_invariant (SetDirichletBC x)
  /\ class_invariant (SetNeumannBC x).
Proof.
  unfold_invariant. intros (Hm & (Ha & Hb & Hs & Hk) & (H1 & H2 & H3)).
  unfold SetSourceCoefficient, SetDirichletBC, SetNeumannBC.
  destruct (imex_ x) eqn:Him; [|destruct Hm as (Hms & Hmk & Hmq)];
    repeat split;
    try (cbn; rewrite ?Him; auto; fail);
    try (utd x);
    try assumption.
Qed.

Lemma ImplicitSolve_invariant dt x x' tr :
  class_invariant x -> ImplicitSolve dt x = Ok (x', tr) ->
  class_invariant x'.
Proof.
  unfold ImplicitSolve. intros Hinv.
  destruct (time_step_changed dt x); cbn;
    destruct (a_ x); cbn; intros H; try discriminate H;
    inversion H; subst; clear H; [|exact Hinv].
  revert Hinv. unfold_invariant.
  intros (Hm & (Ha & Hb & Hs & Hk) & (H1 & H2 & H3)).
  split; [exact Hm|]. split.
  - repeat split; utd x.
  - cbn [dtNegVCoef_ dtdCoef_ dtDCoef_ set_dt].
    repeat split;
      [destruct (dtNegVCoef_ x)|destruct (dtdCoef_ x)|destruct (dtDCoef_ x)];
      cbn; auto.
Qed.

Lemma Update_invariant fes x x' tr :
  class_invariant x -> Update fes x = Ok (x', tr) -> class_invariant x'.
Proof.
  unfold Update. intros Hinv. cbn.
  destruct (a_ x); cbn; intros H; try discriminate H;
    inversion H; subst; clear H.
  revert Hinv. unfold_invariant.
  intros (Hm & (Ha & Hb & Hs & Hk) & (H1 & H2 & H3)).
  split; [exact Hm|]. split.
  - repeat split; utd x.
  - repeat split; assumption.
Qed.

Lemma call_invariant m x x' :
  class_invariant x -> call m x = Ok x' -> class_invariant x'.
Proof.
  intros Hinv. destruct m; cbn [call]; intros H.
  - inversion H; subst. apply SetTime_invariant, Hinv.
  - inversion H; subst. apply SetAdvectionCoefficient_invariant, Hinv.
  - inversion H; subst. apply SetDiffusionCoefficient_invariant, Hinv.
  - inversion H; subst. apply SetDiffusionCoefficient_Matrix_invariant, Hinv.
  - inversion H; subst. apply (rhs_setters_invariant x Hinv).
  - inversion H; subst. apply (rhs_setters_invariant x Hinv).
  - inversion H; subst. apply (rhs_setters_invariant x Hinv).
  - destruct (ExplicitMult x); cbn in H; inversion H; subst. exact Hinv.
  - destruct (ImplicitSolve dt x) as [[y tr]| |] eqn:E; cbn in H;
      inversion H; subst. exact (ImplicitSolve_invariant dt x _ _ Hinv E).
  - destruct (Update fes x) as [[y tr]| |] eqn:E; cbn in H;
      inversion H; subst. exact (Update_invariant fes x _ _ Hinv E).
Qed.

(** The methods never assign [imex_]. *)
Lemma call_imex m x x' : call m x = Ok x' -> imex_ x' = imex_ x.
Proof.
  destruct m; cbn [call]; intros H.
  - inversion H; subst. apply imex_SetTime.
  - inversion H; subst. apply (imex_is_constant example_fes 0 x).
  - inversion H; subst. apply (imex_is_constant example_fes 0 x).
  - inversion H; subst. apply (imex_is_constant example_fes 0 x).
  - inversion H; subst. reflexivity.
  - inversion H; subst. reflexivity.
  - inversion H; subst. reflexivity.
  - destruct (ExplicitMult x); cbn in H; inversion H; subst. reflexivity.
  - destruct (ImplicitSolve dt x) as [[y tr]| |] eqn:E; cbn in H;
      inversion H; subst.
    exact (proj1 (proj2 (proj2 (proj2 (proj2
             (imex_is_constant example_fes dt x))))) _ _ E).
  - destruct (Update fes x) as [[y tr]| |] eqn:E; cbn in H;
      inversion H; subst.
    exact (proj2 (proj2 (proj2 (proj2 (proj2
             (imex_is_constant fes 0 x))))) _ _ E).
Qed.

(** What holds of a new operator and is kept by every call holds after
    any sequence of calls that returns. *)
Lemma run_invariant ms : forall x x',
  class_invariant x -> run ms x = Ok x' ->
  class_invariant x' /\ imex_ x' = imex_ x.
Proof.
  induction ms as [|m ms IH]; intros x x' Hinv H; cbn in H.
  - inversion H; subst. auto.
  - destruct (call m x) as [y| |] eqn:E; cbn in H; try discriminate H.
    destruct (IH y x' (call_invariant m x y Hinv E) H) as (Hi & Hm).
    split; [exact Hi|]. rewrite Hm. exact (call_imex m x y E).
Qed.

End AdvectionDiffusionInvariant.

Section AdvectionDiffusionProperties.

Import Lib DGAdvectionDiffusionTDO.
Local Open Scope R_scope.

(** X10. The bilinear forms are never stale: after any sequence of calls
    of the public methods on a new operator, each of [a_], [b_], [s_] and
    [k_] is either [NULL] or the form that its [init] function would build
    from the coefficients set at that moment: every setter deletes the
    forms that depend on the coefficient it replaces. *)
Theorem bilinear_forms_never_stale (fes : ParFiniteElementSpace) (imex : bool)
  (ms : list Method) (x : t) :
  run ms (new fes imex) = Ok x -> forms_up_to_date x.
Proof.
  intros H.
  destruct (run_invariant ms _ x (new_invariant fes imex) H)
    as ((_ & Hf & _) & _).
  exact Hf.
Qed.

(** A run of X10: the IMEX example operator. *)
Lemma bilinear_forms_never_stale_witness : forms_up_to_date example_imex.
Proof.
  apply (bilinear_forms_never_stale example_fes true
           [CallSetDiffusionCoefficient; CallSetTime]).
  vm_compute. reflexivity.
Defined.

(** X11. The mode is fixed at construction and decides which forms exist:
    after any sequence of calls on an operator built with [imex], [imex_]
    still is [imex]; an IMEX operator never allocates [b_], and a fully
    implicit one never allocates [s_], [k_] or [q_exp_]. *)
Theorem forms_follow_mode (fes : ParFiniteElementSpace) (imex : bool)
  (ms : list Method) (x : t) :
  run ms (new fes imex) = Ok x ->
  imex_ x = imex
  /\ (imex = true -> b_ x = None)
  /\ (imex = false -> s_ x = None /\ k_ x = None /\ q_exp_ x = None).
Proof.
  intros H.
  destruct (run_invariant ms _ x (new_invariant fes imex) H)
    as ((Hm & _ & _) & Hi).
  cbn in Hi. unfold forms_of_mode in Hm. rewrite Hi in Hm.
  split; [exact Hi|]. split; intros ->; exact Hm.
Qed.

(** A run of X11: the fully implicit example operator. *)
Lemma forms_follow_mode_witness :
  s_ example_implicit = None /\ k_ example_implicit = None
  /\ q_exp_ example_implicit = None.
Proof.
  refine (proj2 (proj2 (forms_follow_mode example_fes false
                          [CallSetDiffusionCoefficient; CallSetTime]
                          example_implicit _)) eq_refl).
  vm_compute. reflexivity.
Defined.

(** X12. The [dt]-scaled coefficients follow the time step: after any
    sequence of calls on a new operator, every one of [dtNegVCoef_],
    [dtdCoef_] and [dtDCoef_] that is allocated carries the factor
    [dt_]. *)
Theorem coefficients_follow_dt (fes : ParFiniteElementSpace) (imex : bool)
  (ms : list Method) (x : t) :
  run ms (new fes imex) = Ok x ->
  forall c, In (Some c) [dtNegVCoef_ x; dtdCoef_ x; dtDCoef_ x] ->
            AConst c = dt_ x.
Proof.
  intros H.
  destruct (run_invariant ms _ x (new_invariant fes imex) H)
    as ((_ & _ & (H1 & H2 & H3)) & _).
  unfold in_step in *.
  intros c [E|[E|[E|[]]]]; rewrite E in *; assumption.
Qed.

(** A run of X12: the coefficient allocated before the first solve holds
    the initial [dt_ = -1]. *)
Lemma coefficients_follow_dt_witness :
  exists c, dtdCoef_ example_imex = Some c /\ AConst c = -1.
Proof.
  exists {| AConst := -1 |}. split; [reflexivity|].
  apply (coefficients_follow_dt example_fes true
           [CallSetDiffusionCoefficient; CallSetTime] example_imex).
  - vm_compute. reflexivity.
  - right. left. reflexivity.
Defined.

(** [SetTime] builds a right-hand side only when it finds none. *)
Lemma SetTime_keeps_rhs x :
  (q_imp_ x <> None -> q_imp_ (SetTime x) = q_imp_ x)
  /\ (q_exp_ x <> None -> q_exp_ (SetTime x) = q_exp_ x).
Proof.
  unfold SetTime. rewrite (initA_eq x).
  destruct x as [h w [|] dt V d D S dbc nV c1 c2 c3 a b s k
                 [qe|] [qi|] r xs];
    cbn [imex_ set_forms];
    rewrite ?initS_eq, ?initK_eq, ?initB_eq;
    (split; intros Hn; try (exfalso; apply Hn; reflexivity));
    try reflexivity;
    destruct S, dbc, d, D, V; reflexivity.
Qed.

(** X13. The right-hand sides outlive a change of the advection or
    diffusion coefficient: [SetAdvectionCoefficient] and both
    [SetDiffusionCoefficient] leave [q_exp_] and [q_imp_] as they are, and
    the next [SetTime] keeps a right-hand side that is allocated, although
    [initQ] builds it from these coefficients. *)
Theorem right_hand_sides_survive_coefficient_change (x : t)
  (set : t -> t) :
  In set [SetAdvectionCoefficient; SetDiffusionCoefficient;
          SetDiffusionCoefficient_Matrix] ->
  q_imp_ (set x) = q_imp_ x /\ q_exp_ (set x) = q_exp_ x
  /\ (q_imp_ x <> None -> q_imp_ (SetTime (set x)) = q_imp_ x)
  /\ (q_exp_ x <> None -> q_exp_ (SetTime (set x)) = q_exp_ x).
Proof.
  intros Hset.
  assert (E : q_imp_ (set x) = q_imp_ x /\ q_exp_ (set x) = q_exp_ x).
  { destruct Hset as [<-|[<-|[<-|[]]]];
      unfold SetAdvectionCoefficient, SetDiffusionCoefficient,
        SetDiffusionCoefficient_Matrix; cbn;
      destruct (imex_ x); split; reflexivity. }
  destruct E as (Ei & Ee). split; [exact Ei|]. split; [exact Ee|].
  destruct (SetTime_keeps_rhs (set x)) as (Ki & Ke).
  rewrite Ei in Ki. rewrite Ee in Ke.
  split; intros Hn; [apply Ki|apply Ke]; exact Hn.
Qed.

(** A run of X13: the right-hand side of [example_rhs] keeps lacking the
    Dirichlet term of the diffusion coefficient set after it was built. *)
Lemma right_hand_sides_survive_coefficient_change_witness :
  q_imp_ (SetTime (SetDiffusionCoefficient example_rhs))
  = Some ["SCoef_"%string].
Proof.
  refine (proj1 (proj2 (proj2
    (right_hand_sides_survive_coefficient_change example_rhs
       SetDiffusionCoefficient _))) _).
  - right. left. reflexivity.
  - discriminate.
Defined.

(** X14. Unlike the bilinear forms, the implicit right-hand side can be
    stale: setting the Dirichlet condition and the source, calling
    [SetTime], and only then setting the diffusion coefficient leaves,
    after the next [SetTime], a [q_imp_] that differs from the one [initQ]
    builds from the coefficients now set (it lacks the Dirichlet boundary
    integrator of the diffusion term), in either mode. *)
Theorem right_hand_side_can_be_stale (fes : ParFiniteElementSpace)
  (imex : bool) :
  exists x,
    run [CallSetDirichletBC; CallSetSourceCoefficient; CallSetTime;
         CallSetDiffusionCoefficient; CallSetTime] (new fes imex) = Ok x
    /\ q_imp_ x <> None
    /\ q_imp_ x <> built_q_imp x
    /\ forms_up_to_date x.
Proof.
  exists (SetTime (SetDiffusionCoefficient
            (SetTime (SetSourceCoefficient
               (SetDirichletBC (new fes imex)))))).
  split; [reflexivity|].
  destruct imex;
    (split; [intros H; vm_compute in H; discriminate H|]);
    (split; [intros H; vm_compute in H; discriminate H|]);
    unfold forms_up_to_date, up_to_date;
    repeat split;
    first [left; vm_compute; reflexivity|right; vm_compute; reflexivity].
Qed.

(** X15. [ImplicitSolve] and [Update] need [a_]: they dereference it
    unguarded, so they fault exactly when [a_] is [NULL].  That is the
    case on a new operator and right after either
    [SetDiffusionCoefficient] and, for a fully implicit operator, after
    [SetAdvectionCoefficient]; after [SetTime] it never is. *)
Theorem ImplicitSolve_needs_SetTime (fes : ParFiniteElementSpace)
  (imex : bool) (dt : R) (x : t) :
  (ImplicitSolve dt x = Fault <-> a_ x = None)
  /\ (Update fes x = Fault <-> a_ x = None)
  /\ (forall msg, ImplicitSolve dt x <> Abort msg /\ Update fes x <> Abort msg)
  /\ a_ (new fes imex) = None
  /\ a_ (SetDiffusionCoefficient x) = None
  /\ a_ (SetDiffusionCoefficient_Matrix x) = None
  /\ (imex_ x = false -> a_ (SetAdvectionCoefficient x) = None)
  /\ a_ (SetTime x) <> None.
Proof.
  split; [|split; [|split; [|split; [|split; [|split; [|split]]]]]].
  - unfold ImplicitSolve. destruct (time_step_changed dt x); cbn;
      destruct (a_ x); cbn; split; intros H; try reflexivity;
      discriminate H.
  - unfold Update. cbn. destruct (a_ x); cbn; split; intros H;
      try reflexivity; discriminate H.
  - intros msg. unfold ImplicitSolve, Update. cbn.
    destruct (time_step_changed dt x); cbn; destruct (a_ x); cbn;
      split; discriminate.
  - reflexivity.
  - unfold SetDiffusionCoefficient. cbn. destruct (imex_ x); reflexivity.
  - unfold SetDiffusionCoefficient_Matrix. cbn.
    destruct (imex_ x); reflexivity.
  - intros Hi. unfold SetAdvectionCoefficient. cbn. rewrite Hi. reflexivity.
  - apply SetTime_allocates_a.
Qed.

(** A run of X15: a fully implicit operator after
    [SetAdvectionCoefficient]. *)
Lemma ImplicitSolve_needs_SetTime_witness :
  a_ (SetAdvectionCoefficient example_implicit) = None.
Proof.
  exact (proj1 (proj2 (proj2 (proj2 (proj2 (proj2 (proj2
    (ImplicitSolve_needs_SetTime example_fes false 0 example_implicit)))))))
    eq_refl).
Defined.

Lemma set_dt_twice dt c1 c2 c3 x :
  let f := option_map (SetAConst dt) in
  set_dt dt (f (f c1)) (f (f c2)) (f (f c3)) (set_dt dt (f c1) (f c2) (f c3) x)
  = set_dt dt (f c1) (f c2) (f c3) x.
Proof.
  destruct c1, c2, c3; reflexivity.
Qed.

(** X16. The time step of [ImplicitSolve].  When the call returns, the
    stored [dt_] is within the relative tolerance [1e-4] of the requested
    [dt]; a stored step that is negative, as the constructor's [-1], is
    always replaced; and a second call with the same [dt] finds nothing to
    change: it returns the same operator and makes the same calls. *)
Theorem ImplicitSolve_time_step (dt : R) (x x' : t) (tr : Trace) :
  ImplicitSolve dt x = Ok (x', tr) ->
  Rabs (dt - dt_ x') <= 1e-4 * Rabs (dt_ x')
  /\ (dt_ x < 0 -> dt_ x' = dt)
  /\ ImplicitSolve dt x' = Ok (x', tr).
Proof.
  unfold ImplicitSolve. cbv zeta.
  destruct (time_step_changed dt x) eqn:E.
  - set (y := set_dt dt _ _ _ x).
    destruct (a_ y) eqn:Ea; cbn [deref bind]; intros H; [|discriminate H].
    injection H as Hx Htr. subst x' tr.
    split; [|split; [reflexivity|]].
    + cbn [dt_ set_dt y]. replace (dt - dt) with 0 by ring.
      rewrite Rabs_R0. pose proof (Rabs_pos dt). lra.
    + match goal with
      | |- context [if time_step_changed dt y then ?a else y] =>
          assert (Hy : (if time_step_changed dt y then a else y) = y)
      end.
      { destruct (time_step_changed dt y); [|reflexivity].
        unfold y. apply (set_dt_twice dt). }
      rewrite Hy, Ea. reflexivity.
  - assert (Hn : ~ Rabs (dt - dt_ x) > 1e-4 * dt_ x).
    { intros Hc. apply time_step_changed_true in Hc. congruence. }
    destruct (a_ x) eqn:Ea; cbn [deref bind]; intros H; [|discriminate H].
    injection H as Hx Htr. subst x' tr.
    pose proof (Rabs_pos (dt - dt_ x)). pose proof (Rle_abs (dt_ x)).
    split; [lra|]. split; [intros Hneg; exfalso; apply Hn; lra|].
    rewrite E, Ea. reflexivity.
Qed.

(** A run of X16: the first solve of the IMEX example operator adopts the
    step 0.5, and a second solve with 0.5 changes nothing. *)
Lemma ImplicitSolve_time_step_witness :
  exists x' tr,
    ImplicitSolve 0.5 example_imex = Ok (x', tr)
    /\ dt_ x' = 0.5
    /\ ImplicitSolve 0.5 x' = Ok (x', tr).
Proof.
  destruct (proj1 (ImplicitSolve_dt_state 0.5 example_imex))
    as (x' & tr & H); [vm_compute; discriminate|].
  destruct (ImplicitSolve_time_step 0.5 example_imex x' tr H)
    as (_ & Hneg & Hagain).
  exists x', tr. split; [exact H|]. split; [|exact Hagain].
  apply Hneg. cbn. lra.
Defined.

End AdvectionDiffusionProperties.

(** ** Further properties of [DiffusionTDO] *)

Section DiffusionProperties.

Import Lib DiffusionTDO.
Local Open Scope R_scope.

(** [initSolver] on a new or an assembled operator. *)
Lemma initSolver_assembled dt x :
  fresh x = true \/ assembled x ->
  forall x' tr, initSolver dt x = Ok (x', tr) ->
    assembled x' /\ dg_sigma_ x' = dg_sigma_ x
    /\ (Rabs (dt - dt_ x) > 1e-4 * dt -> dt_ x' = dt /\ rebuilt tr)
    /\ (~ Rabs (dt - dt_ x) > 1e-4 * dt -> x' = x /\ tr = []).
Proof.
  intros Hinv x' tr. unfold initSolver.
  destruct (time_step_changed dt x) eqn:E.
  - apply Diffusion_time_step_changed_true in E.
    destruct x as [d sg c [M|] [A|] [S|]];
      cbn; destruct (Req_dec_T sg (-1)) as [Hs|Hs]; cbn;
      intros H; injection H as <- <-;
      unfold assembled, solver_for, rebuilt; cbn;
      destruct (Req_dec_T sg (-1)); try contradiction;
      (split; [auto|]); (split; [reflexivity|]);
      (split; [intros _; intuition auto|intros Hn; contradiction]).
  - assert (Hn : ~ Rabs (dt - dt_ x) > 1e-4 * dt).
    { intros Hc. apply Diffusion_time_step_changed_true in Hc. congruence. }
    destruct Hinv as [Hf|Ha].
    + destruct x as [d sg c [M|] [A|] [S|]]; cbn in Hf; try discriminate Hf.
      cbn. intros H. discriminate H.
    + pose proof Ha as (_ & HM & HA & HS).
      rewrite HM, HA, HS. cbn. rewrite HA, HS. cbn.
      intros H. injection H as <- <-.
      split; [exact Ha|]. split; [reflexivity|].
      split; [intros Hc; contradiction|auto].
Qed.

(** [initSolver] asks the solver for no solve. *)
Lemma initSolver_no_solve dt x x' tr :
  initSolver dt x = Ok (x', tr) -> filter is_solve tr = [].
Proof.
  unfold initSolver.
  destruct (time_step_changed dt x);
    destruct x as [d sg c [M|] [A|] [S|]]; cbn;
    try destruct (Req_dec_T sg (-1)); cbn;
    intros H; try discriminate H; injection H as <- <-; reflexivity.
Qed.

(** [ImplicitSolve] returns what [initSolver] returns, after [dim_]
    solves with the solver it finds. *)
Lemma ImplicitSolve_initSolver dim dt x :
  match initSolver dt x with
  | Ok (x1, tri) =>
      solver_ x1 <> None ->
      exists tr, ImplicitSolve dim dt x = Ok (x1, tr)
                 /\ length (filter is_solve tr) = dim
  | Abort msg => ImplicitSolve dim dt x = Abort msg
  | Fault => ImplicitSolve dim dt x = Fault
  end.
Proof.
  unfold ImplicitSolve.
  destruct (initSolver dt x) as [[x1 tri]| |] eqn:E; cbn [bind];
    [|reflexivity|reflexivity].
  intros Hs. destruct (solver_ x1) as [S|] eqn:ES; [|congruence].
  pose proof (initSolver_no_solve dt x x1 tri E) as Hno.
  match goal with
  | |- exists tr, bind (for_loop dim ?body ?init) _ = _ /\ _ =>
      assert (H : exists tr, for_loop dim body init = Ok tr
                             /\ length (filter is_solve tr) = dim)
  end.
  { apply (for_loop_invariant (fun j r =>
      exists tr, r = Ok tr /\ length (filter is_solve tr) = j)).
    - eexists. split; [reflexivity|]. cbn. rewrite Hno. reflexivity.
    - intros j r Hj (tr & -> & Hc). cbn.
      eexists. split; [reflexivity|].
      rewrite filter_app, length_app, Hc. cbn. lia. }
  destruct H as (tr & -> & Hc). cbn. eauto.
Qed.

Lemma ImplicitSolve_inv dim dt x x' tr :
  ImplicitSolve dim dt x = Ok (x', tr) ->
  exists tri, initSolver dt x = Ok (x', tri).
Proof.
  unfold ImplicitSolve.
  destruct (initSolver dt x) as [[x1 tri]| |]; cbn [bind];
    [|discriminate|discriminate].
  destruct (for_loop dim _ _); cbn; intros H; try discriminate H.
  injection H as <- <-. eauto.
Qed.

Lemma assembled_solver x : assembled x -> solver_ x <> None.
Proof. intros (_ & _ & _ & ->). discriminate. Qed.

(** [ImplicitSolve] on a new operator. *)
Lemma ImplicitSolve_new (dim_ : nat) (dg_sigma dt : R) :
  (dt = 0 -> ImplicitSolve dim_ dt (new dg_sigma) = Fault)
  /\ (dt <> 0 ->
      exists x tr,
        ImplicitSolve dim_ dt (new dg_sigma) = Ok (x, tr)
        /\ dt_ x = dt /\ dg_sigma_ x = dg_sigma /\ assembled x
        /\ length (filter is_solve tr) = dim_).
Proof.
  assert (Hch : dt <> 0 -> Rabs (dt - dt_ (new dg_sigma)) > 1e-4 * dt).
  { intros Hd. cbn. replace (dt - 0) with dt by ring.
    destruct (Rcase_abs dt) as [Hn|Hp].
    - rewrite Rabs_left by exact Hn. lra.
    - rewrite Rabs_right by exact Hp. lra. }
  pose proof (ImplicitSolve_initSolver dim_ dt (new dg_sigma)) as HI.
  split.
  - intros ->.
    assert (E : initSolver 0 (new dg_sigma) = Fault).
    { unfold initSolver, time_step_changed. cbn.
      destruct (Rgt_dec _ _) as [H|H]; [|reflexivity].
      replace (0 - 0) with 0 in H by ring. rewrite Rabs_R0 in H. lra. }
    rewrite E in HI. exact HI.
  - intros Hd.
    destruct (proj1 (initSolver_rebuilds dt (new dg_sigma)
                       (or_introl (new_fresh dg_sigma)))
                (or_introl (Hch Hd))) as (x & tri & E).
    rewrite E in HI.
    destruct (initSolver_assembled dt (new dg_sigma)
                (or_introl (new_fresh dg_sigma)) x tri E)
      as (Ha & Hs & Hc & _).
    destruct (HI (assembled_solver x Ha)) as (tr & Htr & Hn).
    exists x, tr. split; [exact Htr|].
    split; [exact (proj1 (Hc (Hch Hd)))|]. auto.
Qed.

(** X17. The first solve of a [DiffusionTDO].  The constructor sets
    [dt_ = 0.0] and builds no matrix, so a first [ImplicitSolve] with
    [dt = 0] finds the time step unchanged and dereferences the [NULL]
    matrix; with any other [dt] it assembles the matrix with the factor
    [dt], builds the preconditioner and the solver on it, and then solves
    once for each of the [dim_] components. *)
Theorem ImplicitSolve_first_call (dim_ : nat) (dg_sigma dt : R) :
  (dt = 0 -> ImplicitSolve dim_ dt (new dg_sigma) = Fault)
  /\ (dt <> 0 ->
      exists x tr,
        ImplicitSolve dim_ dt (new dg_sigma) = Ok (x, tr)
        /\ dt_ x = dt /\ dg_sigma_ x = dg_sigma /\ assembled x
        /\ length (filter is_solve tr) = dim_).
Proof. exact (ImplicitSolve_new dim_ dg_sigma dt). Qed.

(** A run of X17: a first solve with a zero time step. *)
Lemma ImplicitSolve_first_call_witness :
  ImplicitSolve 2 0 (new (-1)) = Fault.
Proof.
  exact (proj1 (ImplicitSolve_first_call 2 (-1) 0) eq_refl).
Defined.

(** Solves started from a new or an assembled operator. *)
Lemma solves_invariant dim dts : forall x x',
  fresh x = true \/ assembled x ->
  solves dim dts x = Ok x' ->
  dg_sigma_ x' = dg_sigma_ x
  /\ (dts = [] /\ x' = x
      \/ assembled x' /\ (In (dt_ x') dts \/ x' = x)).
Proof.
  induction dts as [|dt dts IH]; intros x x' Hinv H; cbn in H.
  - injection H as <-. auto.
  - destruct (ImplicitSolve dim dt x) as [[x1 tr]| |] eqn:E; cbn in H;
      try discriminate H.
    destruct (ImplicitSolve_inv dim dt x x1 tr E) as (tri & Ei).
    destruct (initSolver_assembled dt x Hinv x1 tri Ei)
      as (Ha & Hs & Hc & Hn).
    destruct (IH x1 x' (or_intror Ha) H) as (Hs' & Hx).
    split; [congruence|]. right.
    assert (Hx1 : dt_ x1 = dt \/ x1 = x).
    { destruct (Rgt_dec (Rabs (dt - dt_ x)) (1e-4 * dt)) as [Hg|Hg].
      - left. apply Hc, Hg.
      - right. apply Hn, Hg. }
    destruct Hx as [(-> & ->)|(Ha' & [Hin| ->])].
    + split; [exact Ha|]. destruct Hx1 as [<- | ->]; [left; left|right];
        reflexivity.
    + split; [exact Ha'|]. left. right. exact Hin.
    + split; [exact Ha|]. destruct Hx1 as [<- | ->]; [left; left|right];
        reflexivity.
Qed.

(** X18. What a [DiffusionTDO] holds is never stale: after any non-empty
    sequence of implicit solves on a new operator, the stored [dt_] is one
    of the time steps that were requested, [dtNuCoef_] carries it, and the
    matrix, the preconditioner and the solver all stem from one assembly
    with it; the solver is PCG when [dg_sigma_] is [-1] and GMRES
    otherwise. *)
Theorem solves_assembled (dim_ : nat) (dg_sigma : R) (dts : list R) (x : t) :
  dts <> [] ->
  solves dim_ dts (new dg_sigma) = Ok x ->
  In (dt_ x) dts /\ dg_sigma_ x = dg_sigma /\ assembled x.
Proof.
  intros Hne H.
  destruct (solves_invariant dim_ dts (new dg_sigma) x
              (or_introl (new_fresh dg_sigma)) H) as (Hs & Hx).
  destruct Hx as [(-> & _)|(Ha & [Hin| ->])].
  - contradiction.
  - auto.
  - destruct Ha as (_ & HM & _). discriminate HM.
Qed.

(** A run of X18: one solve with the time step 0.5. *)
Lemma solves_assembled_witness :
  exists x, solves 2 [0.5] (new (-1)) = Ok x /\ assembled x.
Proof.
  destruct (proj2 (ImplicitSolve_new 2 (-1) 0.5)) as (x & tr & E & _);
    [lra|].
  assert (H : solves 2 [0.5] (new (-1)) = Ok x)
    by (cbn [solves]; rewrite E; reflexivity).
  exists x. split; [exact H|].
  apply (solves_assembled 2 (-1) [0.5] x); [discriminate|exact H].
Defined.

(** X19. Repeating a solve with the stored time step: on an assembled
    operator with [dt_ >= 0] the call of [initSolver] with [dt_] makes no
    library call and changes nothing, while with [dt_ < 0] the test
    [fabs(dt - dt_) > 1e-4 * dt] holds on every call, so matrix,
    preconditioner and solver are built anew each time (to the same
    state). *)
Theorem initSolver_repeated (x : t) :
  assembled x ->
  (0 <= dt_ x -> initSolver (dt_ x) x = Ok (x, []))
  /\ (dt_ x < 0 ->
      exists tr, initSolver (dt_ x) x = Ok (x, tr) /\ rebuilt tr).
Proof.
  intros Ha.
  assert (Hb : built x = true).
  { destruct Ha as (_ & HM & HA & HS). unfold built.
    rewrite HM, HA, HS. reflexivity. }
  destruct (proj1 (initSolver_rebuilds (dt_ x) x (or_intror Hb))
              (or_intror Hb)) as (x' & tr & E).
  destruct (initSolver_assembled (dt_ x) x (or_intror Ha) x' tr E)
    as (Ha' & Hs & Hc & Hn).
  replace (dt_ x - dt_ x) with 0 in Hc, Hn by ring.
  rewrite Rabs_R0 in Hc, Hn. split.
  - intros Hpos. destruct Hn as (-> & ->); [lra|]. exact E.
  - intros Hneg. destruct Hc as (Hd & Hr); [lra|].
    exists tr. split; [|exact Hr].
    assert (Hx : x' = x).
    { destruct Ha as (A1 & A2 & A3 & A4), Ha' as (B1 & B2 & B3 & B4).
      destruct x as [d sg c M A S], x' as [d' sg' c' M' A' S'].
      cbn in *. subst. reflexivity. }
    rewrite Hx in E. exact E.
Qed.

Lemma example_assembled_is_assembled : assembled example_assembled.
Proof. unfold assembled. cbn. auto. Qed.

(** A run of X19: a second solve with the stored step 0.5. *)
Lemma initSolver_repeated_witness :
  initSolver 0.5 example_assembled = Ok (example_assembled, []).
Proof.
  apply (proj1 (initSolver_repeated example_assembled
                  example_assembled_is_assembled)).
  cbn. lra.
Defined.

End DiffusionProperties.

(** ** Further properties of [CombinedOp] *)

Section CombinedOpProperties.

Import Lib CombinedOp.
Local Open Scope Z_scope.

(** The base-class constructor, when the two arrays have the same size of
    at least five. *)
Lemma NLOperator_new_ok fes index ny nk :
  ny = nk -> (5 <= ny)%nat ->
  NLOperator.new fes index ny nk
  = Ok {| NLOperator.height := GetVSize fes;
          NLOperator.width := 5 * GetVSize fes;
          NLOperator.index_ := index;
          NLOperator.dt_ := 0%R;
          NLOperator.y1Coef_ := repeat SumCoefficient_new ny;
          NLOperator.blf_ := repeat None 5 |}.
Proof.
  intros <- H5. unfold NLOperator.new, MFEM_VERIFY.
  rewrite Nat.eqb_refl. cbn [bind].
  destruct (Nat.ltb_spec ny 5); [lia|]. reflexivity.
Qed.

Lemma NLOperator_new_mismatch fes index ny nk :
  ny <> nk ->
  NLOperator.new fes index ny nk = Abort "Mismatch in yGF and kGF sizes".
Proof.
  intros H. unfold NLOperator.new, MFEM_VERIFY.
  destruct (Nat.eqb_spec ny nk); [contradiction|]. reflexivity.
Qed.

Lemma NLOperator_new_short fes index ny nk :
  ny = nk -> (ny < 5)%nat -> NLOperator.new fes index ny nk = Fault.
Proof.
  intros <- H5. unfold NLOperator.new, MFEM_VERIFY.
  rewrite Nat.eqb_refl. cbn [bind].
  destruct (Nat.ltb_spec ny 5); [reflexivity|lia].
Qed.

Lemma bind_if {A B : Type} (b : bool) (a a' : A) (k : A -> result B) :
  bind (if b then Ok a else Ok a') k = k (if b then a else a').
Proof. destruct b; reflexivity. Qed.

(** The constructor, when the two arrays have the same size of at least
    five: operator [i] is the physical one or a [DummyOp], by bit [i] of
    [op_flag]. *)
Lemma new_ok fes ny nk offsets op_flag vis :
  ny = nk -> (5 <= ny)%nat ->
  exists p0 p1 p2 p3 p4 d0 d1 d2 d3 d4,
    new fes ny nk offsets op_flag vis
    = Ok (updateOffsets
            {| height := 0; width := 0; neq_ := 5;
               op_ := [if op_enabled op_flag 0 then NeutralDensity p0
                       else Dummy d0;
                       if op_enabled op_flag 1 then IonDensity p1
                       else Dummy d1;
                       if op_enabled op_flag 2 then IonMomentum p2
                       else Dummy d2;
                       if op_enabled op_flag 3 then IonStaticPressure p3
                       else Dummy d3;
                       if op_enabled op_flag 4 then ElectronStaticPressure p4
                       else Dummy d4];
               offsets_ := offsets |})
    /\ NeutralDensityOp.new fes ny nk (vis 0%nat) = Ok p0
    /\ IonDensityOp.new fes ny nk (vis 1%nat) = Ok p1
    /\ IonMomentumOp.new fes ny nk (vis 2%nat) = Ok p2
    /\ IonStaticPressureOp.new fes ny nk = Ok p3
    /\ ElectronStaticPressureOp.new fes ny nk = Ok p4
    /\ DummyOp.new fes ny nk 0 = Ok d0 /\ DummyOp.new fes ny nk 1 = Ok d1
    /\ DummyOp.new fes ny nk 2 = Ok d2 /\ DummyOp.new fes ny nk 3 = Ok d3
    /\ DummyOp.new fes ny nk 4 = Ok d4.
Proof.
  intros H H5.
  unfold new, NeutralDensityOp.new, IonDensityOp.new, IonMomentumOp.new,
    IonStaticPressureOp.new, ElectronStaticPressureOp.new, DummyOp.new.
  rewrite !(NLOperator_new_ok fes _ ny nk H H5). cbn [bind].
  rewrite !bind_if.
  eexists _, _, _, _, _, _, _, _, _, _.
  split; [reflexivity|]. repeat split.
Qed.

(** The five operators, one by one. *)
Lemma new_op fes ny nk offsets op_flag vis c i :
  new fes ny nk offsets op_flag vis = Ok c -> (i < 5)%nat ->
  exists op,
    nth_error (op_ c) i = Some op
    /\ NLOperator.index_ (base op) = i
    /\ Height op = GetVSize fes
    /\ NLOperator.dt_ (base op) = 0%R
    /\ is_dummy op = negb (op_enabled op_flag i)
    /\ forall j, (j < 5)%nat ->
         (nth j (NLOperator.blf_ (base op)) None <> None
          <-> couples (op_enabled op_flag i) i j = true).
Proof.
  intros Hnew Hi.
  destruct (Nat.eq_dec ny nk) as [E|E].
  2:{ exfalso. revert Hnew.
      unfold new, NeutralDensityOp.new, DummyOp.new.
      rewrite !(NLOperator_new_mismatch fes _ ny nk E).
      destruct (op_enabled op_flag 0); discriminate. }
  destruct (Nat.lt_ge_cases ny 5) as [H5|H5].
  { exfalso. revert Hnew.
    unfold new, NeutralDensityOp.new, DummyOp.new.
    rewrite !(NLOperator_new_short fes _ ny nk E H5).
    destruct (op_enabled op_flag 0); discriminate. }
  destruct (new_ok fes ny nk offsets op_flag vis E H5)
    as (p0 & p1 & p2 & p3 & p4 & d0 & d1 & d2 & d3 & d4 & Hc
        & P0 & P1 & P2 & P3 & P4 & D0 & D1 & D2 & D3 & D4).
  rewrite Hc in Hnew. injection Hnew as <-. clear Hc.
  unfold NeutralDensityOp.new, IonDensityOp.new, IonMomentumOp.new,
    IonStaticPressureOp.new, ElectronStaticPressureOp.new, DummyOp.new in *.
  rewrite (NLOperator_new_ok fes 0 ny nk E H5) in P0, D0.
  rewrite (NLOperator_new_ok fes 1 ny nk E H5) in P1, D1.
  rewrite (NLOperator_new_ok fes 2 ny nk E H5) in P2, D2.
  rewrite (NLOperator_new_ok fes 3 ny nk E H5) in P3, D3.
  rewrite (NLOperator_new_ok fes 4 ny nk E H5) in P4, D4.
  cbn [bind] in P0, P1, P2, P3, P4, D0, D1, D2, D3, D4.
  injection P0 as <-. injection P1 as <-. injection P2 as <-.
  injection P3 as <-. injection P4 as <-. injection D0 as <-.
  injection D1 as <-. injection D2 as <-. injection D3 as <-.
  injection D4 as <-.
  cbn [op_ updateOffsets].
  destruct i as [|[|[|[|[|i]]]]]; try lia; cbn [nth_error];
    (eexists; split; [reflexivity|]);
    destruct (op_enabled op_flag _); cbn;
    repeat (split; [reflexivity|]);
    intros j Hj; destruct j as [|[|[|[|[|j]]]]]; try lia; cbn;
    split; intros H; try reflexivity; try discriminate H;
    try discriminate; exfalso; apply H; reflexivity.
Qed.




(** X21. The block structure of the gradient that [UpdateGradient]
    assembles for an operator built by the constructor: block [(i, j)] is
    set exactly when equation [i] couples to field [j]: every diagonal
    block is set, whatever [op_flag] is; a physical operator has, besides,
    the block of the ion density (column 1), and the ion density operator
    the block of the neutral density; a [DummyOp] has its diagonal block
    only. *)
Theorem gradient_blocks (fes : ParFiniteElementSpace) (ny nk : nat)
  (offsets : list Z) (op_flag : Z) (vis : nat -> string -> bool)
  (c : CombinedOp.t) (i j : nat) :
  new fes ny nk offsets op_flag vis = Ok c ->
  (i < 5)%nat -> (j < 5)%nat ->
  (grad_block c i j <> None <-> couples (op_enabled op_flag i) i j = true)
  /\ grad_block c i i <> None.
Proof.
  intros Hnew Hi Hj.
  destruct (new_shape _ _ _ _ _ _ _ Hnew) as (Hn & _).
  destruct (new_op fes ny nk offsets op_flag vis c i Hnew Hi)
    as (op & Hop & _ & _ & _ & _ & Hblf).
  assert (Hg : forall j', (j' < 5)%nat ->
                 grad_block c i j' = nth j' (NLOperator.blf_ (base op)) None).
  { intros j' Hj'. unfold grad_block. rewrite Hn, Hop.
    destruct (Nat.ltb_spec i 5); [|lia].
    destruct (Nat.ltb_spec j' 5); [|lia]. cbn [andb].
    unfold NLOperator.GetGradientBlock.
    destruct (nth j' (NLOperator.blf_ (base op)) None); reflexivity. }
  rewrite !Hg by assumption. split; [apply Hblf, Hj|].
  apply (Hblf i Hi). unfold couples. rewrite Nat.eqb_refl. reflexivity.
Qed.

(** A run of X21 on [example]: the electron pressure equation does not
    couple to the ion momentum. *)
Lemma gradient_blocks_witness :
  grad_block example_op 4 4 <> None
  /\ (grad_block example_op 4 2 <> None <-> false = true).
Proof.
  assert (E : example = Ok example_op) by reflexivity.
  split.
  - apply (gradient_blocks example_fes 5 5 [0; 0; 0; 0; 0; 0] 31
             (fun _ _ => true) example_op 4 4 E); lia.
  - apply (gradient_blocks example_fes 5 5 [0; 0; 0; 0; 0; 0] 31
             (fun _ _ => true) example_op 4 2 E); lia.
Defined.

(** X22. What an evaluation does to [kGF_].  [CombinedOp::Mult],
    [UpdateGradient] and [PrepareDataFields] point [kGF_] at the blocks of
    their vector [k] and afterwards at [prev_k + offsets_[i]], where
    [prev_k] is the array of [kGF_[0]] on entry.  [kGF_] is therefore left
    as it was found when its grid functions lay at the offsets of one
    array; in general, and in particular when [kGF_] held no data on
    entry ([prev_k] is [NULL]), [kGF_[i]] is left at
    [prev_k + offsets_[i]]. *)
Theorem kGF_after_evaluation (k : Z) (x : CombinedOp.t)
  (kGF : list ParGridFunction)
  (f : Z -> CombinedOp.t -> list ParGridFunction -> list ParGridFunction) :
  In f [Mult; UpdateGradient; PrepareDataFields] ->
  length kGF = (length (offsets_ x) - 1)%nat ->
  (forall i, (i < length kGF)%nat ->
     nth_error (f k x kGF) i
     = Some {| GetData := GetData0 kGF + nth i (offsets_ x) 0 |})
  /\ length (f k x kGF) = length kGF
  /\ (forall base,
        nth 0 (offsets_ x) 0 = 0 -> (0 < length kGF)%nat ->
        DGTransportTDO.block_layout base (offsets_ x) kGF ->
        f k x kGF = kGF).
Proof.
  intros Hf Hl.
  assert (Ef : f = with_kGF_at).
  { destruct Hf as [<-|[<-|[<-|[]]]]; reflexivity. }
  subst f. unfold with_kGF_at.
  set (gf1 := repoint (length kGF) k (offsets_ x) kGF).
  assert (Hl1 : length gf1 = length kGF)
    by apply (repoint_spec (length kGF) k (offsets_ x) kGF).
  split; [|split].
  - intros i Hi. apply repoint_at; lia.
  - rewrite <- Hl1.
    apply (repoint_spec (length (offsets_ x) - 1) (GetData0 kGF)
             (offsets_ x) gf1).
  - intros base H0 Hpos Hb.
    assert (Hprev : GetData0 kGF = base).
    { unfold GetData0. destruct kGF as [|g t]; [cbn in Hpos; lia|].
      cbn. rewrite (Hb O g eq_refl), H0. lia. }
    rewrite Hprev.
    apply repoint_onto_block_layout; [lia|lia|exact Hb].
Qed.

(** A run of X22: five grid functions that view one array at address
    1000 with the offsets of [example_op]. *)
Lemma kGF_after_evaluation_witness :
  let kGF := map (fun o => {| GetData := 1000 + o |}) [0; 10; 20; 30; 40] in
  PrepareDataFields 7000 example_op kGF = kGF.
Proof.
  cbv zeta.
  refine (proj2 (proj2 (kGF_after_evaluation 7000 example_op _
                          PrepareDataFields _ _)) 1000 _ _ _).
  - right. right. left. reflexivity.
  - reflexivity.
  - reflexivity.
  - cbn. lia.
  - intros i g. destruct i as [|[|[|[|[|i]]]]]; cbn; intros H;
      try (destruct i; discriminate H); injection H as <-; reflexivity.
Defined.

(** Every entry of [offsets_] up to [neq_] after [updateOffsets]. *)
Lemma updateOffsets_entries x i :
  (neq_ x < length (offsets_ x))%nat -> (i <= neq_ x)%nat ->
  nth i (offsets_ (updateOffsets x)) 0 = Zsum i (Height_at (op_ x)).
Proof.
  intros Hlen Hi. unfold updateOffsets. cbn [offsets_].
  set (o1 := array_update (offsets_ x) 0 (fun _ => 0)).
  destruct (for_loop_array_update (fun i => (i + 1)%nat)
              (fun i (_ : Z) => Height_at (op_ x) i) (neq_ x) o1
              ltac:(intros a b H; cbv beta in H; lia)) as (Hl & Hin & Hout).
  set (o2 := for_loop _ _ o1) in *.
  assert (Hl1 : length o1 = length (offsets_ x))
    by apply length_array_update.
  unfold PartialSum. rewrite nth_PartialSum_from by lia.
  rewrite Zsum_shift.
  assert (H0 : nth 0 o2 0 = 0).
  { apply nth_of_nth_error. rewrite Hout by (intros; lia).
    unfold o1. rewrite nth_error_array_update_eq.
    destruct (nth_error (offsets_ x) 0) eqn:E; [reflexivity|].
    apply nth_error_None in E. lia. }
  rewrite H0. cbn [Z.add]. apply Zsum_ext. intros j Hj.
  apply nth_of_nth_error.
  replace (S j) with (j + 1)%nat by lia. rewrite (Hin j ltac:(lia)).
  destruct (nth_error o1 (j + 1)) eqn:E; [reflexivity|].
  apply nth_error_None in E. lia.
Qed.

(** The operator the constructor returns comes out of [updateOffsets]. *)
Lemma new_updateOffsets fes ny nk offsets op_flag vis c :
  new fes ny nk offsets op_flag vis = Ok c ->
  exists ops,
    c = updateOffsets {| height := 0; width := 0; neq_ := 5;
                         op_ := ops; offsets_ := offsets |}.
Proof.
  unfold new. intros H.
  repeat match type of H with
         | context [bind ?r _] =>
             destruct r; cbn [bind] in H; try discriminate H
         end.
  injection H as <-. eexists. reflexivity.
Qed.

(** X25. [offsets_] holds the block starts.  After [updateOffsets], for
    every [i] up to [neq_], [offsets_[i]] is the sum of the heights of the
    operators before [i], whatever the array held before; so after
    [CombinedOp::Update(fes)], and after the constructor (five operators,
    an offsets array of at least six entries), [offsets_[i]] is
    [i * fes.GetVSize()]. *)
Theorem offsets_are_block_starts (fes : ParFiniteElementSpace)
  (x : CombinedOp.t) (i : nat) :
  (neq_ x < length (offsets_ x))%nat -> (i <= neq_ x)%nat ->
  nth i (offsets_ (updateOffsets x)) 0 = Zsum i (Height_at (op_ x))
  /\ (length (op_ x) = neq_ x ->
      nth i (offsets_ (fst (Update fes x))) 0 = Z.of_nat i * GetVSize fes)
  /\ (forall ny nk offsets op_flag vis c,
        new fes ny nk offsets op_flag vis = Ok c ->
        (5 < length offsets)%nat -> (i <= 5)%nat ->
        nth i (offsets_ c) 0 = Z.of_nat i * GetVSize fes).
Proof.
  intros Hlen Hi. split; [apply updateOffsets_entries; assumption|]. split.
  - intros Hops. unfold Update.
    pose proof (Update_loop fes (op_ x) (neq_ x)) as HL. cbv zeta in HL.
    destruct (for_loop (neq_ x) _ (op_ x, [])) as [ops tr] eqn:EL.
    cbn [fst snd] in *. destruct HL as (Hl & Hin & _).
    rewrite updateOffsets_entries by (cbn; assumption). cbn [op_].
    apply Zsum_const. intros j Hj. unfold Height_at.
    rewrite (Hin j ltac:(lia)).
    destruct (nth_error (op_ x) j) as [op|] eqn:E.
    + cbn. apply Op_Update_spec.
    + apply nth_error_None in E. lia.
  - intros ny nk offsets op_flag vis c Hnew Hoff Hi5.
    destruct (new_updateOffsets _ _ _ _ _ _ _ Hnew) as (ops & Ec).
    pose proof Hnew as Hops. rewrite Ec.
    rewrite updateOffsets_entries by (cbn; assumption). cbn [op_].
    apply Zsum_const. intros j Hj. unfold Height_at.
    destruct (new_op _ _ _ _ _ _ _ j Hnew ltac:(lia))
      as (op & Eop & _ & Hh & _).
    rewrite Ec in Eop. cbn [updateOffsets op_] in Eop.
    rewrite Eop. exact Hh.
Qed.

(** A run of X25: the offsets of [example_op], built from an array of
    zeros, and after an update on a space of 7 degrees of freedom. *)
Lemma offsets_are_block_starts_witness :
  nth 3 (offsets_ example_op) 0 = 30
  /\ nth 3 (offsets_ (fst (Update {| GetVSize := 7; GetTrueVSize := 7 |}
                             example_op))) 0 = 21.
Proof.
  assert (E : example = Ok example_op) by (vm_compute; reflexivity).
  assert (Hlen : (neq_ example_op < length (offsets_ example_op))%nat)
    by (vm_compute; lia).
  assert (Hi : (3 <= neq_ example_op)%nat) by (vm_compute; lia).
  split.
  - exact (proj2 (proj2 (offsets_are_block_starts example_fes example_op 3
                           Hlen Hi))
             5%nat 5%nat [0; 0; 0; 0; 0; 0] 31 (fun _ _ => true) example_op
             E ltac:(cbn; lia) ltac:(lia)).
  - exact (proj1 (proj2 (offsets_are_block_starts
                           {| GetVSize := 7; GetTrueVSize := 7 |}
                           example_op 3 Hlen Hi)) eq_refl).
Defined.

Local Open Scope R_scope.

(** Running the same updating loop twice: the second pass acts on the
    result of the first. *)
Lemma for_loop_array_update_twice {A : Type} (f1 f2 : A -> A) n
  (l : list A) :
  (forall a, f2 (f1 a) = f2 a) ->
  for_loop n (fun i a => array_update a i f2)
    (for_loop n (fun i a => array_update a i f1) l)
  = for_loop n (fun i a => array_update a i f2) l.
Proof.
  intros Hf. apply nth_error_ext. intros k.
  destruct (for_loop_array_update (fun i => i) (fun _ => f1) n l
              ltac:(auto)) as (_ & Hin1 & Hout1).
  destruct (for_loop_array_update (fun i => i) (fun _ => f2) n l
              ltac:(auto)) as (_ & Hin2 & Hout2).
  destruct (for_loop_array_update (fun i => i) (fun _ => f2) n
              (for_loop n (fun i a => array_update a i f1) l)
              ltac:(auto)) as (_ & Hin & Hout).
  destruct (Nat.lt_ge_cases k n) as [Hk|Hk].
  - rewrite (Hin k Hk), (Hin1 k Hk), (Hin2 k Hk).
    destruct (nth_error l k); cbn; [now rewrite Hf|reflexivity].
  - rewrite Hout, Hout1, Hout2 by (intros; lia). reflexivity.
Qed.

Lemma NLOperator_SetTimeStep_twice dt1 dt2 b :
  NLOperator.SetTimeStep dt2 (NLOperator.SetTimeStep dt1 b)
  = NLOperator.SetTimeStep dt2 b.
Proof.
  unfold NLOperator.SetTimeStep.
  cbn [NLOperator.height NLOperator.width NLOperator.index_
       NLOperator.dt_ NLOperator.y1Coef_ NLOperator.blf_].
  f_equal. apply for_loop_array_update_twice. reflexivity.
Qed.

Lemma Op_SetTimeStep_twice dt1 dt2 op :
  Op_SetTimeStep dt2 (Op_SetTimeStep dt1 op) = Op_SetTimeStep dt2 op.
Proof.
  destruct op as [o|o|o|o|o|o]; cbn [Op_SetTimeStep]; f_equal;
    [unfold NeutralDensityOp.SetTimeStep
    |unfold IonDensityOp.SetTimeStep
    |unfold IonMomentumOp.SetTimeStep
    |unfold IonStaticPressureOp.SetTimeStep
    |unfold ElectronStaticPressureOp.SetTimeStep
    |unfold DummyOp.SetTimeStep];
    simpl; rewrite NLOperator_SetTimeStep_twice; reflexivity.
Qed.

(** [op->Update()] leaves the time step, the sum coefficients, the forms
    and the [dt]-scaled coefficients of the operator alone. *)
Lemma Op_Update_frame fes op :
  let op' := fst (Op_Update fes op) in
  NLOperator.dt_ (base op') = NLOperator.dt_ (base op)
  /\ NLOperator.index_ (base op') = NLOperator.index_ (base op)
  /\ NLOperator.y1Coef_ (base op') = NLOperator.y1Coef_ (base op)
  /\ NLOperator.blf_ (base op') = NLOperator.blf_ (base op)
  /\ dt_coefficients op' = dt_coefficients op.
Proof. destruct op; cbn; repeat split; reflexivity. Qed.

Lemma for_loop_ext {S : Type} n (b1 b2 : nat -> S -> S) (s : S) :
  (forall i t, (i < n)%nat -> b1 i t = b2 i t) ->
  for_loop n b1 s = for_loop n b2 s.
Proof.
  induction n as [|n IH]; intros H; [reflexivity|].
  cbn [for_loop]. rewrite IH by (intros; apply H; lia). apply H. lia.
Qed.

(** [op->Update()] and [op->SetTimeStep(dt)] act on different members. *)
Lemma Op_Update_SetTimeStep fes dt op :
  Op_Update fes (Op_SetTimeStep dt op)
  = (Op_SetTimeStep dt (fst (Op_Update fes op)), snd (Op_Update fes op)).
Proof. destruct op; reflexivity. Qed.

Lemma Height_Op_SetTimeStep dt op :
  Height (Op_SetTimeStep dt op) = Height op.
Proof. destruct op; reflexivity. Qed.

(** The loop of [CombinedOp::Update] on operators that were given a time
    step. *)
Lemma Update_loop_SetTimeStep fes dt n ops :
  let body := fun (i : nat) (st : list Op * Trace) =>
      let '(ops, tr) := st in
      match nth_error ops i with
      | Some op =>
          let '(op, tri) := Op_Update fes op in
          (array_update ops i (fun _ => op),
           tr ++ map (Within (Elem "op_" i)) tri)
      | None => (ops, tr)
      end in
  let S := for_loop n (fun i a => array_update a i (Op_SetTimeStep dt)) in
  for_loop n body (S ops, [])
  = (S (fst (for_loop n body (ops, []))), snd (for_loop n body (ops, []))).
Proof.
  intros body S.
  set (g := fun i : nat => if Nat.ltb i n then Op_SetTimeStep dt
                           else fun op => op).
  assert (HS : forall l i,
            nth_error (S l) i = option_map (g i) (nth_error l i)).
  { intros l i. unfold S, g.
    destruct (for_loop_array_update (fun i => i)
                (fun _ => Op_SetTimeStep dt) n l ltac:(auto))
      as (_ & Hin & Hout).
    destruct (Nat.ltb_spec i n) as [Hi|Hi].
    - apply Hin, Hi.
    - rewrite Hout by (intros; lia). now destruct (nth_error l i). }
  assert (Inv : forall k, (k <= n)%nat ->
    snd (for_loop k body (S ops, [])) = snd (for_loop k body (ops, []))
    /\ forall i, nth_error (fst (for_loop k body (S ops, []))) i
                 = option_map (g i)
                     (nth_error (fst (for_loop k body (ops, []))) i)).
  { induction k as [|k IH]; intros Hk.
    - cbn [for_loop fst snd]. split; [reflexivity|]. intros i. apply HS.
    - destruct (IH ltac:(lia)) as (Etr & Eops). cbn [for_loop].
      destruct (for_loop k body (S ops, [])) as [opsA trA].
      destruct (for_loop k body (ops, [])) as [opsB trB].
      cbn [fst snd] in Etr, Eops. subst trA. clear IH. unfold body.
      cbv beta iota.
      rewrite (Eops k).
      destruct (nth_error opsB k) as [op|] eqn:EB; cbn [option_map].
      + assert (Eg : g k = Op_SetTimeStep dt).
        { unfold g. destruct (Nat.ltb_spec k n); [reflexivity|lia]. }
        rewrite Eg, Op_Update_SetTimeStep.
        destruct (Op_Update fes op) as [op' tri]. cbn [fst snd].
        split; [reflexivity|]. intros i.
        destruct (Nat.eq_dec i k) as [->|Hne].
        * rewrite !nth_error_array_update_eq, Eops, EB, Eg. reflexivity.
        * rewrite !nth_error_array_update_neq by lia. apply Eops.
      + cbn [fst snd]. split; [reflexivity|exact Eops]. }
  destruct (Inv n (Nat.le_refl n)) as (Etr & Eops).
  destruct (for_loop n body (S ops, [])) as [opsA trA].
  cbn [fst snd] in *. f_equal; [|exact Etr].
  apply nth_error_ext. intros i. rewrite Eops, HS. reflexivity.
Qed.

(** X23. A later time step replaces an earlier one.
    [CombinedOp::SetTimeStep(dt2)] after [SetTimeStep(dt1)] leaves the
    operator exactly as [SetTimeStep(dt2)] alone does: nothing of [dt1]
    remains in any operator or coefficient.  The call changes neither the
    sizes nor [offsets_], nor the number of operators. *)
Theorem SetTimeStep_last_call_wins (dt1 dt2 : R) (x : CombinedOp.t) :
  SetTimeStep dt2 (SetTimeStep dt1 x) = SetTimeStep dt2 x
  /\ height (SetTimeStep dt1 x) = height x
  /\ width (SetTimeStep dt1 x) = width x
  /\ neq_ (SetTimeStep dt1 x) = neq_ x
  /\ offsets_ (SetTimeStep dt1 x) = offsets_ x
  /\ length (op_ (SetTimeStep dt1 x)) = length (op_ x)
  /\ forall i, (neq_ x <= i)%nat ->
       nth_error (op_ (SetTimeStep dt1 x)) i = nth_error (op_ x) i.
Proof.
  destruct (for_loop_array_update (fun i => i) (fun _ => Op_SetTimeStep dt1)
              (neq_ x) (op_ x) ltac:(auto)) as (Hl & _ & Hout).
  split; [|repeat (split; [reflexivity|])].
  - unfold SetTimeStep.
    cbn [height width neq_ op_ offsets_]. f_equal.
    apply for_loop_array_update_twice, Op_SetTimeStep_twice.
  - split; [exact Hl|]. intros i Hi. apply Hout. intros j Hj. lia.
Qed.

(** X24. Setting the time step and updating commute.
    [CombinedOp::Update(fes)] after [SetTimeStep(dt)] gives the operator
    that [SetTimeStep(dt)] after [Update(fes)] gives, with the same
    [Update] calls on the forms and grid functions: an update after a
    mesh change keeps the time step. *)
Theorem Update_commutes_with_SetTimeStep (fes : ParFiniteElementSpace)
  (dt : R) (x : CombinedOp.t) :
  Update fes (SetTimeStep dt x)
  = (SetTimeStep dt (fst (Update fes x)), snd (Update fes x)).
Proof.
  unfold Update. cbn [SetTimeStep neq_ op_ height width offsets_].
  pose proof (Update_loop_SetTimeStep fes dt (neq_ x) (op_ x)) as E.
  cbv zeta in E.
  match goal with
  | |- context [for_loop (neq_ x) ?b (for_loop (neq_ x) ?s (op_ x), ?e)] =>
      assert (E' : for_loop (neq_ x) b (for_loop (neq_ x) s (op_ x), e)
                   = (for_loop (neq_ x) s
                        (fst (for_loop (neq_ x) b (op_ x, e))),
                      snd (for_loop (neq_ x) b (op_ x, e))))
        by exact E;
      rewrite E'; clear E E';
      change (for_loop (neq_ x) b (op_ x, e))
        with (for_loop (neq_ x) b (op_ x, [])) in *;
      destruct (for_loop (neq_ x) b (op_ x, [])) as [ops tr]
  end.
  cbn [fst snd]. f_equal.
  unfold updateOffsets, SetTimeStep. cbn [height width neq_ op_ offsets_].
  set (S := for_loop (neq_ x)
              (fun i a => array_update a i (Op_SetTimeStep dt))).
  assert (EH : forall i, Height_at (S ops) i = Height_at ops i).
  { intros i. unfold Height_at, S.
    destruct (for_loop_array_update (fun i => i)
                (fun _ => Op_SetTimeStep dt) (neq_ x) ops ltac:(auto))
      as (_ & Hin & Hout).
    destruct (Nat.lt_ge_cases i (neq_ x)) as [Hi|Hi].
    - rewrite (Hin i Hi). destruct (nth_error ops i); cbn; [|reflexivity].
      apply Height_Op_SetTimeStep.
    - rewrite Hout by (intros; lia). reflexivity. }
  rewrite (for_loop_ext (neq_ x)
             (fun i offsets =>
                array_update offsets (i + 1)
                  (fun _ => Height_at (S ops) i))
             (fun i offsets =>
                array_update offsets (i + 1) (fun _ => Height_at ops i)))
    by (intros i t _; now rewrite EH).
  reflexivity.
Qed.

(** X26. The time step survives an update.  After [SetTimeStep(dt)] and
    then [Update(fes)], operator [i] is the operator [op_[i]] with its
    time step set and then updated: its [dt_] is [dt], its height
    [fes.GetVSize()], each of its five [y1Coef_] has [beta = dt], and each
    of its [dt]-scaled coefficients has the factor [dt], or [-dt] for the
    three negated ones. *)
Theorem time_step_survives_Update (fes : ParFiniteElementSpace) (dt : R)
  (x : CombinedOp.t) (i : nat) (op : Op) :
  (i < neq_ x)%nat ->
  nth_error (op_ x) i = Some op ->
  let op' := fst (Op_Update fes (Op_SetTimeStep dt op)) in
  nth_error (op_ (fst (Update fes (SetTimeStep dt x)))) i = Some op'
  /\ NLOperator.dt_ (base op') = dt
  /\ Height op' = GetVSize fes
  /\ (forall j c, (j < 5)%nat ->
        nth_error (NLOperator.y1Coef_ (base op)) j = Some c ->
        nth_error (NLOperator.y1Coef_ (base op')) j = Some (SetBeta dt c))
  /\ (forall name c, In (name, c) (dt_coefficients op') ->
        AConst c = if negated_dt_coefficient name then - dt else dt).
Proof.
  intros Hi Hop op'.
  destruct (Op_Update_frame fes (Op_SetTimeStep dt op))
    as (Edt & _ & Ey & _ & Ec).
  cbv zeta in Edt, Ey, Ec. fold op' in Edt, Ey, Ec.
  split; [|split; [|split; [|split]]].
  - unfold Update.
    pose proof (Update_loop fes (op_ (SetTimeStep dt x))
                  (neq_ (SetTimeStep dt x))) as HL.
    cbv zeta in HL.
    destruct (for_loop (neq_ (SetTimeStep dt x)) _
                (op_ (SetTimeStep dt x), [])) as [ops tr].
    cbn [fst snd] in *. destruct HL as (_ & Hin & _).
    unfold updateOffsets. cbn [op_].
    rewrite (Hin i Hi), (SetTimeStep_op dt x i op Hi Hop). reflexivity.
  - rewrite Edt, base_Op_SetTimeStep. reflexivity.
  - apply Op_Update_spec.
  - intros j c Hj Hc. rewrite Ey, base_Op_SetTimeStep.
    apply NLOperator_SetTimeStep_y1Coef; assumption.
  - intros name c Hin. rewrite Ec in Hin.
    exact (dt_coefficients_SetTimeStep dt op name c Hin).
Qed.

(** A run of X26: the electron pressure operator of [example_op] after
    [SetTimeStep(0.5)] and an update. *)
Lemma time_step_survives_Update_witness :
  exists op,
    nth_error (op_ example_op) 4 = Some op
    /\ exists op',
         nth_error (op_ (fst (Update example_fes
                                (SetTimeStep 0.5 example_op)))) 4
         = Some op'
         /\ NLOperator.dt_ (base op') = 0.5.
Proof.
  destruct (nth_error (op_ example_op) 4) as [op|] eqn:E;
    [|vm_compute in E; discriminate E].
  exists op. split; [reflexivity|].
  exists (fst (Op_Update example_fes (Op_SetTimeStep 0.5 op))).
  assert (Hi : (4 < neq_ example_op)%nat) by (vm_compute; lia).
  pose proof (time_step_survives_Update example_fes 0.5 example_op 4 op
                Hi E) as H.
  cbv zeta in H. split; [apply H|apply H].
Defined.

End CombinedOpProperties.

(** ** Properties of [TransportPrec] *)

Section TransportPrecProperties.

Import Lib TransportPrec.
Local Open Scope Z_scope.

(** The loop of [SetOperator] over the first [t] diagonal blocks. *)
Lemma SetOperator_loop blk_op (x : TransportPrec.t) t :
  (t <= length (diag_prec_ x))%nat ->
  let r := for_loop t (fun i r =>
      bind r (fun st =>
        let '(x, tr) := st in
        if negb (IsZeroBlock blk_op i i) then
          let tr :=
            tr ++ if_allocated (nth i (diag_prec_ x) None)
                    [Call (Elem "diag_prec_" i) "delete"] in
          match GetBlock blk_op i i with
          | HypreParMatrix M => Ok (set_diag_prec i (HypreBoomerAMG M) x, tr)
          | OtherOperator _ => Abort "std::bad_cast"
          end
        else Ok (x, tr))) (Ok (x, [])) in
  (r = Abort "std::bad_cast"
   /\ exists i nm, (i < t)%nat /\ IsZeroBlock blk_op i i = false
                   /\ GetBlock blk_op i i = OtherOperator nm)
  \/ (exists x' tr,
        r = Ok (x', tr)
        /\ height x' = height x /\ width x' = width x
        /\ Offsets x' = Offsets x
        /\ length (diag_prec_ x') = length (diag_prec_ x)
        /\ (forall i, (i < t)%nat -> rebuilt blk_op x x' i)
        /\ (forall i, (t <= i)%nat ->
              nth_error (diag_prec_ x') i = nth_error (diag_prec_ x) i
              /\ DiagonalBlock x' i = DiagonalBlock x i)
        /\ (forall i, In (Call (Elem "diag_prec_" i) "delete") tr
              <-> (i < t)%nat /\ IsZeroBlock blk_op i i = false
                  /\ nth i (diag_prec_ x) None <> None)).
Proof.
  induction t as [|t IH]; intros Ht; cbv zeta.
  - right. exists x, []. cbn [for_loop].
    repeat (split; [reflexivity|]). split; [intros; lia|].
    split; [intros; split; reflexivity|].
    intros i. split; [intros []|intros (H & _); lia].
  - cbn [for_loop]. cbv zeta in IH.
    destruct (IH ltac:(lia)) as [(-> & i & nm & Hi & Hz & Hb)|
      (x' & tr & -> & Hh & Hw & Ho & Hl & Hin & Hout & Htr)]; clear IH.
    + left. split; [reflexivity|]. exists i, nm. split; [lia|]. auto.
    + cbn [bind].
      destruct (Hout t (Nat.le_refl t)) as (Hdp & Hdb).
      assert (Hnth : nth t (diag_prec_ x') None = nth t (diag_prec_ x) None).
      { destruct (nth_error (diag_prec_ x') t) as [a|] eqn:E1;
          symmetry in Hdp.
        - rewrite (nth_error_nth _ _ None E1), (nth_error_nth _ _ None Hdp).
          reflexivity.
        - rewrite !nth_overflow by (apply nth_error_None; assumption).
          reflexivity. }
      destruct (IsZeroBlock blk_op t t) eqn:Hz; cbn [negb].
      * right. exists x', tr. split; [reflexivity|].
        repeat (split; [assumption|]). split; [|split].
        -- intros i Hi. destruct (Nat.eq_dec i t) as [->|Hne].
           ++ unfold rebuilt. rewrite Hz. auto.
           ++ apply Hin. lia.
        -- intros i Hi. apply Hout. lia.
        -- intros i. rewrite Htr. split.
           ++ intros (Hi & H). split; [lia|exact H].
           ++ intros (Hi & Hzi & H).
              destruct (Nat.eq_dec i t) as [->|Hne]; [congruence|].
              split; [lia|auto].
      * destruct (GetBlock blk_op t t) as [M|nm] eqn:Hb.
        -- right. eexists _, _. split; [reflexivity|].
           unfold set_diag_prec.
           cbn [height width Offsets diag_prec_ DiagonalBlock].
           rewrite length_array_update.
           repeat (split; [assumption|]). split; [|split].
           ++ intros i Hi. destruct (Nat.eq_dec i t) as [->|Hne].
              ** unfold rebuilt. rewrite Hz. exists M.
                 cbn [diag_prec_ DiagonalBlock].
                 rewrite nth_error_array_update_eq, Nat.eqb_refl, Hdp.
                 split; [exact Hb|]. split; [|reflexivity].
                 destruct (nth_error (diag_prec_ x) t) eqn:E;
                   [reflexivity|].
                 apply nth_error_None in E. lia.
              ** specialize (Hin i ltac:(lia)). unfold rebuilt in *.
                 cbn [diag_prec_ DiagonalBlock].
                 rewrite nth_error_array_update_neq by lia.
                 destruct (Nat.eqb_spec t i); [lia|]. exact Hin.
           ++ intros i Hi. rewrite nth_error_array_update_neq by lia.
              destruct (Nat.eqb_spec t i); [lia|]. apply Hout. lia.
           ++ intros i. rewrite in_app_iff, Htr, Hnth. split.
              ** intros [(Hi & H)|H]; [split; [lia|exact H]|].
                 destruct (nth t (diag_prec_ x) None) eqn:E;
                   cbn in H; [|contradiction].
                 destruct H as [H|[]]. injection H as <-.
                 split; [lia|]. split; [exact Hz|]. congruence.
              ** intros (Hi & Hzi & H).
                 destruct (Nat.eq_dec i t) as [->|Hne].
                 --- right.
                     destruct (nth t (diag_prec_ x) None);
                       [left; reflexivity|congruence].
                 --- left. split; [lia|auto].
        -- left. split; [reflexivity|]. exists t, nm. split; [lia|]. auto.
Qed.

(** X30. What [TransportPrec::SetOperator] rebuilds.  For an operator
    that is not a block operator only [height] and [width] change.  For a
    block operator the call throws [std::bad_cast] exactly when some
    non-zero diagonal block is not a [HypreParMatrix]; otherwise it takes
    the size and the offsets of the operator and, for every index of
    [diag_prec_], replaces the preconditioner by a new [HypreBoomerAMG] on
    the diagonal block and registers it, unless that block is zero: then
    the preconditioner built for an earlier operator stays.  Exactly the
    allocated preconditioners that are replaced are deleted. *)
Theorem SetOperator_diagonal_blocks (op : Operator) (x : TransportPrec.t) :
  match op with
  | Plain h =>
      SetOperator op x
      = Ok ({| height := h; width := h; Offsets := Offsets x;
               DiagonalBlock := DiagonalBlock x;
               diag_prec_ := diag_prec_ x |}, [])
  | Blocked blk_op =>
      (SetOperator op x = Abort "std::bad_cast"
       /\ exists i nm,
            (i < length (diag_prec_ x))%nat
            /\ IsZeroBlock blk_op i i = false
            /\ GetBlock blk_op i i = OtherOperator nm)
      \/ (exists x' tr,
            SetOperator op x = Ok (x', tr)
            /\ height x' = blk_Height blk_op
            /\ width x' = blk_Height blk_op
            /\ Offsets x' = RowOffsets blk_op
            /\ length (diag_prec_ x') = length (diag_prec_ x)
            /\ (forall i, (i < length (diag_prec_ x))%nat ->
                  rebuilt blk_op x x' i)
            /\ (forall i,
                  In (Call (Elem "diag_prec_" i) "delete") tr
                  <-> (i < length (diag_prec_ x))%nat
                      /\ IsZeroBlock blk_op i i = false
                      /\ nth i (diag_prec_ x) None <> None))
  end.
Proof.
  destruct op as [blk_op|h]; [|reflexivity].
  unfold SetOperator.
  cbn [Height height width Offsets DiagonalBlock diag_prec_].
  pose proof (SetOperator_loop blk_op
    {| height := blk_Height blk_op; width := blk_Height blk_op;
       Offsets := RowOffsets blk_op; DiagonalBlock := DiagonalBlock x;
       diag_prec_ := diag_prec_ x |} (length (diag_prec_ x))
    (Nat.le_refl _)) as H.
  cbv zeta in H. cbn [height width Offsets DiagonalBlock diag_prec_] in H.
  destruct H as [(E & H)|(x' & tr & E & Hh & Hw & Ho & Hl & Hin & _ & Htr)].
  - left. split; [exact E|exact H].
  - right. exists x', tr. split; [exact E|].
    split; [exact Hh|]. split; [exact Hw|]. split; [exact Ho|].
    split; [exact Hl|]. split; [|exact Htr].
    intros i Hi. exact (Hin i Hi).
Qed.

(** A run of X30 on a new preconditioner: the diagonal blocks 0, 3 and 4
    of [example_op] get an AMG preconditioner, the zero blocks 1 and 2
    keep [NULL], and nothing is deleted. *)
Lemma SetOperator_diagonal_blocks_witness :
  exists x' tr,
    SetOperator (Blocked example_op) example = Ok (x', tr)
    /\ nth_error (diag_prec_ x') 0 = Some (Some (HypreBoomerAMG "gradIJ"))
    /\ nth_error (diag_prec_ x') 1 = Some None
    /\ ~ In (Call (Elem "diag_prec_" 0) "delete") tr.
Proof.
  destruct (SetOperator_diagonal_blocks (Blocked example_op) example)
    as [(_ & i & nm & _ & _ & H)|(x' & tr & E & _ & _ & _ & _ & Hin & Htr)].
  - discriminate H.
  - exists x', tr. split; [exact E|].
    pose proof (Hin 0%nat ltac:(cbn; lia)) as H0.
    pose proof (Hin 1%nat ltac:(cbn; lia)) as H1.
    unfold rebuilt in H0, H1. cbn in H0, H1.
    destruct H0 as (M & HM & H0 & _). injection HM as <-.
    split; [exact H0|]. split; [apply H1|].
    intros H. apply Htr in H. destruct H as (_ & _ & H). apply H.
    reflexivity.
Defined.

End TransportPrecProperties.

(** ** Further properties of the [ex1lor] driver *)

Section Ex1LorProperties.

Import Ex1Lor.
Local Open Scope string_scope.
Local Open Scope Z_scope.
Local Open Scope list_scope.



End Ex1LorProperties.
